(** * VolleyVision: calibration model, metric converters, rep metrics
      and the session

    A shallow embedding of [sketch.js]: its numeric core
    ([finalizeCalibration], [metersAboveNetAtPoint], [metersHorizDistance],
    [computeAllRepMetrics] and the reductions of [renderStatsTable]) and
    the handlers around it ([mousePressed], [keyPressed], [nextColour],
    [primeVideo], [updateDashboard], [restartVideoHidden], the state part of
    [draw], the callbacks set up in [setup]).

    - JavaScript numbers are IEEE 754 binary64 values.  They are modelled
      by Rocq's primitive [float], whose operations are the same binary64
      operations (round to nearest, ties to even, with signed zeros,
      infinities and NaN) and are specified by [Prim2SF] and [SpecFloat].
    - [null] and [undefined] are [None]; a thrown TypeError is the [None]
      result of a function that returns an [option].
    - The globals of the sketch that the core reads and writes
      ([calibPts], [pixelsPerMeter], [topLine], [trails]) form the record
      [state], passed in and handed back.
    - Loop counters that only hold array indices and counts are [Z] and
      [nat].

    The file has the program first, then the reference definitions the
    statements use, then facts about binary64 (order, and the monotonicity
    of rounded subtraction and division), then the properties of the
    numeric core, and last the properties of the session. *)

From Stdlib Require Import ZArith List Bool Lia Floats Permutation.
From Stdlib Require String.
Import String.StringSyntax.
Import ListNotations.

Set Warnings "-inexact-float".

Local Open Scope float_scope.

(** ** JavaScript helpers *)

Module JS.

(** [!v] on a value that is a number or [null]: [null], [0], [-0] and
    [NaN] are falsy. *)
Definition falsy (v : option float) : bool :=
  match v with
  | None => true
  | Some f => is_zero f || is_nan f
  end.

(** [isFinite(v)] on a number. *)
Definition isFinite (v : float) : bool := is_finite v.

(** The float of an integer [n] with [|n| < 2^53]; [s] is the sign to use. *)
Definition of_int (s : bool) (n : Z) : float :=
  let f := of_uint63 (Uint63.of_Z (Z.abs n)) in
  if s then - f else f.

(** [Math.round(v)]: the integer nearest to [v], a tie going towards
    +Infinity.  NaN, the infinities and integral values (both zeros
    among them) come back unchanged; a value in [-0.5, 0) gives [-0]. *)
Definition Math_round (v : float) : float :=
  match Prim2SF v with
  | S754_finite s mv e =>
      if (0 <=? e)%Z then v
      else
        let k := (2 ^ (- e))%Z in
        let n := ((2 * cond_Zopp s (Zpos mv) + k) / (2 * k))%Z in
        if (n =? 0)%Z then (if s then neg_zero else zero)
        else of_int (n <? 0)%Z n
  | _ => v
  end.

End JS.

(** ** Data model *)

(** Official net height in metres: [const NET_HEIGHT_M = 2.43]. *)
Definition NET_HEIGHT_M : float := 2.43.

(** A calibration click [{ x: mouseX, y: mouseY }]. *)
Record point := Pt { x : float; y : float }.

(** A recorded click of a rep [{ x, y, t }]. *)
Record click := Click { cx : float; cy : float; ct : float }.

(** [calibPts = { LB, LT, RB, RT }], each [null] until clicked. *)
Record calib_pts := CalibPts {
  LB : option point;
  LT : option point;
  RB : option point;
  RT : option point
}.

(** [topLine = { m, b }]: the top tape as [y = m*x + b]. *)
Record line := Line { m : float; b : float }.

(** The display arrow of a rep: ['→'], ['←'] or ['•']. *)
Inductive arrow := Forward | Backward | Neutral.

(** A rep.  The four metric fields are absent on a fresh rep. *)
Record rep := Rep {
  points : list click;
  color : list Z;
  peakM : option float;
  aboveNetCM : option float;
  widthM : option float;
  direction : option arrow
}.

(** The globals the numeric core reads and writes. *)
Record state := State {
  calibPts : calib_pts;
  pixelsPerMeter : option float;
  topLine : option line;
  trails : list rep
}.

(** The state after a full reset (key R) and at start-up. *)
Definition initial : state :=
  State (CalibPts None None None None) None None [].

(** ** Calibration math *)

(** [finalizeCalibration()].  Reading [.x] or [.y] of a point that is
    still [null] throws a TypeError, which is the [None] result; nothing
    else in the function can throw. *)
Definition finalizeCalibration (st : state) : option state :=
  match LT (calibPts st), LB (calibPts st), RT (calibPts st), RB (calibPts st) with
  | Some lt, Some lb, Some rt, Some rb =>
      let hLeft := abs (y lt - y lb) in
      let hRight := abs (y rt - y rb) in
      let hAvgPx := (hLeft + hRight) / 2 in
      let ppm := hAvgPx / NET_HEIGHT_M in
      let m := (y rt - y lt) / (x rt - x lt) in
      let b := y lt - m * x lt in
      Some (State (calibPts st) (Some ppm) (Some (Line m b)) (trails st))
  | _, _, _, _ => None
  end.

(** [metersAboveNetAtPoint(x, y)]. *)
Definition metersAboveNetAtPoint (st : state) (x y : float) : option float :=
  match pixelsPerMeter st, topLine st with
  | Some ppm, Some tl =>
      if JS.falsy (Some ppm) then None
      else
        let yTop := m tl * x + b tl in
        let dyPx := yTop - y in
        Some (dyPx / ppm)
  | _, _ => None
  end.

(** [metersHorizDistance(p1, p2)]. *)
Definition metersHorizDistance (st : state) (p1 p2 : click) : option float :=
  match pixelsPerMeter st with
  | Some ppm =>
      if JS.falsy (Some ppm) then None
      else
        let dxPx := abs (cx p2 - cx p1) in
        Some (dxPx / ppm)
  | None => None
  end.

(** ** Metrics per rep *)

(** One turn of the peak loop:
    [if (a != null && a > peakAboveM) peakAboveM = a]. *)
Definition peak_step (st : state) (peakAboveM : float) (p : click) : float :=
  match metersAboveNetAtPoint st (cx p) (cy p) with
  | Some a => if peakAboveM <? a then a else peakAboveM
  | None => peakAboveM
  end.

(** The peak loop, started at [-Infinity]. *)
Definition peak_loop (st : state) (ps : list click) : float :=
  fold_left (peak_step st) ps neg_infinity.

(** The end point [rep.points[rep.points.length - 1]] of a non-empty list. *)
Definition last_click (p0 : click) (ps : list click) : click := last ps p0.

(** The body of the loop of [computeAllRepMetrics] for one rep.  An array
    is always truthy, so the guard [!rep.points] never fires. *)
Definition computeRepMetrics (st : state) (r : rep) : rep :=
  match points r with
  | [] | [_] => Rep (points r) (color r) None None None None
  | start :: rest =>
      let peakAboveM := peak_loop st (points r) in
      let '(pk, cm) :=
        if negb (JS.isFinite peakAboveM) then (None, None)
        else (Some (NET_HEIGHT_M + peakAboveM),
              Some (JS.Math_round (peakAboveM * 100))) in
      let end_ := last_click start rest in
      let wM := metersHorizDistance st start end_ in
      let dir :=
        if cx start <? cx end_ then Forward
        else if cx end_ <? cx start then Backward
        else Neutral in
      Rep (points r) (color r) pk cm wM (Some dir)
  end.

(** [computeAllRepMetrics()]: every rep of [trails] gets its metrics. *)
Definition computeAllRepMetrics (st : state) : state :=
  State (calibPts st) (pixelsPerMeter st) (topLine st)
        (map (computeRepMetrics st) (trails st)).

(** ** Stats table *)

(** The accumulators of the loop of [renderStatsTable].  The counters
    [nPeak] and [nWidth] count reps of one array, so they stay below
    2^32 and are exact; they are kept as [nat]. *)
Record acc := Acc {
  bestIdx : Z;
  bestVal : float;
  sumPeak : float;
  nPeak : nat;
  sumWidth : float;
  nWidth : nat
}.

Definition acc0 : acc := Acc (-1) neg_infinity 0 0 0 0.

(** One turn of the loop, for the rep [r] at index [i]. *)
Definition stats_step (i : Z) (r : rep) (a : acc) : acc :=
  let a1 :=
    match peakM r with
    | Some pk =>
        let '(bi, bv) :=
          if bestVal a <? pk then (i, pk) else (bestIdx a, bestVal a) in
        Acc bi bv (sumPeak a + pk) (S (nPeak a)) (sumWidth a) (nWidth a)
    | None => a
    end in
  match widthM r with
  | Some w =>
      Acc (bestIdx a1) (bestVal a1) (sumPeak a1) (nPeak a1)
          (sumWidth a1 + w) (S (nWidth a1))
  | None => a1
  end.

Fixpoint stats_loop (i : Z) (rs : list rep) (a : acc) : acc :=
  match rs with
  | [] => a
  | r :: rs' => stats_loop (i + 1) rs' (stats_step i r a)
  end.

(** The float of a counter. *)
Definition of_nat (n : nat) : float := JS.of_int false (Z.of_nat n).

(** What [renderStatsTable()] prints under the table. *)
Record summary := Summary {
  best : option (Z * float);      (* "Highest Peak: Rep bestIdx+1 (bestVal m)" *)
  avgPeak : option float;
  avgWidth : option float
}.

(** The reductions of [renderStatsTable()]; the HTML is left out. *)
Definition renderStatsTable (st : state) : summary :=
  let a := stats_loop 0 (trails st) acc0 in
  Summary
    (if (0 <=? bestIdx a)%Z then Some (bestIdx a, bestVal a) else None)
    (match nPeak a with O => None | _ => Some (sumPeak a / of_nat (nPeak a)) end)
    (match nWidth a with O => None | _ => Some (sumWidth a / of_nat (nWidth a)) end).

(** ** The scenario of the specification *)

Definition scenario_pts : calib_pts :=
  CalibPts (Some (Pt 100 400)) (Some (Pt 100 200))
           (Some (Pt 700 410)) (Some (Pt 700 205)).

Definition scenario0 : state := State scenario_pts None None [].

(** ** Reference definitions

    The quantities the specification names, written from its words; the
    theorems below compare the program with them. *)

(** [verticalOffsetMeters(model, x, y)]: [yReference = slope * x + intercept],
    result [(yReference - y) / pixelsPerMeter]. *)
Definition verticalOffsetMeters (ppm : float) (tl : line) (x y : float) : float :=
  (m tl * x + b tl - y) / ppm.

(** [horizontalDistanceMeters(model, p1, p2) = |p2.x - p1.x| / pixelsPerMeter]. *)
Definition horizontalDistanceMeters (ppm : float) (p1 p2 : click) : float :=
  abs (cx p2 - cx p1) / ppm.

(** [Forward] if [last.x > first.x], [Backward] if [last.x < first.x],
    else [Neutral]. *)
Definition direction_of (first last : click) : arrow :=
  if cx first <? cx last then Forward
  else if cx last <? cx first then Backward
  else Neutral.



(** The model [finalizeCalibration] stores for the points [lb lt rb rt]. *)
Definition calibrated (st : state) (lb lt rb rt : point) : state :=
  let slope := (y rt - y lt) / (x rt - x lt) in
  State (calibPts st)
        (Some ((abs (y lt - y lb) + abs (y rt - y rb)) / 2 / NET_HEIGHT_M))
        (Some (Line slope (y lt - slope * x lt)))
        (trails st).

(** The non-null values of a metric over the reps, in rep order. *)
Definition non_null (f : rep -> option float) (rs : list rep) : list float :=
  flat_map (fun r => match f r with Some v => [v] | None => [] end) rs.

(** The sum of a list from the left, starting at 0. *)
Definition fsum (l : list float) : float := fold_left add l 0.

(** The arithmetic mean of a list, absent for the empty list. *)
Definition mean (l : list float) : option float :=
  match l with
  | [] => None
  | _ => Some (fsum l / of_nat (length l))
  end.

(** Example states. *)

(** Four clicks with the two top points on one vertical line. *)
Definition vertical_pts : calib_pts :=
  CalibPts (Some (Pt 100 400)) (Some (Pt 100 200))
           (Some (Pt 100 410)) (Some (Pt 100 205)).

(** Four clicks with both net sides of height zero. *)
Definition flat_pts : calib_pts :=
  CalibPts (Some (Pt 100 200)) (Some (Pt 100 200))
           (Some (Pt 700 205)) (Some (Pt 700 205)).

(** The model of the scenario, and the state before any calibration,
    each with reps to measure. *)
Definition scenario_model (rs : list rep) : state :=
  State scenario_pts (Some (202.5 / 2.43))
        (Some (Line ((205 - 200) / (700 - 100))
                    (200 - (205 - 200) / (700 - 100) * 100))) rs.


(** The model [finalizeCalibration] stores for [flat_pts]. *)
Definition flat_model (rs : list rep) : state :=
  State flat_pts (Some 0)
        (Some (Line ((205 - 200) / (700 - 100))
                    (200 - (205 - 200) / (700 - 100) * 100))) rs.

Definition fresh_rep (ps : list click) : rep :=
  Rep ps [255; 80; 80]%Z None None None None.

(** A set from left to right with its peak at (400, 150). *)
Definition rep_right : rep :=
  fresh_rep [Click 300 400 1; Click 400 150 2; Click 500 400 3].

Local Open Scope string_scope.

(** ** More reference definitions *)

(** The rep with the same clicks in the opposite order. *)
Definition reversed (r : rep) : rep :=
  Rep (rev (points r)) (color r) (peakM r) (aboveNetCM r) (widthM r)
      (direction r).

(** The arrow that points the other way. *)
Definition opposite (d : arrow) : arrow :=
  match d with
  | Forward => Backward
  | Backward => Forward
  | Neutral => Neutral
  end.

(** A float, seen as its specification, that has the sign bit [s] or is NaN. *)
Definition has_sign (s : bool) (r : spec_float) : Prop :=
  match r with
  | S754_zero s' | S754_infinity s' | S754_finite s' _ _ => s' = s
  | S754_nan => True
  end.

(** ** The sketch as a state machine

    The rest of [sketch.js]: the globals, and the handlers p5.js and the
    browser call ([mousePressed], [keyPressed], [draw], the [onended]
    callback, the time-out of [primeVideo] and the five dashboard buttons).
    What a handler reads from the environment (mouse position, key, the
    video's clock) is an argument; what it sends to the video element is
    appended to a list of commands; what it writes to the page (visibility
    of the stats container and of the buttons, the label of the toggle
    button, the content of the stats container) is a field of the state.
    Painting on the canvas and the layout of the widgets are left out.
    A handler that throws returns [None]. *)

(** [PALETTE]: the colours of the reps. *)
Definition PALETTE : list (list Z) :=
  [ [255; 80; 80]; [255; 160; 0]; [255; 220; 0]; [0; 190; 255];
    [80; 220; 160]; [180; 120; 255]; [255; 100; 200] ]%Z.

(** Functions of p5.js and of the language that the handlers call. *)
Module P5.

(** [ENTER], the key code of the Enter key. *)
Definition ENTER : Z := 13.

(** [a[i]] for an integer [i]: [undefined] outside the array. *)
Definition index {A : Type} (l : list A) (i : Z) : option A :=
  if (i <? 0)%Z then None else nth_error l (Z.to_nat i).

(** [n++] on a counter that holds an integer from 0 to 2^53: the sum is
    exact below 2^53, and 2^53 + 1 rounds back to 2^53. *)
Definition incr (n : Z) : Z := if (n <? 2 ^ 53)%Z then (n + 1)%Z else n.

(** [max(u, v)]: NaN if either is NaN, and +0 is above -0. *)
Definition max (u v : float) : float :=
  if is_nan u || is_nan v then nan
  else if u <? v then v
  else if v <? u then u
  else if is_zero u && get_sign u then v else u.

(** [min(u, v)]: NaN if either is NaN, and -0 is below +0. *)
Definition min (u v : float) : float :=
  if is_nan u || is_nan v then nan
  else if u <? v then u
  else if v <? u then v
  else if is_zero u && negb (get_sign u) then v else u.

End P5.

(** [nextColour()]: the palette entry at [paletteIdx % PALETTE.length] and
    the counter after [paletteIdx++].  Outside the palette the entry is
    [undefined], and its [.slice()] throws. *)
Definition nextColour (paletteIdx : Z) : option (list Z) * Z :=
  (P5.index PALETTE (Z.rem paletteIdx (Z.of_nat (length PALETTE))),
   P5.incr paletteIdx).

(** What the handlers send to the video element and the canvas. *)
Inductive cmd :=
| VidVolume (v : float)      (* vid.volume(v) *)
| VidPlay                    (* vid.play() *)
| VidPause                   (* vid.pause() *)
| VidTime (t : float)        (* vid.time(t) *)
| SaveCanvas.                (* saveCanvas('reps_snapshot', 'png') *)

(** What a handler reads from the video element: [vid.elt.paused],
    [vid.time()] and [vid.duration()]. *)
Record video_env := Env {
  vidPaused : bool;
  vidTime : float;
  vidDuration : float
}.

(** The globals of the sketch and the page state it writes. *)
Record sketch := Sketch {
  core : state;                  (* calibPts, pixelsPerMeter, topLine, trails *)
  ready : bool;
  warmed : bool;
  started : bool;
  current : rep;                 (* { points, color } *)
  showAllAtEnd : bool;
  showTrails : bool;
  calibStep : Z;
  statsVisible : bool;
  paletteIdx : Z;
  statsDisplay : bool;           (* statsDiv is displayed ('block') *)
  statsHtml : option summary;    (* what statsDiv holds; '' is None *)
  buttonsShown : bool;           (* the five buttons are shown *)
  toggleLabel : option bool;     (* Some true: 'Hide trails'; Some false:
                                    'Show trails'; None: 'Toggle trails' *)
  primeTimers : nat;             (* time-outs of primeVideo not yet fired *)
  sent : list cmd                (* commands sent so far, oldest first *)
}.

Definition set_core (v : state) (a : sketch) : sketch :=
  Sketch v (ready a) (warmed a) (started a) (current a) (showAllAtEnd a)
      (showTrails a) (calibStep a) (statsVisible a) (paletteIdx a)
      (statsDisplay a) (statsHtml a) (buttonsShown a) (toggleLabel a)
      (primeTimers a) (sent a).

Definition set_ready (v : bool) (a : sketch) : sketch :=
  Sketch (core a) v (warmed a) (started a) (current a) (showAllAtEnd a)
      (showTrails a) (calibStep a) (statsVisible a) (paletteIdx a)
      (statsDisplay a) (statsHtml a) (buttonsShown a) (toggleLabel a)
      (primeTimers a) (sent a).

Definition set_warmed (v : bool) (a : sketch) : sketch :=
  Sketch (core a) (ready a) v (started a) (current a) (showAllAtEnd a)
      (showTrails a) (calibStep a) (statsVisible a) (paletteIdx a)
      (statsDisplay a) (statsHtml a) (buttonsShown a) (toggleLabel a)
      (primeTimers a) (sent a).

Definition set_started (v : bool) (a : sketch) : sketch :=
  Sketch (core a) (ready a) (warmed a) v (current a) (showAllAtEnd a)
      (showTrails a) (calibStep a) (statsVisible a) (paletteIdx a)
      (statsDisplay a) (statsHtml a) (buttonsShown a) (toggleLabel a)
      (primeTimers a) (sent a).

Definition set_current (v : rep) (a : sketch) : sketch :=
  Sketch (core a) (ready a) (warmed a) (started a) v (showAllAtEnd a)
      (showTrails a) (calibStep a) (statsVisible a) (paletteIdx a)
      (statsDisplay a) (statsHtml a) (buttonsShown a) (toggleLabel a)
      (primeTimers a) (sent a).

Definition set_showAllAtEnd (v : bool) (a : sketch) : sketch :=
  Sketch (core a) (ready a) (warmed a) (started a) (current a) v (showTrails a)
      (calibStep a) (statsVisible a) (paletteIdx a) (statsDisplay a)
      (statsHtml a) (buttonsShown a) (toggleLabel a) (primeTimers a)
      (sent a).

Definition set_showTrails (v : bool) (a : sketch) : sketch :=
  Sketch (core a) (ready a) (warmed a) (started a) (current a) (showAllAtEnd a)
      v (calibStep a) (statsVisible a) (paletteIdx a) (statsDisplay a)
      (statsHtml a) (buttonsShown a) (toggleLabel a) (primeTimers a)
      (sent a).

Definition set_calibStep (v : Z) (a : sketch) : sketch :=
  Sketch (core a) (ready a) (warmed a) (started a) (current a) (showAllAtEnd a)
      (showTrails a) v (statsVisible a) (paletteIdx a) (statsDisplay a)
      (statsHtml a) (buttonsShown a) (toggleLabel a) (primeTimers a)
      (sent a).

Definition set_statsVisible (v : bool) (a : sketch) : sketch :=
  Sketch (core a) (ready a) (warmed a) (started a) (current a) (showAllAtEnd a)
      (showTrails a) (calibStep a) v (paletteIdx a) (statsDisplay a)
      (statsHtml a) (buttonsShown a) (toggleLabel a) (primeTimers a)
      (sent a).

Definition set_paletteIdx (v : Z) (a : sketch) : sketch :=
  Sketch (core a) (ready a) (warmed a) (started a) (current a) (showAllAtEnd a)
      (showTrails a) (calibStep a) (statsVisible a) v (statsDisplay a)
      (statsHtml a) (buttonsShown a) (toggleLabel a) (primeTimers a)
      (sent a).

Definition set_statsDisplay (v : bool) (a : sketch) : sketch :=
  Sketch (core a) (ready a) (warmed a) (started a) (current a) (showAllAtEnd a)
      (showTrails a) (calibStep a) (statsVisible a) (paletteIdx a) v
      (statsHtml a) (buttonsShown a) (toggleLabel a) (primeTimers a)
      (sent a).

Definition set_statsHtml (v : option summary) (a : sketch) : sketch :=
  Sketch (core a) (ready a) (warmed a) (started a) (current a) (showAllAtEnd a)
      (showTrails a) (calibStep a) (statsVisible a) (paletteIdx a)
      (statsDisplay a) v (buttonsShown a) (toggleLabel a) (primeTimers a)
      (sent a).

Definition set_buttonsShown (v : bool) (a : sketch) : sketch :=
  Sketch (core a) (ready a) (warmed a) (started a) (current a) (showAllAtEnd a)
      (showTrails a) (calibStep a) (statsVisible a) (paletteIdx a)
      (statsDisplay a) (statsHtml a) v (toggleLabel a) (primeTimers a)
      (sent a).

Definition set_toggleLabel (v : option bool) (a : sketch) : sketch :=
  Sketch (core a) (ready a) (warmed a) (started a) (current a) (showAllAtEnd a)
      (showTrails a) (calibStep a) (statsVisible a) (paletteIdx a)
      (statsDisplay a) (statsHtml a) (buttonsShown a) v (primeTimers a)
      (sent a).

Definition set_primeTimers (v : nat) (a : sketch) : sketch :=
  Sketch (core a) (ready a) (warmed a) (started a) (current a) (showAllAtEnd a)
      (showTrails a) (calibStep a) (statsVisible a) (paletteIdx a)
      (statsDisplay a) (statsHtml a) (buttonsShown a) (toggleLabel a) v
      (sent a).

Definition set_sent (v : list cmd) (a : sketch) : sketch :=
  Sketch (core a) (ready a) (warmed a) (started a) (current a) (showAllAtEnd a)
      (showTrails a) (calibStep a) (statsVisible a) (paletteIdx a)
      (statsDisplay a) (statsHtml a) (buttonsShown a) (toggleLabel a)
      (primeTimers a) v.

Notation "a |> f" := (f a) (at level 45, left associativity, only parsing).

(** [trails = rs]. *)
Definition set_trails (rs : list rep) (a : sketch) : sketch :=
  a |> set_core (State (calibPts (core a)) (pixelsPerMeter (core a))
                       (topLine (core a)) rs).

(** [calibPts = cp]. *)
Definition set_calibPts (cp : calib_pts) (a : sketch) : sketch :=
  a |> set_core (State cp (pixelsPerMeter (core a)) (topLine (core a))
                       (trails (core a))).

Definition send (cs : list cmd) (a : sketch) : sketch :=
  a |> set_sent (sent a ++ cs).

(** [current = { points: [], color: nextColour() }]. *)
Definition startRep (a : sketch) : option sketch :=
  match nextColour (paletteIdx a) with
  | (Some c, i) =>
      Some (a |> set_paletteIdx i |> set_current (Rep [] c None None None None))
  | (None, _) => None
  end.

(** [rep.points.push(p)] and [rep.points.pop()]. *)
Definition push_point (p : click) (r : rep) : rep :=
  Rep (points r ++ [p]) (color r) (peakM r) (aboveNetCM r) (widthM r)
      (direction r).

Definition pop_point (r : rep) : rep :=
  Rep (removelast (points r)) (color r) (peakM r) (aboveNetCM r) (widthM r)
      (direction r).

(** [updateDashboard()]. *)
Definition updateDashboard (a : sketch) : sketch :=
  if showAllAtEnd a && (4 <=? calibStep a)%Z
  then a |> set_buttonsShown true |> set_toggleLabel (Some (showTrails a))
  else a |> set_buttonsShown false.

(** [primeVideo()]; its time-out is counted in [primeTimers]. *)
Definition primeVideo (a : sketch) : sketch :=
  if warmed a then a
  else a |> send [VidVolume 0; VidPlay]
         |> set_primeTimers (S (primeTimers a)).

(** What [draw()] does to the state. *)
Definition draw (a : sketch) : sketch :=
  if (calibStep a <? 4)%Z
  then (if negb (warmed a) then primeVideo a else a)
  else updateDashboard a.

(** The time-out of [primeVideo]: [vid.pause(); warmed = true; redraw()]. *)
Definition primeTimeout (a : sketch) : sketch :=
  a |> send [VidPause] |> set_warmed true |> draw.

(** [mousePressed()]. *)
Definition mousePressed (mouseX mouseY : float) (env : video_env) (a : sketch)
  : option sketch :=
  if negb (warmed a) then Some (primeVideo a)
  else if (calibStep a <? 4)%Z then
    let pt := Pt mouseX mouseY in
    let cp := calibPts (core a) in
    let a1 :=
      if (calibStep a =? 0)%Z
      then a |> set_calibPts (CalibPts (Some pt) (LT cp) (RB cp) (RT cp))
      else if (calibStep a =? 1)%Z
      then a |> set_calibPts (CalibPts (LB cp) (Some pt) (RB cp) (RT cp))
      else if (calibStep a =? 2)%Z
      then a |> set_calibPts (CalibPts (LB cp) (LT cp) (Some pt) (RT cp))
      else if (calibStep a =? 3)%Z
      then a |> set_calibPts (CalibPts (LB cp) (LT cp) (RB cp) (Some pt))
      else a in
    let a2 := a1 |> set_calibStep (calibStep a1 + 1) in
    if (calibStep a2 =? 4)%Z then
      match finalizeCalibration (core a2) with
      | Some st => Some (a2 |> set_core st)
      | None => None
      end
    else Some a2
  else if negb (started a) then
    Some (a |> send [VidPlay] |> set_started true)
  else if showAllAtEnd a then Some a
  else
    Some (a |> set_current
                 (push_point (Click mouseX mouseY (vidTime env)) (current a))).

(** The handler of the Replay button, and the Enter key. *)
Definition replay (a : sketch) : option sketch :=
  match a |> set_showAllAtEnd false |> set_showTrails false
          |> set_statsDisplay false |> startRep with
  | Some a1 => Some (a1 |> send [VidTime 0; VidPlay] |> updateDashboard)
  | None => None
  end.

(** [restartVideoHidden()]. *)
Definition restartVideoHidden (a : sketch) : option sketch :=
  match a |> set_showAllAtEnd false |> set_showTrails false
          |> set_statsDisplay false |> startRep with
  | Some a1 =>
      Some (a1 |> send [VidTime 0; VidPlay] |> set_started true
               |> updateDashboard)
  | None => None
  end.

(** The R key: full reset. *)
Definition reset (a : sketch) : option sketch :=
  match a |> set_trails [] |> startRep with
  | Some a1 =>
      Some (a1 |> set_showAllAtEnd false |> set_started false
               |> set_ready false
               |> set_calibStep 0
               |> set_core (State (CalibPts None None None None) None None
                                  (trails (core a1)))
               |> set_warmed false
               |> set_statsDisplay false |> set_statsHtml None
               |> send [VidTime 0; VidPause]
               |> set_ready true
               |> updateDashboard)
  | None => None
  end.

(** [keyPressed()], for the values of [key] and [keyCode]. *)
Definition keyPressed (key : String.string) (keyCode : Z) (env : video_env)
    (a : sketch) : option sketch :=
  if (calibStep a <? 4)%Z then Some a
  else if String.eqb key " " then
    Some (a |> send [if vidPaused env then VidPlay else VidPause])
  else if String.eqb key "N" || String.eqb key "n" then
    (if (0 <? length (points (current a)))%nat
     then a |> set_trails (trails (core a) ++ [current a])
     else a) |> startRep
  else if String.eqb key "Z" || String.eqb key "z" then
    Some (if (0 <? length (points (current a)))%nat
          then a |> set_current (pop_point (current a))
          else a)
  else if String.eqb key "," then
    Some (if negb (showAllAtEnd a)
          then a |> send [VidPause;
                          VidTime (P5.max 0 (vidTime env - 1 / 30))]
          else a)
  else if String.eqb key "." then
    Some (if negb (showAllAtEnd a)
          then a |> send [VidPause;
                          VidTime (P5.min (vidDuration env)
                                          (vidTime env + 1 / 30))]
          else a)
  else if (keyCode =? P5.ENTER)%Z then replay a
  else if String.eqb key "S" || String.eqb key "s" then restartVideoHidden a
  else if String.eqb key "R" || String.eqb key "r" then reset a
  else Some a.

(** The [onended] callback of the video: the trails are revealed, the
    metrics computed and the stats table rendered. *)
Definition onended (a : sketch) : sketch :=
  let a1 := a |> set_showAllAtEnd true |> set_showTrails true in
  let a2 := a1 |> set_core (computeAllRepMetrics (core a1)) in
  a2 |> set_statsHtml (Some (renderStatsTable (core a2)))
     |> set_statsDisplay true |> set_statsVisible true
     |> updateDashboard.

(** The handlers of the Toggle, Snapshot and Stats buttons. *)
Definition toggleTrails (a : sketch) : sketch :=
  a |> set_showTrails (negb (showTrails a)) |> updateDashboard.

Definition snapshot (a : sketch) : sketch :=
  let prev := showTrails a in
  a |> set_showTrails true |> draw |> send [SaveCanvas]
    |> set_showTrails prev.

Definition toggleStats (a : sketch) : sketch :=
  a |> set_statsVisible (negb (statsVisible a))
    |> set_statsDisplay (negb (statsVisible a)).

(** The state [setup()] leaves: the video muted, the first colour taken. *)
Definition setup : option sketch :=
  Sketch initial false false false (Rep [] [] None None None None) false true
      0 true 0 false None false None 0 [VidVolume 0]
  |> startRep.

(** The events of a session. *)
Inductive event :=
| MousePressed (mouseX mouseY : float) (env : video_env)
| KeyPressed (key : String.string) (keyCode : Z) (env : video_env)
| Draw
| PrimeTimeout
| VideoReady
| VideoEnded
| ClickReplay
| ClickToggle
| ClickSnapshot
| ClickRestart
| ClickStats.

(** One event.  A time-out only fires if one is pending. *)
Definition step (e : event) (a : sketch) : option sketch :=
  match e with
  | MousePressed mouseX mouseY env => mousePressed mouseX mouseY env a
  | KeyPressed key keyCode env => keyPressed key keyCode env a
  | Draw => Some (draw a)
  | PrimeTimeout =>
      match primeTimers a with
      | O => Some a
      | S n => Some (a |> set_primeTimers n |> primeTimeout)
      end
  | VideoReady => Some (a |> set_ready true)
  | VideoEnded => Some (onended a)
  | ClickReplay => replay a
  | ClickToggle => Some (toggleTrails a)
  | ClickSnapshot => Some (snapshot a)
  | ClickRestart => restartVideoHidden a
  | ClickStats => Some (toggleStats a)
  end.

(** A session: the events in order, stopping at a handler that throws. *)
Fixpoint run (evs : list event) (a : sketch) : option sketch :=
  match evs with
  | [] => Some a
  | e :: evs' =>
      match step e a with
      | Some a' => run evs' a'
      | None => None
      end
  end.

(** A session from start-up. *)
Definition session (evs : list event) : option sketch :=
  match setup with
  | Some a => run evs a
  | None => None
  end.

(** ** What every state of a session satisfies

    The statements about sessions are proved from the invariant [inv]. *)

(** The calibration points clicked so far are set. *)
Definition calib_upto (k : Z) (cp : calib_pts) : Prop :=
  ((1 <= k)%Z -> LB cp <> None) /\ ((2 <= k)%Z -> LT cp <> None) /\
  ((3 <= k)%Z -> RB cp <> None) /\ ((4 <= k)%Z -> RT cp <> None).

(** The model of a state is the one [finalizeCalibration] computes from
    its four points. *)
Definition modelled (st : state) : Prop :=
  exists lb lt rb rt,
    calibPts st = CalibPts (Some lb) (Some lt) (Some rb) (Some rt) /\
    pixelsPerMeter st = pixelsPerMeter (calibrated st lb lt rb rt) /\
    topLine st = topLine (calibrated st lb lt rb rt).

(** A rep without metrics. *)
Definition no_metrics (r : rep) : Prop :=
  peakM r = None /\ aboveNetCM r = None /\ widthM r = None /\
  direction r = None.

(** A rep of [trails]: it has a point and a palette colour, and its
    metrics are absent or those of the model of [st]. *)
Definition closed_ok (st : state) (r : rep) : Prop :=
  points r <> [] /\ In (color r) PALETTE /\
  (no_metrics r \/ computeRepMetrics st r = r).

(** The summary [s] is that of the first reps of [rs]. *)
Definition shows (s : summary) (rs : list rep) : Prop :=
  exists n, (n <= length rs)%nat /\
            s = renderStatsTable
                  (State (CalibPts None None None None) None None (firstn n rs)).

(** The invariant, apart from the dashboard. *)
Record inv0 (a : sketch) : Prop := Inv0 {
  inv_step : (0 <= calibStep a <= 4)%Z;
  inv_pts : calib_upto (calibStep a) (calibPts (core a));
  inv_before :
    (calibStep a < 4)%Z ->
    pixelsPerMeter (core a) = None /\ topLine (core a) = None /\
    trails (core a) = [] /\ points (current a) = [];
  inv_after : calibStep a = 4%Z -> modelled (core a);
  inv_warm : (0 < calibStep a)%Z -> warmed a = true;
  inv_started :
    started a = false -> trails (core a) = [] /\ points (current a) = [];
  inv_trails : forall r, In r (trails (core a)) -> closed_ok (core a) r;
  inv_current : In (color (current a)) PALETTE /\ no_metrics (current a);
  inv_palette :
    (1 <= paletteIdx a <= 2 ^ 53)%Z /\
    ((paletteIdx a < 2 ^ 53)%Z ->
     fst (nextColour (paletteIdx a - 1)) = Some (color (current a)));
  inv_stats :
    showAllAtEnd a = true ->
    statsVisible a = statsDisplay a /\ statsHtml a <> None;
  inv_table : forall s, statsHtml a = Some s -> shows s (trails (core a))
}.

(** The buttons are only shown on the end screen of a calibrated session. *)
Definition buttons_ok (a : sketch) : Prop :=
  buttonsShown a = true -> showAllAtEnd a = true /\ calibStep a = 4%Z.

Definition inv (a : sketch) : Prop := inv0 a /\ buttons_ok a.

(** ** Example sessions *)

(** The clicks of a list, as events and as recorded points. *)
Definition click_events (cs : list (float * float * video_env)) : list event :=
  map (fun c => MousePressed (fst (fst c)) (snd (fst c)) (snd c)) cs.

Definition clicked (cs : list (float * float * video_env)) : list click :=
  map (fun c => Click (fst (fst c)) (snd (fst c)) (vidTime (snd c))) cs.

(** A video that is paused at second 1 of 10. *)
Definition env0 : video_env := Env true 1 10.

(** The session of the scenario up to the first recorded click: the click
    that primes the video, its time-out, the four calibration clicks and
    the click that starts playback. *)
Definition scenario_events : list event :=
  [MousePressed 10 10 env0; PrimeTimeout;
   MousePressed 100 400 env0; MousePressed 100 200 env0;
   MousePressed 700 410 env0; MousePressed 700 205 env0;
   MousePressed 10 10 env0].

(** The state at start-up, after priming, and after [scenario_events]. *)
Definition at_start : sketch :=
  Sketch initial false false false (Rep [] [255; 80; 80]%Z None None None None)
         false true 0 true 1 false None false None 0 [VidVolume 0].

Definition primed : sketch :=
  Sketch initial false true false (Rep [] [255; 80; 80]%Z None None None None)
         false true 0 true 1 false None false None 0
         [VidVolume 0; VidVolume 0; VidPlay; VidPause].

Definition recording : sketch :=
  Sketch (scenario_model []) false true true
         (Rep [] [255; 80; 80]%Z None None None None)
         false true 4 true 1 false None false None 0
         [VidVolume 0; VidVolume 0; VidPlay; VidPause; VidPlay].

(** Four clicks with the top tape level at y = 200. *)
Definition level_pts : calib_pts :=
  CalibPts (Some (Pt 100 400)) (Some (Pt 100 200))
           (Some (Pt 700 400)) (Some (Pt 700 200)).

(** A set that ends under the x it started at. *)
Definition rep_dot : rep :=
  Rep [Click 300 400 1; Click 320 250 2; Click 300 380 3] [255; 99; 132]%Z
      None None None None.

(** ** Rounding to a binary format

    The pieces of the binary64 specification ([SpecFloat]) the proofs about
    rounding are stated with: an exact value is a ratio N/G or N/D of
    integers, scaled by a power of two. *)

Module Round.

Local Open Scope Z_scope.

(** The record [shr] works on, for the exact value N/G: quotient, round bit
    (the remainder is at least half of G) and sticky bit. *)
Definition rec_of (N G : Z) : shr_record :=
  {| shr_m := N / G;
     shr_r := G <=? 2 * (N mod G);
     shr_s := negb ((N mod G =? 0) || (2 * (N mod G) =? G)) |}.

Definition loc_of (N G : Z) : location := loc_of_shr_record (rec_of N G).

(** The integer nearest to N/G, ties to even. *)
Definition RNE (N G : Z) : Z := round_nearest_even (N / G) (loc_of N G).

(** The end of [binary_round_aux]: the rounded mantissa [M] at exponent [E]
    is renormalised and checked for overflow. *)
Definition finish (prec emax : Z) (s : bool) (M E : Z) : spec_float :=
  let '(mrs, e) := shr_fexp prec emax M E loc_Exact in
  match shr_m mrs with
  | Z0 => S754_zero s
  | Zpos m => if e <=? emax - prec then S754_finite s m e else S754_infinity s
  | Zneg _ => S754_nan
  end.

(** The exponent of the grid on which (N/D) * 2^emin is rounded. *)
Definition grid_exp (prec emax : Z) (N D : Z) : Z :=
  fexp prec emax (Zdigits2 (N / D) + SpecFloat.emin prec emax).

(** The float of sign [s] nearest to (N/D) * 2^emin. *)
Definition round_ratio (prec emax : Z) (s : bool) (N D : Z) : spec_float :=
  let E := grid_exp prec emax N D in
  finish prec emax s (RNE N (2 ^ (E - SpecFloat.emin prec emax) * D)) E.

(** [N/H] is a mantissa for the exponent [E]: below 2^prec, and at least
    2^(prec-1) unless [E] is the least exponent. *)
Definition on_grid (prec emax : Z) (N H E : Z) : Prop :=
  0 <= N /\ 0 < H /\ N < 2 ^ prec * H /\ SpecFloat.emin prec emax <= E /\
  (SpecFloat.emin prec emax < E -> 2 ^ (prec - 1) * H <= N).

(** The magnitude of a float in units of 2^emin, the infinities counting
    as 2^(emax - emin). *)
Definition magnitude (prec emax : Z) (r : spec_float) : Z :=
  match r with
  | S754_zero _ | S754_nan => 0
  | S754_infinity _ => 2 ^ (emax - SpecFloat.emin prec emax)
  | S754_finite _ m e => Zpos m * 2 ^ (e - SpecFloat.emin prec emax)
  end.

(** The sign bit of a float. *)
Definition sign_of (r : spec_float) : bool :=
  match r with
  | S754_zero s | S754_infinity s | S754_finite s _ _ => s
  | S754_nan => false
  end.

(** The value of a float in units of 2^emin, the infinities counting as
    +-2^(emax - emin). *)
Definition signed_value (prec emax : Z) (r : spec_float) : Z :=
  cond_Zopp (sign_of r) (magnitude prec emax r).

(** A float that is a number of the format: not NaN, and a finite one has
    a canonical mantissa and exponent. *)
Definition good (prec emax : Z) (r : spec_float) : Prop :=
  match r with
  | S754_nan => False
  | S754_finite _ m e =>
      Zpos m < 2 ^ prec /\
      SpecFloat.emin prec emax <= e <= emax - prec /\
      (SpecFloat.emin prec emax < e -> 2 ^ (prec - 1) <= Zpos m)
  | _ => True
  end.

(** The float nearest to (X/D) * 2^emin, for any sign of [X]. *)
Definition round_signed (prec emax : Z) (X D : Z) : spec_float :=
  round_ratio prec emax (X <? 0) (Z.abs X) D.

(** A zero or a finite non-zero float. *)
Definition finite_or_zero (r : spec_float) : Prop :=
  match r with
  | S754_zero _ | S754_finite _ _ _ => True
  | _ => False
  end.

End Round.

(** * Facts about binary64 *)

(** The comparisons and the classification of primitive floats, read off
    their specification [Prim2SF]. *)
Module B64.

Lemma SFcompare_refl (a : spec_float) :
  a <> S754_nan -> SFcompare a a = Some Eq.
Proof.
  destruct a as [s|s| |s ma e]; simpl; try congruence; intros _.
  - destruct s; reflexivity.
  - destruct s; rewrite Z.compare_refl; fold (Pos.compare ma ma);
      rewrite Pos.compare_refl; reflexivity.
Qed.

Lemma is_nan_spec (f : float) :
  is_nan f = match Prim2SF f with S754_nan => true | _ => false end.
Proof.
  unfold is_nan. rewrite eqb_spec. unfold SFeqb.
  destruct (Prim2SF f) eqn:E;
    try (rewrite SFcompare_refl by congruence; reflexivity).
  reflexivity.
Qed.

Lemma is_zero_spec (f : float) :
  is_zero f = match Prim2SF f with S754_zero _ => true | _ => false end.
Proof.
  unfold is_zero. rewrite eqb_spec.
  change (Prim2SF zero) with (S754_zero false). unfold SFeqb.
  destruct (Prim2SF f) as [s|s| |s ma e]; simpl; try reflexivity;
    destruct s; reflexivity.
Qed.

Lemma is_infinity_spec (f : float) :
  is_infinity f = match Prim2SF f with S754_infinity _ => true | _ => false end.
Proof.
  unfold is_infinity. rewrite eqb_spec, abs_spec.
  change (Prim2SF infinity) with (S754_infinity false). unfold SFeqb.
  destruct (Prim2SF f) as [s|s| |s ma e]; reflexivity.
Qed.

Lemma is_finite_spec (f : float) :
  is_finite f =
  match Prim2SF f with S754_zero _ | S754_finite _ _ _ => true | _ => false end.
Proof.
  unfold is_finite. rewrite is_nan_spec, is_infinity_spec.
  destruct (Prim2SF f); reflexivity.
Qed.

Lemma finite_not_nan (f : float) : is_finite f = true -> is_nan f = false.
Proof.
  rewrite is_finite_spec, is_nan_spec. destruct (Prim2SF f); congruence.
Qed.

(** Case analysis on every comparison of exponents and mantissas in sight. *)
Ltac cmp_cases :=
  repeat match goal with
  | |- context [Z.compare ?u ?v] => destruct (Z.compare_spec u v)
  | |- context [Pos.compare_cont Eq ?u ?v] =>
      fold (Pos.compare u v); destruct (Pos.compare_spec u v)
  | H : context [Z.compare ?u ?v] |- _ => destruct (Z.compare_spec u v)
  | H : context [Pos.compare_cont Eq ?u ?v] |- _ =>
      fold (Pos.compare u v) in H; destruct (Pos.compare_spec u v)
  end.

Ltac sf_order :=
  repeat match goal with
  | s : bool |- _ => destruct s
  end;
  simpl in *; try discriminate; try reflexivity; try congruence;
  cmp_cases; simpl in *; try discriminate; try reflexivity; try lia.

Lemma SFleb_trans a c d :
  SFleb a c = true -> SFleb c d = true -> SFleb a d = true.
Proof.
  unfold SFleb.
  destruct a as [sa|sa| |sa ma ea], c as [sc|sc| |sc mc ec],
           d as [sd|sd| |sd md ed];
    simpl; try discriminate; try reflexivity; intros H1 H2; sf_order.
Qed.

Lemma SFleb_ltb_trans a c d :
  SFleb a c = true -> SFltb c d = true -> SFltb a d = true.
Proof.
  unfold SFleb, SFltb.
  destruct a as [sa|sa| |sa ma ea], c as [sc|sc| |sc mc ec],
           d as [sd|sd| |sd md ed];
    simpl; try discriminate; try reflexivity; intros H1 H2; sf_order.
Qed.

Lemma SFltb_leb a c : SFltb a c = true -> SFleb a c = true.
Proof.
  unfold SFleb, SFltb. destruct (SFcompare a c) as [[ | | ]|]; congruence.
Qed.

Lemma SFltb_false_leb a c :
  a <> S754_nan -> c <> S754_nan -> SFltb a c = false -> SFleb c a = true.
Proof.
  unfold SFleb, SFltb.
  destruct a as [sa|sa| |sa ma ea], c as [sc|sc| |sc mc ec];
    simpl; try congruence; intros _ _ H; sf_order.
Qed.

(** The same facts on floats. *)

Lemma nan_false (f : float) :
  is_nan f = false -> Prim2SF f <> S754_nan.
Proof. rewrite is_nan_spec. destruct (Prim2SF f); congruence. Qed.

Lemma leb_trans (u v w : float) :
  (u <=? v) = true -> (v <=? w) = true -> (u <=? w) = true.
Proof. rewrite !leb_spec. apply SFleb_trans. Qed.

Lemma leb_ltb_trans (u v w : float) :
  (u <=? v) = true -> (v <? w) = true -> (u <? w) = true.
Proof. rewrite !leb_spec, !ltb_spec. apply SFleb_ltb_trans. Qed.

Lemma ltb_leb (u v : float) : (u <? v) = true -> (u <=? v) = true.
Proof. rewrite leb_spec, ltb_spec. apply SFltb_leb. Qed.

Lemma ltb_false_leb (u v : float) :
  is_nan u = false -> is_nan v = false ->
  (u <? v) = false -> (v <=? u) = true.
Proof.
  intros Hu Hv. rewrite leb_spec, ltb_spec.
  apply SFltb_false_leb; now apply nan_false.
Qed.

Lemma leb_refl (u : float) : is_nan u = false -> (u <=? u) = true.
Proof.
  intros Hu. rewrite leb_spec. unfold SFleb.
  rewrite SFcompare_refl; [reflexivity | now apply nan_false].
Qed.

Lemma SFleb_not_ltb a c : SFleb a c = true -> SFltb c a = false.
Proof.
  unfold SFleb, SFltb.
  destruct a as [sa|sa| |sa ma ea], c as [sc|sc| |sc mc ec];
    simpl; try discriminate; try reflexivity; intros H; sf_order.
Qed.

Lemma leb_not_ltb (u v : float) : (u <=? v) = true -> (v <? u) = false.
Proof. rewrite leb_spec, ltb_spec. apply SFleb_not_ltb. Qed.

Lemma neg_infinity_ltb (u : float) :
  is_finite u = true -> (neg_infinity <? u) = true.
Proof.
  rewrite is_finite_spec, ltb_spec.
  change (Prim2SF neg_infinity) with (S754_infinity true).
  destruct (Prim2SF u); cbn; congruence.
Qed.


Lemma finite_leb_neg_infinity (u : float) :
  is_finite u = true -> (u <=? neg_infinity) = false.
Proof.
  rewrite is_finite_spec, leb_spec.
  change (Prim2SF neg_infinity) with (S754_infinity true).
  destruct (Prim2SF u) as [s|s| |s mu e]; cbn; congruence.
Qed.

Lemma ltb_trans (u v w : float) :
  (u <? v) = true -> (v <? w) = true -> (u <? w) = true.
Proof. intros H. apply leb_ltb_trans. now apply ltb_leb. Qed.

(** A number above zero is truthy. *)
Lemma pos_not_zero (u : float) : (0 <? u) = true -> is_zero u = false.
Proof.
  rewrite ltb_spec, is_zero_spec. change (Prim2SF 0) with (S754_zero false).
  unfold SFltb. destruct (Prim2SF u) as [s|s| |[|] mu e]; cbn; congruence.
Qed.

Lemma pos_not_nan (u : float) : (0 <? u) = true -> is_nan u = false.
Proof.
  rewrite ltb_spec, is_nan_spec. change (Prim2SF 0) with (S754_zero false).
  unfold SFltb. destruct (Prim2SF u) as [s|s| |[|] mu e]; cbn; congruence.
Qed.

(** [a - c] for [a == c]: a zero between finite numbers, NaN between
    two infinities. *)
Lemma SFsub_eqb a c :
  SFeqb a c = true ->
  match SF64sub a c with
  | S754_zero _ => a <> S754_infinity true /\ a <> S754_infinity false
  | S754_nan => exists s, a = S754_infinity s
  | _ => False
  end.
Proof.
  unfold SFeqb, SF64sub.
  destruct a as [sa|sa| |sa ma ea], c as [sc|sc| |sc mc ec];
    simpl; intros H; try discriminate H;
    try (destruct sa; discriminate H); try (destruct sc; discriminate H).
  - destruct sa, sc; simpl; split; congruence.
  - destruct sa, sc; simpl; try discriminate; eauto.
  - destruct sa, sc; try discriminate;
      destruct (Z.compare_spec ea ec); try discriminate; subst;
      fold (Pos.compare ma mc) in H;
      destruct (Pos.compare_spec ma mc); try discriminate; subst;
      rewrite Z.min_id; unfold shl_align; rewrite Z.sub_diag; simpl;
      rewrite ?Z.pos_sub_diag; simpl; split; congruence.
Qed.

(** Dividing by a zero or by NaN never gives a finite number. *)
Lemma SFdiv_by_zero_or_nan a c :
  match c with S754_zero _ | S754_nan => True | _ => False end ->
  match SF64div a c with
  | S754_infinity _ | S754_nan => True
  | _ => False
  end.
Proof.
  unfold SF64div.
  destruct a as [sa|sa| |sa ma ea], c as [sc|sc| |sc mc ec]; simpl; tauto.
Qed.

Lemma abs_sub_eqb (u v : float) :
  is_finite u = true -> (u =? v) = true -> abs (u - v) = 0.
Proof.
  rewrite is_finite_spec, eqb_spec. intros Hf He.
  apply Prim2SF_inj. rewrite abs_spec, sub_spec.
  pose proof (SFsub_eqb _ _ He) as H.
  destruct (SF64sub (Prim2SF u) (Prim2SF v)) as [s|s| |s mu e];
    try contradiction.
  - reflexivity.
  - destruct H as [s Hs]. rewrite Hs in Hf. discriminate.
Qed.

Lemma div_sub_eqb_not_finite (d u v : float) :
  (u =? v) = true -> is_finite (d / (u - v)) = false.
Proof.
  rewrite eqb_spec, is_finite_spec, div_spec, sub_spec. intros He.
  pose proof (SFsub_eqb _ _ He) as H.
  pose proof (SFdiv_by_zero_or_nan (Prim2SF d)
                (SF64sub (Prim2SF u) (Prim2SF v))) as D.
  destruct (SF64sub (Prim2SF u) (Prim2SF v)) as [s|s| |s mu e];
    try contradiction;
    destruct (SF64div _ _); tauto.
Qed.

End B64.

(** * Rounding: subtraction and division keep the order

    [SpecFloat] gives the operations as algorithms on mantissas and
    exponents.  This part shows that subtraction and division are the
    rounding to nearest of the exact result, and that this rounding is
    monotone. *)

Module Rounding.

Import Round.

Local Open Scope Z_scope.

Lemma digits2_pos_size p : digits2_pos p = Pos.size p.
Proof. induction p; simpl; congruence. Qed.

Lemma Zdigits2_log2 m : 0 < m -> Zdigits2 m = Z.succ (Z.log2 m).
Proof.
  destruct m as [|p|p]; try lia. intros _. simpl.
  rewrite digits2_pos_size. destruct p; simpl; lia.
Qed.

Lemma Zdigits2_bounds m : 0 < m -> 2 ^ (Zdigits2 m - 1) <= m < 2 ^ Zdigits2 m.
Proof.
  intros H. rewrite Zdigits2_log2 by assumption.
  replace (Z.succ (Z.log2 m) - 1) with (Z.log2 m) by lia.
  apply Z.log2_spec. assumption.
Qed.

Lemma Zdigits2_nonneg m : 0 <= Zdigits2 m.
Proof. destruct m; simpl; lia. Qed.

Lemma shr_record_of_loc_of N G :
  shr_record_of_loc (N / G) (loc_of N G) = rec_of N G.
Proof.
  unfold loc_of, rec_of.
  generalize (G <=? 2 * (N mod G))
             (negb ((N mod G =? 0) || (2 * (N mod G) =? G))).
  intros [|] [|]; reflexivity.
Qed.

Lemma shr_1_div2 m r s :
  0 <= m ->
  shr_1 {| shr_m := m; shr_r := r; shr_s := s |} =
  {| shr_m := Z.div2 m; shr_r := Z.odd m; shr_s := r || s |}.
Proof. destruct m as [|[p|p|]|p]; intros H; try reflexivity; lia. Qed.

Lemma shr_1_rec_of N G : 0 <= N -> 0 < G -> shr_1 (rec_of N G) = rec_of N (2 * G).
Proof.
  intros HN HG. unfold rec_of.
  rewrite shr_1_div2 by (apply Z.div_pos; lia).
  assert (Hq : N / (2 * G) = Z.div2 (N / G)).
  { rewrite Z.div2_div, (Z.mul_comm 2 G), Z.div_div by lia. reflexivity. }
  assert (Hr : N mod (2 * G) = G * ((N / G) mod 2) + N mod G).
  { rewrite (Z.mul_comm 2 G). rewrite Z.rem_mul_r by lia. lia. }
  pose proof (Z.mod_pos_bound N G HG) as Hb.
  rewrite Hq, Hr, Zmod_odd.
  generalize dependent (N mod G). intros r _ Hb.
  destruct (Z.odd (N / G)); f_equal;
    destruct (Z.leb_spec G (2 * r)), (Z.eqb_spec r 0), (Z.eqb_spec (2 * r) G);
    cbn [orb negb];
    repeat match goal with
    | |- context [?a <=? ?b] => destruct (Z.leb_spec a b)
    | |- context [?a =? ?b] => destruct (Z.eqb_spec a b)
    end; cbn [orb negb]; try reflexivity; lia.
Qed.

Lemma iter_pos_shr_1 (p : positive) : forall N G,
  0 <= N -> 0 < G ->
  iter_pos shr_1 p (rec_of N G) = rec_of N (2 ^ Zpos p * G).
Proof.
  induction p as [p IH|p IH|]; intros N G HN HG; cbn [iter_pos].
  - rewrite shr_1_rec_of, IH, IH by (try apply Z.mul_pos_pos; lia).
    f_equal. replace (Z.pos p~1) with (Z.pos p + Z.pos p + 1) by lia.
    rewrite !Z.pow_add_r, Z.pow_1_r by lia. ring.
  - rewrite IH, IH by (try apply Z.mul_pos_pos; lia).
    f_equal. replace (Z.pos p~0) with (Z.pos p + Z.pos p) by lia.
    rewrite Z.pow_add_r by lia. ring.
  - rewrite shr_1_rec_of by lia. reflexivity.
Qed.

Lemma shr_rec_of N G e n :
  0 <= N -> 0 < G -> 0 <= n ->
  shr (rec_of N G) e n = (rec_of N (2 ^ n * G), e + n).
Proof.
  intros HN HG Hn. unfold shr. destruct n as [|p|p]; try lia.
  - rewrite Z.pow_0_r, Z.mul_1_l, Z.add_0_r. reflexivity.
  - rewrite iter_pos_shr_1 by assumption. reflexivity.
Qed.

Lemma RNE_eq N G :
  0 < G ->
  RNE N G =
  N / G + (if 2 * (N mod G) <? G then 0
           else if G <? 2 * (N mod G) then 1
           else if Z.even (N / G) then 0 else 1).
Proof.
  intros HG. unfold RNE, loc_of, rec_of, loc_of_shr_record, round_nearest_even.
  pose proof (Z.mod_pos_bound N G HG).
  destruct (Z.leb_spec G (2 * (N mod G))), (Z.eqb_spec (N mod G) 0),
    (Z.eqb_spec (2 * (N mod G)) G), (Z.ltb_spec (2 * (N mod G)) G),
    (Z.ltb_spec G (2 * (N mod G))); cbn [orb negb]; try lia;
    destruct (Z.even (N / G)); lia.
Qed.

Lemma RNE_bounds N G : 0 < G -> N / G <= RNE N G <= N / G + 1.
Proof.
  intros HG. rewrite RNE_eq by assumption.
  destruct (_ <? _); [lia|]. destruct (_ <? _); [lia|]. destruct (Z.even _); lia.
Qed.

Lemma div_cross_le N1 G1 N2 G2 :
  0 < G1 -> 0 < G2 -> N1 * G2 <= N2 * G1 -> N1 / G1 <= N2 / G2.
Proof.
  intros H1 H2 H. apply Z.div_le_lower_bound; [assumption|].
  pose proof (Z.mul_div_le N1 G1 H1).
  assert (G2 * (N1 / G1) * G1 <= N2 * G1) by nia. nia.
Qed.

Lemma RNE_mono N1 G1 N2 G2 :
  0 < G1 -> 0 < G2 -> N1 * G2 <= N2 * G1 -> RNE N1 G1 <= RNE N2 G2.
Proof.
  intros H1 H2 H.
  pose proof (div_cross_le _ _ _ _ H1 H2 H) as Hq.
  destruct (Z.eq_dec (N1 / G1) (N2 / G2)) as [E|E].
  - rewrite !RNE_eq by assumption. rewrite <- E.
    pose proof (Z.div_mod N1 G1 ltac:(lia)) as D1.
    pose proof (Z.div_mod N2 G2 ltac:(lia)) as D2.
    pose proof (Z.mod_pos_bound N1 G1 H1).
    pose proof (Z.mod_pos_bound N2 G2 H2).
    rewrite <- E in D2.
    set (q := N1 / G1) in *. set (r1 := N1 mod G1) in *. set (r2 := N2 mod G2) in *.
    assert (Hr : r1 * G2 <= r2 * G1) by nia.
    destruct (Z.ltb_spec (2 * r1) G1), (Z.ltb_spec G1 (2 * r1)),
      (Z.ltb_spec (2 * r2) G2), (Z.ltb_spec G2 (2 * r2)); try lia;
      destruct (Z.even q); try lia; nia.
  - pose proof (RNE_bounds N1 G1 H1). pose proof (RNE_bounds N2 G2 H2). lia.
Qed.

Lemma RNE_ratio N1 G1 N2 G2 :
  0 < G1 -> 0 < G2 -> N1 * G2 = N2 * G1 -> RNE N1 G1 = RNE N2 G2.
Proof.
  intros H1 H2 H. apply Z.le_antisymm; apply RNE_mono; lia.
Qed.

Lemma RNE_exact N : RNE N 1 = N.
Proof.
  rewrite RNE_eq by lia. rewrite Z.mod_1_r, Z.div_1_r. simpl. lia.
Qed.

Lemma RNE_ge N G k : 0 < G -> k * G <= N -> k <= RNE N G.
Proof.
  intros HG H. pose proof (RNE_bounds N G HG).
  assert (k <= N / G) by (apply Z.div_le_lower_bound; lia). lia.
Qed.

Lemma RNE_le N G k : 0 < G -> N <= k * G -> RNE N G <= k.
Proof.
  intros HG H.
  replace k with (RNE (k * G) G).
  - apply RNE_mono; nia.
  - rewrite RNE_eq by assumption. rewrite Z.mod_mul, Z.div_mul by lia.
    destruct (Z.ltb_spec (2 * 0) G); lia.
Qed.

Section Format.

Variables prec emax : Z.
Hypothesis Hprec : 0 < prec.
Hypothesis Hemax : prec < emax.

Abbreviation emin := (SpecFloat.emin prec emax).
Abbreviation fexp := (SpecFloat.fexp prec emax).

Lemma fexp_ge_emin d : emin <= fexp d.
Proof. unfold SpecFloat.fexp. lia. Qed.

Lemma binary_round_aux_rec s N G e :
  0 <= N -> 0 < G ->
  0 <= fexp (Zdigits2 (N / G) + e) - e ->
  binary_round_aux prec emax s (N / G) e (loc_of N G) =
  finish prec emax s (RNE N (2 ^ (fexp (Zdigits2 (N / G) + e) - e) * G))
         (e + (fexp (Zdigits2 (N / G) + e) - e)).
Proof.
  intros HN HG Hn. unfold binary_round_aux, shr_fexp at 1.
  rewrite shr_record_of_loc_of, shr_rec_of by assumption.
  unfold finish, RNE, loc_of. reflexivity.
Qed.

Lemma grid_of_digits N G e :
  0 <= N -> 0 < G ->
  0 <= fexp (Zdigits2 (N / G) + e) - e ->
  on_grid prec emax N (2 ^ (fexp (Zdigits2 (N / G) + e) - e) * G)
          (e + (fexp (Zdigits2 (N / G) + e) - e)).
Proof.
  intros HN HG Hn. set (d := Zdigits2 (N / G)) in *.
  set (n := fexp (d + e) - e) in *.
  assert (Hd : 0 <= d) by apply Zdigits2_nonneg.
  assert (Hq : 0 <= N / G) by (apply Z.div_pos; lia).
  assert (H2n : 0 < 2 ^ n) by (apply Z.pow_pos_nonneg; lia).
  assert (HNlt : N < 2 ^ d * G).
  { destruct (Z.eq_dec (N / G) 0) as [E0|E0].
    - assert (N < G) by (apply Z.div_small_iff in E0; lia).
      assert (0 < 2 ^ d) by (apply Z.pow_pos_nonneg; lia). nia.
    - pose proof (Zdigits2_bounds (N / G) ltac:(lia)) as [_ Hb]. fold d in Hb.
      pose proof (Z.mul_succ_div_gt N G HG). nia. }
  assert (Hfe : fexp (d + e) = e + n) by (unfold n; lia).
  unfold on_grid. repeat split.
  - assumption.
  - nia.
  - (* N < 2^prec * (2^n * G) *)
    assert (d <= prec + n) by (unfold n, SpecFloat.fexp; lia).
    assert (2 ^ d <= 2 ^ (prec + n)) by (apply Z.pow_le_mono_r; lia).
    rewrite Z.mul_assoc, <- Z.pow_add_r by lia. nia.
  - rewrite <- Hfe. apply fexp_ge_emin.
  - intros Hlt. rewrite <- Hfe in Hlt.
    assert (Hn' : n = d - prec) by (unfold n, SpecFloat.fexp in *; lia).
    assert (Hdp : 0 < d) by lia.
    assert (Hq0 : 0 < N / G).
    { destruct (N / G) eqn:Eq; simpl in d; try lia. }
    pose proof (Zdigits2_bounds (N / G) Hq0) as [Hb _]. fold d in Hb.
    rewrite Z.mul_assoc, <- Z.pow_add_r by lia.
    replace (prec - 1 + n) with (d - 1) by lia.
    pose proof (Z.mul_div_le N G HG). nia.
Qed.

(** Between two grid representations the smaller value has the smaller
    exponent. *)
Lemma grid_exp_mono N1 H1 E1 N2 H2 E2 :
  on_grid prec emax N1 H1 E1 -> on_grid prec emax N2 H2 E2 ->
  N1 * 2 ^ (E1 - emin) * H2 <= N2 * 2 ^ (E2 - emin) * H1 ->
  0 < N1 ->
  E1 <= E2.
Proof.
  intros (HN1 & HH1 & HA1 & HE1 & HB1) (HN2 & HH2 & HA2 & HE2 & HB2) Hle Hpos.
  destruct (Z.le_gt_cases E1 E2) as [|Hgt]; [assumption|exfalso].
  specialize (HB1 ltac:(lia)).
  replace (E1 - emin) with ((E2 - emin) + (E1 - E2)) in Hle by lia.
  rewrite Z.pow_add_r in Hle by lia.
  assert (0 < 2 ^ (E2 - emin)) by (apply Z.pow_pos_nonneg; lia).
  assert (2 ^ 1 <= 2 ^ (E1 - E2)) by (apply Z.pow_le_mono_r; lia).
  assert (2 ^ prec = 2 * 2 ^ (prec - 1)).
  { replace prec with (1 + (prec - 1)) at 1 by lia.
    rewrite Z.pow_add_r by lia. reflexivity. }
  assert (0 < 2 ^ (prec - 1)) by (apply Z.pow_pos_nonneg; lia).
  rewrite Z.pow_1_r in *.
  set (P := 2 ^ (E2 - emin)) in *. set (Q := 2 ^ (E1 - E2)) in *.
  set (T := 2 ^ (prec - 1)) in *.
  assert (Hc : N1 * H2 * Q <= N2 * H1).
  { apply (Z.mul_le_mono_pos_l _ _ P); [assumption|].
    replace (P * (N1 * H2 * Q)) with (N1 * (P * Q) * H2) by ring.
    replace (P * (N2 * H1)) with (N2 * P * H1) by ring. exact Hle. }
  assert (T * H1 * H2 * 2 <= N1 * H2 * Q).
  { assert (T * H1 * H2 <= N1 * H2) by nia.
    assert (0 <= N1 * H2) by nia. nia. }
  assert (N2 * H1 < 2 * T * H2 * H1) by nia.
  nia.
Qed.

Lemma pow2_split k : 0 < k -> 2 ^ k = 2 * 2 ^ (k - 1).
Proof.
  intros H. replace k with (1 + (k - 1)) at 1 by lia.
  rewrite Z.pow_add_r by lia. reflexivity.
Qed.

(** Rounding on the grid keeps the order of the values. *)
Lemma grid_val_mono N1 H1 E1 N2 H2 E2 :
  on_grid prec emax N1 H1 E1 -> on_grid prec emax N2 H2 E2 ->
  N1 * 2 ^ (E1 - emin) * H2 <= N2 * 2 ^ (E2 - emin) * H1 ->
  RNE N1 H1 * 2 ^ (E1 - emin) <= RNE N2 H2 * 2 ^ (E2 - emin).
Proof.
  intros G1 G2 Hle.
  pose proof G1 as (HN1 & HH1 & HA1 & HE1 & HB1).
  pose proof G2 as (HN2 & HH2 & HA2 & HE2 & HB2).
  assert (HP1 : 0 < 2 ^ (E1 - emin)) by (apply Z.pow_pos_nonneg; lia).
  assert (HP2 : 0 < 2 ^ (E2 - emin)) by (apply Z.pow_pos_nonneg; lia).
  assert (HR2 : 0 <= RNE N2 H2) by (apply RNE_ge; lia).
  destruct (Z.eq_dec N1 0) as [->|Hnz].
  - assert (RNE 0 H1 = 0) as ->; [|nia].
    apply Z.le_antisymm; [apply RNE_le | apply RNE_ge]; lia.
  - pose proof (grid_exp_mono _ _ _ _ _ _ G1 G2 Hle ltac:(lia)) as HE.
    destruct (Z.eq_dec E1 E2) as [<-|Hne].
    + assert (N1 * H2 <= N2 * H1).
      { apply (Z.mul_le_mono_pos_l _ _ (2 ^ (E1 - emin))); [assumption|].
        replace (2 ^ (E1 - emin) * (N1 * H2)) with (N1 * 2 ^ (E1 - emin) * H2) by ring.
        replace (2 ^ (E1 - emin) * (N2 * H1)) with (N2 * 2 ^ (E1 - emin) * H1) by ring.
        exact Hle. }
      apply Z.mul_le_mono_nonneg_r; [lia|]. now apply RNE_mono.
    + specialize (HB2 ltac:(lia)).
      assert (RNE N1 H1 <= 2 ^ prec) by (apply RNE_le; lia).
      assert (2 ^ (prec - 1) <= RNE N2 H2) by (apply RNE_ge; lia).
      replace (E2 - emin) with ((E1 - emin) + (E2 - E1)) by lia.
      rewrite Z.pow_add_r by lia.
      assert (2 ^ 1 <= 2 ^ (E2 - E1)) by (apply Z.pow_le_mono_r; lia).
      rewrite Z.pow_1_r in *.
      rewrite (pow2_split prec) in * by lia.
      assert (0 < 2 ^ (prec - 1)) by (apply Z.pow_pos_nonneg; lia).
      set (P := 2 ^ (E1 - emin)) in *. set (Q := 2 ^ (E2 - E1)) in *.
      set (T := 2 ^ (prec - 1)) in *.
      assert (RNE N1 H1 * P <= 2 * T * P) by nia.
      assert (T * (P * 2) <= RNE N2 H2 * (P * Q)).
      { assert (T * (P * 2) <= T * (P * Q)) by nia.
        assert (T * (P * Q) <= RNE N2 H2 * (P * Q)) by nia. lia. }
      lia.
Qed.

Lemma Zdigits2_le_prec M : 0 < M < 2 ^ prec -> Zdigits2 M <= prec.
Proof.
  intros [H0 H1]. pose proof (Zdigits2_bounds M H0) as [Hb _].
  assert (2 ^ (Zdigits2 M - 1) < 2 ^ prec) by lia.
  apply Z.pow_lt_mono_r_iff in H; lia.
Qed.

Lemma Zdigits2_pow2 k : 0 <= k -> Zdigits2 (2 ^ k) = k + 1.
Proof.
  intros H. rewrite Zdigits2_log2 by (apply Z.pow_pos_nonneg; lia).
  rewrite Z.log2_pow2 by assumption. lia.
Qed.

Lemma shr_nonpos mrs e n : n <= 0 -> shr mrs e n = (mrs, e).
Proof. destruct n; try reflexivity. lia. Qed.

Lemma finish_zero s E : emin <= E -> finish prec emax s 0 E = S754_zero s.
Proof.
  intros HE. unfold finish, shr_fexp. rewrite shr_nonpos.
  - reflexivity.
  - simpl Zdigits2. unfold SpecFloat.fexp. lia.
Qed.

Lemma finish_small s M E :
  0 < M < 2 ^ prec -> emin <= E ->
  finish prec emax s M E =
  if E <=? emax - prec then S754_finite s (Z.to_pos M) E else S754_infinity s.
Proof.
  intros HM HE. unfold finish, shr_fexp. rewrite shr_nonpos.
  - cbn [shr_record_of_loc shr_m]. destruct M as [|p|p]; try lia. reflexivity.
  - pose proof (Zdigits2_le_prec M HM). unfold SpecFloat.fexp. lia.
Qed.

Lemma finish_carry s E :
  emin <= E ->
  finish prec emax s (2 ^ prec) E =
  if E + 1 <=? emax - prec
  then S754_finite s (Z.to_pos (2 ^ (prec - 1))) (E + 1)
  else S754_infinity s.
Proof.
  intros HE. unfold finish, shr_fexp.
  rewrite Zdigits2_pow2 by lia.
  replace (fexp (prec + 1 + E) - E) with 1 by (unfold SpecFloat.fexp; lia).
  cbn [shr shr_record_of_loc iter_pos].
  rewrite shr_1_div2 by (apply Z.pow_nonneg; lia).
  cbn [shr_m]. rewrite Z.div2_div, (pow2_split prec) by lia.
  rewrite Z.mul_comm, Z.div_mul by lia.
  assert (0 < 2 ^ (prec - 1)) by (apply Z.pow_pos_nonneg; lia).
  destruct (2 ^ (prec - 1)) as [|p|p]; try lia. reflexivity.
Qed.

Lemma RNE_zero H : 0 < H -> RNE 0 H = 0.
Proof.
  intros HH. apply Z.le_antisymm; [apply RNE_le | apply RNE_ge]; lia.
Qed.

(** Two grid representations of one value are rounded to one float. *)
Lemma grid_same s N1 H1 E1 N2 H2 E2 :
  on_grid prec emax N1 H1 E1 -> on_grid prec emax N2 H2 E2 ->
  N1 * 2 ^ (E1 - emin) * H2 = N2 * 2 ^ (E2 - emin) * H1 ->
  finish prec emax s (RNE N1 H1) E1 = finish prec emax s (RNE N2 H2) E2.
Proof.
  intros G1 G2 Heq.
  pose proof G1 as (HN1 & HH1 & HA1 & HE1 & HB1).
  pose proof G2 as (HN2 & HH2 & HA2 & HE2 & HB2).
  assert (HP1 : 0 < 2 ^ (E1 - emin)) by (apply Z.pow_pos_nonneg; lia).
  assert (HP2 : 0 < 2 ^ (E2 - emin)) by (apply Z.pow_pos_nonneg; lia).
  destruct (Z.eq_dec N1 0) as [E0|Hnz].
  - assert (N2 = 0) by nia. subst N1 N2.
    rewrite !RNE_zero, !finish_zero by assumption. reflexivity.
  - assert (0 < N2) by nia.
    assert (E1 = E2).
    { apply Z.le_antisymm;
        [apply (grid_exp_mono N1 H1 E1 N2 H2 E2) |
         apply (grid_exp_mono N2 H2 E2 N1 H1 E1)]; auto; lia. }
    subst E2. f_equal. apply RNE_ratio; try assumption.
    apply (Z.mul_cancel_l _ _ (2 ^ (E1 - emin))); [lia|].
    replace (2 ^ (E1 - emin) * (N1 * H2)) with (N1 * 2 ^ (E1 - emin) * H2) by ring.
    replace (2 ^ (E1 - emin) * (N2 * H1)) with (N2 * 2 ^ (E1 - emin) * H1) by ring.
    exact Heq.
Qed.

(** The grid of the reference rounding. *)
Lemma round_ratio_grid N D :
  0 <= N -> 0 < D ->
  on_grid prec emax N (2 ^ (grid_exp prec emax N D - emin) * D)
          (grid_exp prec emax N D).
Proof.
  intros HN HD. unfold grid_exp.
  pose proof (grid_of_digits N D emin HN HD) as H.
  pose proof (fexp_ge_emin (Zdigits2 (N / D) + emin)).
  replace (emin + (fexp (Zdigits2 (N / D) + emin) - emin))
    with (fexp (Zdigits2 (N / D) + emin)) in H by lia.
  apply H. lia.
Qed.

(** [binary_round_aux] on any representation (N/G) * 2^e that does not ask
    for a left shift is the reference rounding of the same value,
    (N'/D') * 2^emin. *)
Lemma binary_round_aux_correct s N G e N' D' k :
  0 <= N -> 0 < G -> 0 <= N' -> 0 < D' ->
  0 <= fexp (Zdigits2 (N / G) + e) - e ->
  0 <= k -> 0 <= k + e - emin ->
  N * 2 ^ (k + e - emin) * D' = N' * 2 ^ k * G ->
  binary_round_aux prec emax s (N / G) e (loc_of N G) =
  round_ratio prec emax s N' D'.
Proof.
  intros HN HG HN' HD' Hn Hk Hke Heq.
  rewrite binary_round_aux_rec by assumption. unfold round_ratio.
  pose proof (grid_of_digits N G e HN HG Hn) as G1.
  pose proof (round_ratio_grid N' D' HN' HD') as G2.
  set (n := fexp (Zdigits2 (N / G) + e) - e) in *.
  set (E := grid_exp prec emax N' D') in *.
  apply grid_same; try assumption.
  destruct G1 as (_ & _ & _ & HE1 & _). destruct G2 as (_ & _ & _ & HE2 & _).
  assert (H2k : 0 < 2 ^ k) by (apply Z.pow_pos_nonneg; lia).
  apply (Z.mul_cancel_l _ _ (2 ^ k)); [lia|].
  replace (2 ^ k * (N * 2 ^ (e + n - emin) * (2 ^ (E - emin) * D')))
    with (N * (2 ^ k * 2 ^ (e + n - emin)) * D' * 2 ^ (E - emin)) by ring.
  rewrite <- Z.pow_add_r by lia.
  replace (k + (e + n - emin)) with ((k + e - emin) + n) by lia.
  rewrite Z.pow_add_r by lia.
  replace (N * (2 ^ (k + e - emin) * 2 ^ n) * D' * 2 ^ (E - emin))
    with (N * 2 ^ (k + e - emin) * D' * 2 ^ n * 2 ^ (E - emin)) by ring.
  rewrite Heq. ring.
Qed.

Lemma emin_le_emax : emin <= emax - prec.
Proof. unfold SpecFloat.emin. lia. Qed.

Lemma top_pos : 0 < 2 ^ (emax - emin).
Proof. apply Z.pow_pos_nonneg; unfold SpecFloat.emin; lia. Qed.

(** The rounded mantissa of a grid representation. *)
Lemma RNE_grid N H E :
  on_grid prec emax N H E ->
  0 <= RNE N H <= 2 ^ prec /\ (emin < E -> 2 ^ (prec - 1) <= RNE N H).
Proof.
  intros (HN & HH & HA & HE & HB). repeat split.
  - apply RNE_ge; lia.
  - apply RNE_le; lia.
  - intros Hlt. apply RNE_ge; [assumption | now apply HB].
Qed.

(** What [finish] returns for a rounded mantissa: a number of the format,
    of the requested sign, whose magnitude is the rounded value cut at
    2^(emax - emin). *)
Lemma finish_spec s M E :
  0 <= M <= 2 ^ prec -> emin <= E -> (emin < E -> 2 ^ (prec - 1) <= M) ->
  good prec emax (finish prec emax s M E) /\
  magnitude prec emax (finish prec emax s M E) =
    Z.min (M * 2 ^ (E - emin)) (2 ^ (emax - emin)) /\
  sign_of (finish prec emax s M E) = s.
Proof.
  intros HM HE HB.
  assert (HT : 0 < 2 ^ (prec - 1)) by (apply Z.pow_pos_nonneg; lia).
  assert (HP : 0 < 2 ^ (E - emin)) by (apply Z.pow_pos_nonneg; lia).
  pose proof (pow2_split prec Hprec) as Hsp.
  pose proof emin_le_emax as Hmm.
  assert (Hover : forall M' E', emax - prec < E' -> 2 ^ (prec - 1) <= M' ->
                    2 ^ (emax - emin) <= M' * 2 ^ (E' - emin)).
  { intros M' E' HE' HM'.
    replace (emax - emin) with ((prec - 1) + (emax - prec + 1 - emin)) by lia.
    rewrite Z.pow_add_r by lia.
    assert (2 ^ (emax - prec + 1 - emin) <= 2 ^ (E' - emin))
      by (apply Z.pow_le_mono_r; lia).
    assert (0 < 2 ^ (emax - prec + 1 - emin)) by (apply Z.pow_pos_nonneg; lia).
    nia. }
  assert (Hunder : forall M' E', emin <= E' <= emax - prec -> 0 < M' < 2 ^ prec ->
                    M' * 2 ^ (E' - emin) < 2 ^ (emax - emin)).
  { intros M' E' HE' HM'.
    replace (emax - emin) with (prec + (emax - prec - E') + (E' - emin)) by lia.
    rewrite !Z.pow_add_r by lia.
    assert (0 < 2 ^ (E' - emin)) by (apply Z.pow_pos_nonneg; lia).
    assert (1 <= 2 ^ (emax - prec - E'))
      by (pose proof (Z.pow_pos_nonneg 2 (emax - prec - E')); lia).
    assert (M' * 2 ^ (E' - emin) < 2 ^ prec * 2 ^ (E' - emin))
      by (apply Z.mul_lt_mono_pos_r; lia).
    assert (0 < 2 ^ prec * 2 ^ (E' - emin)) by nia.
    set (A := 2 ^ prec * 2 ^ (E' - emin)) in *.
    replace (2 ^ prec * 2 ^ (emax - prec - E') * 2 ^ (E' - emin))
      with (A * 2 ^ (emax - prec - E')) by (unfold A; ring).
    nia. }
  destruct (Z.eq_dec M 0) as [->|Hnz]; [|destruct (Z.eq_dec M (2 ^ prec)) as [->|Hnc]].
  - rewrite finish_zero by assumption. cbn.
    pose proof top_pos. repeat split; lia.
  - rewrite finish_carry by assumption.
    assert (Hpos : Z.pos (Z.to_pos (2 ^ (prec - 1))) = 2 ^ (prec - 1))
      by (apply Z2Pos.id; lia).
    assert (Hval : 2 ^ prec * 2 ^ (E - emin) = 2 ^ (prec - 1) * 2 ^ (E + 1 - emin)).
    { rewrite Hsp. replace (E + 1 - emin) with (1 + (E - emin)) by lia.
      rewrite (Z.pow_add_r 2 1) by lia. ring. }
    destruct (Z.leb_spec (E + 1) (emax - prec)).
    + cbn [good magnitude sign_of]. rewrite Hpos. repeat split; try lia.
      * rewrite Hval.
        pose proof (Hunder (2 ^ (prec - 1)) (E + 1) ltac:(lia) ltac:(lia)). lia.
    + cbn [good magnitude sign_of]. repeat split.
      * rewrite Hval.
        pose proof (Hover (2 ^ (prec - 1)) (E + 1) ltac:(lia) ltac:(lia)). lia.
  - rewrite finish_small by lia.
    assert (Hpos : Z.pos (Z.to_pos M) = M) by (apply Z2Pos.id; lia).
    destruct (Z.leb_spec E (emax - prec)).
    + cbn [good magnitude sign_of]. rewrite Hpos. repeat split; try lia.
      * pose proof (Hunder M E ltac:(lia) ltac:(lia)). lia.
    + cbn [good magnitude sign_of]. repeat split.
      * pose proof (Hover M E ltac:(lia) (HB ltac:(lia))). lia.
Qed.

(** A valid float other than NaN is a number of the format. *)
Lemma valid_good r :
  SpecFloat.valid_binary prec emax r = true -> r <> S754_nan -> good prec emax r.
Proof.
  destruct r as [s|s| |s m e]; cbn; try tauto; intros Hv _.
  unfold bounded, canonical_mantissa in Hv.
  apply andb_true_iff in Hv. destruct Hv as [Hc He].
  apply Z.eqb_eq in Hc. apply Z.leb_le in He.
  pose proof (Zdigits2_bounds (Zpos m) ltac:(lia)) as [Hlo Hhi].
  change (Zdigits2 (Z.pos m)) with (Z.pos (digits2_pos m)) in *.
  set (d := Z.pos (digits2_pos m)) in *.
  assert (Hd : d <= prec) by (unfold SpecFloat.fexp in Hc; lia).
  repeat split; try lia.
  - assert (2 ^ d <= 2 ^ prec) by (apply Z.pow_le_mono_r; lia). lia.
  - unfold SpecFloat.fexp in Hc. lia.
  - intros Hlt. assert (d = prec) by (unfold SpecFloat.fexp in Hc; lia).
    subst d. now rewrite <- H.
Qed.

(** Canonical pairs compare as their values do. *)
Lemma canonical_compare m1 e1 m2 e2 :
  good prec emax (S754_finite false m1 e1) ->
  good prec emax (S754_finite false m2 e2) ->
  match e1 ?= e2 with
  | Eq => Pos.compare_cont Eq m1 m2
  | c => c
  end = (Zpos m1 * 2 ^ (e1 - emin) ?= Zpos m2 * 2 ^ (e2 - emin)).
Proof.
  intros (HA1 & HE1 & HB1) (HA2 & HE2 & HB2).
  assert (HT : 0 < 2 ^ (prec - 1)) by (apply Z.pow_pos_nonneg; lia).
  pose proof (pow2_split prec Hprec) as Hsp.
  assert (Hlt : forall ma ea mb eb,
             Zpos ma < 2 ^ prec -> emin <= ea -> ea < eb ->
             2 ^ (prec - 1) <= Zpos mb ->
             Zpos ma * 2 ^ (ea - emin) < Zpos mb * 2 ^ (eb - emin)).
  { intros ma ea mb eb Ha Hea Hlt Hb.
    replace (eb - emin) with ((ea - emin) + (eb - ea)) by lia.
    rewrite Z.pow_add_r by lia.
    assert (0 < 2 ^ (ea - emin)) by (apply Z.pow_pos_nonneg; lia).
    assert (2 ^ 1 <= 2 ^ (eb - ea)) by (apply Z.pow_le_mono_r; lia).
    rewrite Z.pow_1_r in *.
    set (P := 2 ^ (ea - emin)) in *. set (Q := 2 ^ (eb - ea)) in *.
    assert (Zpos ma * P < 2 * 2 ^ (prec - 1) * P) by nia.
    assert (2 ^ (prec - 1) * P * 2 <= Zpos mb * (P * Q)).
    { assert (2 ^ (prec - 1) * P * 2 <= 2 ^ (prec - 1) * P * Q) by nia.
      assert (2 ^ (prec - 1) * (P * Q) <= Zpos mb * (P * Q)) by nia. lia. }
    lia. }
  destruct (Z.compare_spec e1 e2) as [->|H|H]; symmetry.
  - fold (Pos.compare m1 m2).
    rewrite <- (Zmult_compare_compat_r (Zpos m1) (Zpos m2) (2 ^ (e2 - emin)))
      by (apply Z.lt_gt, Z.pow_pos_nonneg; lia).
    reflexivity.
  - apply Z.compare_lt_iff. apply Hlt; try lia; apply HB2; lia.
  - apply Z.compare_gt_iff. apply Hlt; try lia; apply HB1; lia.
Qed.

Lemma good_magnitude s m e :
  good prec emax (S754_finite s m e) ->
  0 < Zpos m * 2 ^ (e - emin) < 2 ^ (emax - emin).
Proof.
  intros (HA & HE & HB).
  assert (0 < 2 ^ (e - emin)) by (apply Z.pow_pos_nonneg; lia).
  split; [nia|].
  replace (emax - emin) with (prec + (emax - prec - e) + (e - emin)) by lia.
  rewrite !Z.pow_add_r by lia.
  assert (1 <= 2 ^ (emax - prec - e))
    by (pose proof (Z.pow_pos_nonneg 2 (emax - prec - e)); lia).
  assert (Zpos m * 2 ^ (e - emin) < 2 ^ prec * 2 ^ (e - emin))
    by (apply Z.mul_lt_mono_pos_r; lia).
  assert (0 < 2 ^ prec * 2 ^ (e - emin)) by nia.
  set (A := 2 ^ prec * 2 ^ (e - emin)) in *.
  replace (2 ^ prec * 2 ^ (emax - prec - e) * 2 ^ (e - emin))
    with (A * 2 ^ (emax - prec - e)) by (unfold A; ring).
  nia.
Qed.

(** Numbers of the format compare as their signed values do. *)
Lemma SFcompare_signed_value r1 r2 :
  good prec emax r1 -> good prec emax r2 ->
  SFcompare r1 r2 =
  Some (signed_value prec emax r1 ?= signed_value prec emax r2).
Proof.
  intros G1 G2. pose proof top_pos as HT.
  destruct r1 as [s1|s1| |s1 m1 e1], r2 as [s2|s2| |s2 m2 e2];
    try contradiction; unfold signed_value; cbn [SFcompare sign_of magnitude];
    try (pose proof (good_magnitude _ _ _ G1));
    try (pose proof (good_magnitude _ _ _ G2)).
  - destruct s1, s2; reflexivity.
  - destruct s1, s2; cbn [cond_Zopp]; f_equal; symmetry;
      first [apply Z.compare_eq_iff | apply Z.compare_lt_iff
            | apply Z.compare_gt_iff]; lia.
  - destruct s1, s2; cbn [cond_Zopp]; f_equal; symmetry;
      first [apply Z.compare_eq_iff | apply Z.compare_lt_iff
            | apply Z.compare_gt_iff]; lia.
  - destruct s1, s2; cbn [cond_Zopp]; f_equal; symmetry;
      first [apply Z.compare_eq_iff | apply Z.compare_lt_iff
            | apply Z.compare_gt_iff]; lia.
  - destruct s1, s2; cbn [cond_Zopp]; f_equal; symmetry;
      first [apply Z.compare_eq_iff | apply Z.compare_lt_iff
            | apply Z.compare_gt_iff]; lia.
  - destruct s1, s2; cbn [cond_Zopp]; f_equal; symmetry;
      first [apply Z.compare_eq_iff | apply Z.compare_lt_iff
            | apply Z.compare_gt_iff]; lia.
  - destruct s1, s2; cbn [cond_Zopp]; f_equal; symmetry;
      first [apply Z.compare_eq_iff | apply Z.compare_lt_iff
            | apply Z.compare_gt_iff]; lia.
  - destruct s1, s2; cbn [cond_Zopp]; f_equal; symmetry;
      first [apply Z.compare_eq_iff | apply Z.compare_lt_iff
            | apply Z.compare_gt_iff]; lia.
  - assert (G1' : good prec emax (S754_finite false m1 e1)) by exact G1.
    assert (G2' : good prec emax (S754_finite false m2 e2)) by exact G2.
    pose proof (canonical_compare m1 e1 m2 e2 G1' G2') as Hc.
    destruct s1, s2; cbn [cond_Zopp]; f_equal.
    + rewrite Z.compare_opp.
      rewrite (Z.compare_antisym (Zpos m1 * 2 ^ (e1 - emin))), <- Hc.
      destruct (e1 ?= e2); reflexivity.
    + symmetry. apply Z.compare_lt_iff. lia.
    + symmetry. apply Z.compare_gt_iff. lia.
    + rewrite <- Hc. destruct (e1 ?= e2); reflexivity.
Qed.

Lemma SFleb_signed_value r1 r2 :
  good prec emax r1 -> good prec emax r2 ->
  SFleb r1 r2 = (signed_value prec emax r1 <=? signed_value prec emax r2).
Proof.
  intros G1 G2. unfold SFleb. rewrite SFcompare_signed_value by assumption.
  unfold Z.leb. destruct (_ ?= _); reflexivity.
Qed.

Lemma SFltb_signed_value r1 r2 :
  good prec emax r1 -> good prec emax r2 ->
  SFltb r1 r2 = (signed_value prec emax r1 <? signed_value prec emax r2).
Proof.
  intros G1 G2. unfold SFltb. rewrite SFcompare_signed_value by assumption.
  unfold Z.ltb. destruct (_ ?= _); reflexivity.
Qed.

Lemma round_ratio_spec s N D :
  0 <= N -> 0 < D ->
  good prec emax (round_ratio prec emax s N D) /\
  magnitude prec emax (round_ratio prec emax s N D) =
    Z.min (RNE N (2 ^ (grid_exp prec emax N D - emin) * D)
           * 2 ^ (grid_exp prec emax N D - emin))
          (2 ^ (emax - emin)) /\
  sign_of (round_ratio prec emax s N D) = s.
Proof.
  intros HN HD. unfold round_ratio.
  pose proof (round_ratio_grid N D HN HD) as G.
  pose proof (RNE_grid _ _ _ G) as [HM HB].
  destruct G as (_ & _ & _ & HE & _).
  apply finish_spec; assumption.
Qed.

Lemma round_ratio_mono s1 s2 N1 D1 N2 D2 :
  0 <= N1 -> 0 < D1 -> 0 <= N2 -> 0 < D2 ->
  N1 * D2 <= N2 * D1 ->
  magnitude prec emax (round_ratio prec emax s1 N1 D1) <=
  magnitude prec emax (round_ratio prec emax s2 N2 D2).
Proof.
  intros HN1 HD1 HN2 HD2 Hle.
  destruct (round_ratio_spec s1 N1 D1 HN1 HD1) as (_ & -> & _).
  destruct (round_ratio_spec s2 N2 D2 HN2 HD2) as (_ & -> & _).
  apply Z.min_le_compat_r.
  pose proof (round_ratio_grid N1 D1 HN1 HD1) as G1.
  pose proof (round_ratio_grid N2 D2 HN2 HD2) as G2.
  apply grid_val_mono; try assumption.
  destruct G1 as (_ & _ & _ & HE1 & _). destruct G2 as (_ & _ & _ & HE2 & _).
  set (P1 := 2 ^ (grid_exp prec emax N1 D1 - emin)).
  set (P2 := 2 ^ (grid_exp prec emax N2 D2 - emin)).
  assert (0 < P1) by (apply Z.pow_pos_nonneg; lia).
  assert (0 < P2) by (apply Z.pow_pos_nonneg; lia).
  replace (N1 * P1 * (P2 * D2)) with (P1 * P2 * (N1 * D2)) by ring.
  replace (N2 * P2 * (P1 * D1)) with (P1 * P2 * (N2 * D1)) by ring.
  apply Z.mul_le_mono_nonneg_l; nia.
Qed.

Lemma round_ratio_zero s D : 0 < D -> round_ratio prec emax s 0 D = S754_zero s.
Proof.
  intros HD. unfold round_ratio.
  pose proof (round_ratio_grid 0 D ltac:(lia) HD) as (_ & HH & _ & HE & _).
  rewrite RNE_zero by assumption. now apply finish_zero.
Qed.

Lemma magnitude_bounds r :
  good prec emax r -> 0 <= magnitude prec emax r <= 2 ^ (emax - emin).
Proof.
  pose proof top_pos. destruct r as [s|s| |s m e]; intros G;
    cbn [magnitude]; try lia; try contradiction.
  pose proof (good_magnitude s m e G). lia.
Qed.

Lemma signed_value_bounds r :
  good prec emax r ->
  - 2 ^ (emax - emin) <= signed_value prec emax r <= 2 ^ (emax - emin).
Proof.
  intros G. pose proof (magnitude_bounds r G). unfold signed_value.
  destruct (sign_of r); cbn; lia.
Qed.

Lemma round_signed_good X D :
  0 < D -> good prec emax (round_signed prec emax X D).
Proof.
  intros HD. unfold round_signed. apply round_ratio_spec; lia.
Qed.

(** The reference rounding keeps the order of the exact values. *)
Lemma round_signed_mono X1 D1 X2 D2 :
  0 < D1 -> 0 < D2 -> X1 * D2 <= X2 * D1 ->
  signed_value prec emax (round_signed prec emax X1 D1) <=
  signed_value prec emax (round_signed prec emax X2 D2).
Proof.
  intros HD1 HD2 Hle. unfold round_signed, signed_value.
  destruct (round_ratio_spec (X1 <? 0) (Z.abs X1) D1 ltac:(lia) HD1)
    as (G1 & _ & ->).
  destruct (round_ratio_spec (X2 <? 0) (Z.abs X2) D2 ltac:(lia) HD2)
    as (G2 & _ & ->).
  pose proof (magnitude_bounds _ G1). pose proof (magnitude_bounds _ G2).
  destruct (Z.ltb_spec X1 0), (Z.ltb_spec X2 0); cbn [cond_Zopp]; try lia.
  - assert (magnitude prec emax (round_ratio prec emax true (Z.abs X2) D2) <=
            magnitude prec emax (round_ratio prec emax true (Z.abs X1) D1));
      [|lia].
    apply round_ratio_mono; lia.
  - apply round_ratio_mono; lia.
Qed.

Lemma iter_xO_pow2 p d : Zpos (Pos.iter xO p d) = Zpos p * 2 ^ Zpos d.
Proof.
  induction d as [|d IH] using Pos.peano_ind.
  - cbn [Pos.iter]. rewrite Z.pow_1_r. lia.
  - rewrite Pos.iter_succ, Pos2Z.inj_succ, Z.pow_succ_r, Pos2Z.inj_xO, IH by lia.
    ring.
Qed.

Lemma shl_align_spec p e e' :
  snd (shl_align p e e') = Z.min e e' /\
  Zpos (fst (shl_align p e e')) = Zpos p * 2 ^ (e - Z.min e e').
Proof.
  unfold shl_align. destruct (e' - e) as [|d|d] eqn:Hd; cbn [fst snd].
  - rewrite Z.min_l, Z.sub_diag by lia. lia.
  - rewrite Z.min_l, Z.sub_diag by lia. lia.
  - rewrite Z.min_r by lia. split; [reflexivity|].
    rewrite iter_xO_pow2. f_equal. f_equal. lia.
Qed.

Lemma Zdigits2_mul_pow2 m k :
  0 < m -> 0 <= k -> Zdigits2 (m * 2 ^ k) = Zdigits2 m + k.
Proof.
  intros Hm Hk.
  assert (0 < 2 ^ k) by (apply Z.pow_pos_nonneg; lia).
  rewrite !Zdigits2_log2 by nia.
  rewrite Z.log2_mul_pow2 by lia. lia.
Qed.

Lemma good_canonical s m e :
  good prec emax (S754_finite s m e) -> fexp (Zdigits2 (Zpos m) + e) = e.
Proof.
  intros (HA & HE & HB).
  pose proof (Zdigits2_le_prec (Zpos m) ltac:(lia)) as Hd.
  unfold SpecFloat.fexp.
  destruct (Z.eq_dec e emin) as [->|Hne]; [lia|].
  specialize (HB ltac:(lia)).
  pose proof (Zdigits2_bounds (Zpos m) ltac:(lia)) as [_ Hhi].
  assert (2 ^ (prec - 1) < 2 ^ Zdigits2 (Zpos m)) by lia.
  apply Z.pow_lt_mono_r_iff in H; [lia | lia | apply Zdigits2_nonneg].
Qed.

(** [binary_round]: the float nearest to p * 2^e. *)
Lemma binary_round_correct s p e :
  emin <= e ->
  binary_round prec emax s p e =
  round_ratio prec emax s (Zpos p * 2 ^ (e - emin)) 1.
Proof.
  intros He. unfold binary_round.
  pose proof (shl_align_spec p e (fexp (Zpos (digits2_pos p) + e))) as [Hs Hf].
  destruct (shl_align p e (fexp (Zpos (digits2_pos p) + e))) as [mz ez].
  cbn [fst snd] in Hs, Hf.
  pose proof (fexp_ge_emin (Zpos (digits2_pos p) + e)) as Hfe.
  assert (Hez : emin <= ez <= e) by lia.
  assert (Hdig : Zdigits2 (Zpos mz) + ez = Zpos (digits2_pos p) + e).
  { rewrite Hf, Zdigits2_mul_pow2 by lia. cbn [Zdigits2]. lia. }
  replace (Zpos mz) with (Zpos mz / 1) at 1 by apply Z.div_1_r.
  replace loc_Exact with (loc_of (Zpos mz) 1).
  2:{ unfold loc_of, rec_of. rewrite Z.mod_1_r. reflexivity. }
  assert (HP : 0 < 2 ^ (e - emin)) by (apply Z.pow_pos_nonneg; lia).
  apply (binary_round_aux_correct s (Zpos mz) 1 ez _ 1 0); try lia.
  - rewrite Z.div_1_r, Hdig. lia.
  - rewrite Hf, <- Hs, Z.pow_0_r, !Z.mul_1_r, Z.add_0_l, <- Z.mul_assoc,
      <- Z.pow_add_r by lia.
    f_equal. f_equal. lia.
Qed.

(** [binary_normalize]: the float nearest to M * 2^e. *)
Lemma binary_normalize_correct M e :
  emin <= e -> M <> 0 ->
  binary_normalize prec emax M e false =
  round_signed prec emax (M * 2 ^ (e - emin)) 1.
Proof.
  intros He HM. unfold round_signed.
  assert (HP : 0 < 2 ^ (e - emin)) by (apply Z.pow_pos_nonneg; lia).
  destruct M as [|p|p]; [congruence| |]; cbn [binary_normalize].
  - rewrite binary_round_correct by assumption.
    replace (Zpos p * 2 ^ (e - emin) <? 0) with false
      by (symmetry; apply Z.ltb_ge; nia).
    rewrite Z.abs_eq by nia. reflexivity.
  - rewrite binary_round_correct by assumption.
    replace (Zneg p * 2 ^ (e - emin) <? 0) with true
      by (symmetry; apply Z.ltb_lt; nia).
    rewrite Z.abs_neq by nia.
    replace (- (Zneg p * 2 ^ (e - emin))) with (Zpos p * 2 ^ (e - emin))
      by (rewrite <- Z.mul_opp_l; reflexivity).
    reflexivity.
Qed.

(** Rounding a number of the format gives it back. *)
Lemma round_ratio_exact s m e :
  good prec emax (S754_finite s m e) ->
  round_ratio prec emax s (Zpos m * 2 ^ (e - emin)) 1 = S754_finite s m e.
Proof.
  intros G. pose proof (good_canonical s m e G) as Hc.
  pose proof G as (HA & HE & HB).
  assert (HP : 0 < 2 ^ (e - emin)) by (apply Z.pow_pos_nonneg; lia).
  rewrite <- (binary_round_aux_correct s (Zpos m) 1 e _ 1 0); try lia.
  - rewrite binary_round_aux_rec by (rewrite ?Z.div_1_r, ?Hc; lia).
    rewrite Z.div_1_r, Hc, Z.sub_diag, Z.pow_0_r, Z.mul_1_r, Z.add_0_r, RNE_exact.
    rewrite finish_small by lia.
    replace (e <=? emax - prec) with true by (symmetry; apply Z.leb_le; lia).
    reflexivity.
  - rewrite Z.div_1_r, Hc. lia.
  - rewrite Z.pow_0_r, Z.add_0_l. ring.
Qed.

Lemma round_signed_zero D :
  0 < D -> round_signed prec emax 0 D = S754_zero false.
Proof. intros HD. unfold round_signed. cbn. now apply round_ratio_zero. Qed.

Lemma round_signed_exact s m e :
  good prec emax (S754_finite s m e) ->
  round_signed prec emax (cond_Zopp s (Zpos m * 2 ^ (e - emin))) 1 =
  S754_finite s m e.
Proof.
  intros G. pose proof (good_magnitude s m e G) as [Hpos _].
  unfold round_signed.
  replace (cond_Zopp s (Zpos m * 2 ^ (e - emin)) <? 0) with s.
  2:{ destruct s; cbn [cond_Zopp]; symmetry;
        [apply Z.ltb_lt | apply Z.ltb_ge]; lia. }
  replace (Z.abs (cond_Zopp s (Zpos m * 2 ^ (e - emin))))
    with (Zpos m * 2 ^ (e - emin)) by (destruct s; cbn [cond_Zopp]; lia).
  now apply round_ratio_exact.
Qed.

Lemma cond_Zopp_mul s a c : cond_Zopp s a * c = cond_Zopp s (a * c).
Proof. destruct s; cbn [cond_Zopp]; ring. Qed.

(** Subtraction of finite numbers is the rounding of the exact
    difference. *)
Lemma SFsub_value t y :
  good prec emax t -> good prec emax y ->
  finite_or_zero t -> finite_or_zero y ->
  good prec emax (SFsub prec emax t y) /\
  signed_value prec emax (SFsub prec emax t y) =
  signed_value prec emax
    (round_signed prec emax
       (signed_value prec emax t - signed_value prec emax y) 1).
Proof.
  intros Gt Gy Ft Fy.
  destruct t as [st|st| |st mt et], y as [sy|sy| |sy my ey];
    try contradiction.
  - (* zero - zero *)
    replace (signed_value prec emax (S754_zero st)
             - signed_value prec emax (S754_zero sy)) with 0
      by (destruct st, sy; reflexivity).
    rewrite round_signed_zero by lia.
    destruct st, sy; split; cbn; auto.
  - (* zero - finite *)
    cbn [SFsub].
    assert (G' : good prec emax (S754_finite (negb sy) my ey)) by exact Gy.
    replace (signed_value prec emax (S754_zero st)
             - signed_value prec emax (S754_finite sy my ey))
      with (cond_Zopp (negb sy) (Zpos my * 2 ^ (ey - emin)))
      by (destruct st, sy; unfold signed_value; cbn; lia).
    rewrite round_signed_exact by assumption. split; [exact G'|reflexivity].
  - (* finite - zero *)
    cbn [SFsub].
    replace (signed_value prec emax (S754_finite st mt et)
             - signed_value prec emax (S754_zero sy))
      with (cond_Zopp st (Zpos mt * 2 ^ (et - emin)))
      by (destruct st, sy; unfold signed_value; cbn; lia).
    rewrite round_signed_exact by assumption. split; [exact Gt|reflexivity].
  - (* finite - finite *)
    cbn [SFsub].
    pose proof Gt as (_ & HEt & _). pose proof Gy as (_ & HEy & _).
    set (ez := Z.min et ey).
    pose proof (shl_align_spec mt et ez) as [_ Hmt].
    pose proof (shl_align_spec my ey ez) as [_ Hmy].
    rewrite Z.min_r in Hmt, Hmy by (unfold ez; lia).
    set (M := cond_Zopp st (Zpos (fst (shl_align mt et ez)))
              - cond_Zopp sy (Zpos (fst (shl_align my ey ez)))).
    assert (HX : M * 2 ^ (ez - emin) =
                 signed_value prec emax (S754_finite st mt et)
                 - signed_value prec emax (S754_finite sy my ey)).
    { unfold M, signed_value. cbn [sign_of magnitude].
      rewrite Z.mul_sub_distr_r, !cond_Zopp_mul, Hmt, Hmy.
      rewrite <- !Z.mul_assoc, <- !Z.pow_add_r by (unfold ez; lia).
      replace (et - ez + (ez - emin)) with (et - emin) by lia.
      replace (ey - ez + (ez - emin)) with (ey - emin) by lia.
      reflexivity. }
    rewrite <- HX.
    destruct (Z.eq_dec M 0) as [E0|Hnz].
    + rewrite E0. cbn [binary_normalize Z.mul].
      rewrite round_signed_zero by lia. split; cbn; auto.
    + rewrite binary_normalize_correct by (unfold ez; lia).
      split; [apply round_signed_good; lia | reflexivity].
Qed.

Lemma new_location_loc_of N G :
  0 < G -> new_location G (N mod G) = loc_of N G.
Proof.
  intros HG. pose proof (Z.mod_pos_bound N G HG) as Hb.
  unfold loc_of, rec_of, loc_of_shr_record, new_location,
    new_location_even, new_location_odd.
  set (r := N mod G) in *.
  destruct (Z.even G) eqn:Ev.
  - destruct (Z.eqb_spec r 0) as [->|Hr].
    + replace (G <=? 2 * 0) with false by (symmetry; apply Z.leb_gt; lia).
      reflexivity.
    + destruct (Z.compare_spec (2 * r) G), (Z.leb_spec G (2 * r)),
        (Z.eqb_spec (2 * r) G); cbn [orb negb]; try reflexivity; lia.
  - assert (Hodd : 2 * r <> G).
    { intros E. rewrite <- E, Z.even_mul in Ev. discriminate. }
    destruct (Z.eqb_spec r 0) as [->|Hr].
    + replace (G <=? 2 * 0) with false by (symmetry; apply Z.leb_gt; lia).
      reflexivity.
    + destruct (Z.compare_spec (2 * r + 1) G), (Z.leb_spec G (2 * r)),
        (Z.eqb_spec (2 * r) G); cbn [orb negb]; try reflexivity; lia.
Qed.

Lemma fexp_mono c d : c <= d -> fexp c <= fexp d.
Proof. unfold SpecFloat.fexp. lia. Qed.

(** The quotient of the division has enough digits. *)
Lemma div_digits ma mp s :
  0 < ma -> 0 < mp -> 0 <= s ->
  Zdigits2 ma + s - Zdigits2 mp <= Zdigits2 (ma * 2 ^ s / mp).
Proof.
  intros Ha Hp Hs.
  pose proof (Zdigits2_bounds ma Ha) as [Hlo _].
  pose proof (Zdigits2_bounds mp Hp) as [_ Hhi].
  pose proof (Zdigits2_nonneg (ma * 2 ^ s / mp)) as Hq0.
  pose proof (Zdigits2_nonneg mp) as Hd2.
  assert (Hd1 : 1 <= Zdigits2 ma)
    by (rewrite Zdigits2_log2 by lia; pose proof (Z.log2_nonneg ma); lia).
  set (d1 := Zdigits2 ma) in *. set (d2 := Zdigits2 mp) in *.
  destruct (Z.le_gt_cases (d1 + s - d2) 0) as [|Hj]; [lia|].
  remember (d1 + s - d2 - 1) as j eqn:Ej.
  assert (H2s : 0 < 2 ^ s) by (apply Z.pow_pos_nonneg; lia).
  assert (H2j : 0 < 2 ^ j) by (apply Z.pow_pos_nonneg; lia).
  assert (Hq : 2 ^ j <= ma * 2 ^ s / mp).
  { apply Z.div_le_lower_bound; [assumption|].
    assert (2 ^ (d1 - 1) * 2 ^ s <= ma * 2 ^ s) by nia.
    assert (2 ^ (d1 - 1) * 2 ^ s = 2 ^ j * 2 ^ d2).
    { rewrite <- !Z.pow_add_r by lia. f_equal. lia. }
    nia. }
  pose proof (Zdigits2_bounds (ma * 2 ^ s / mp) ltac:(lia)) as [_ Hqhi].
  assert (2 ^ j < 2 ^ Zdigits2 (ma * 2 ^ s / mp)) by lia.
  apply Z.pow_lt_mono_r_iff in H; lia.
Qed.

(** Division of finite numbers is the rounding of the exact quotient. *)
Lemma SFdiv_correct sa ma ea sp mp ep :
  good prec emax (S754_finite sa ma ea) ->
  good prec emax (S754_finite sp mp ep) ->
  SFdiv prec emax (S754_finite sa ma ea) (S754_finite sp mp ep) =
  round_ratio prec emax (xorb sa sp)
    (Zpos ma * 2 ^ (ea - emin) * 2 ^ (- emin)) (Zpos mp * 2 ^ (ep - emin)).
Proof.
  intros Ga Gp. pose proof Ga as (_ & HEa & _). pose proof Gp as (_ & HEp & _).
  assert (Hemin : emin <= 0) by (unfold SpecFloat.emin; lia).
  cbn [SFdiv]. unfold SFdiv_core_binary.
  set (d1 := Zdigits2 (Zpos ma)). set (d2 := Zdigits2 (Zpos mp)).
  set (e' := Z.min (fexp (d1 + ea - (d2 + ep))) (ea - ep)).
  remember (ea - ep - e') as s eqn:Es.
  assert (Hs : 0 <= s) by (unfold e' in Es; lia).
  assert (Hm' : match s with
                | 0 => Zpos ma
                | Zpos _ => Z.shiftl (Zpos ma) s
                | Zneg _ => 0
                end = Zpos ma * 2 ^ s).
  { clear Es. destruct s as [|ps|ps]; try lia.
    rewrite Z.shiftl_mul_pow2 by lia. reflexivity. }
  rewrite Hm'. set (m' := Zpos ma * 2 ^ s).
  assert (H2s : 0 < 2 ^ s) by (apply Z.pow_pos_nonneg; lia).
  assert (Hdiv : Z.div_eucl m' (Zpos mp) = (m' / Zpos mp, m' mod Zpos mp)).
  { unfold Z.div, Z.modulo. now destruct (Z.div_eucl m' (Zpos mp)). }
  rewrite Hdiv, new_location_loc_of by lia.
  assert (He' : emin - (emax - prec) <= e').
  { unfold e'. pose proof (fexp_ge_emin (d1 + ea - (d2 + ep))). lia. }
  assert (HPa : 0 < 2 ^ (ea - emin)) by (apply Z.pow_pos_nonneg; lia).
  assert (HPp : 0 < 2 ^ (ep - emin)) by (apply Z.pow_pos_nonneg; lia).
  assert (HPm : 0 < 2 ^ (- emin)) by (apply Z.pow_pos_nonneg; lia).
  apply (binary_round_aux_correct _ m' (Zpos mp) e' _ _ emax); try lia.
  - pose proof (div_digits (Zpos ma) (Zpos mp) s ltac:(lia) ltac:(lia) Hs) as Hd.
    fold d1 d2 m' in Hd.
    assert (Hc : d1 + ea - (d2 + ep) <= Zdigits2 (m' / Zpos mp) + e') by lia.
    apply fexp_mono in Hc.
    assert (e' <= fexp (d1 + ea - (d2 + ep))) by (unfold e'; lia). lia.
  - unfold m'.
    replace (Zpos ma * 2 ^ s * 2 ^ (emax + e' - emin) * (Zpos mp * 2 ^ (ep - emin)))
      with (Zpos ma * Zpos mp *
            (2 ^ s * 2 ^ (emax + e' - emin) * 2 ^ (ep - emin))) by ring.
    replace (Zpos ma * 2 ^ (ea - emin) * 2 ^ (- emin) * 2 ^ emax * Zpos mp)
      with (Zpos ma * Zpos mp *
            (2 ^ (ea - emin) * 2 ^ (- emin) * 2 ^ emax)) by ring.
    rewrite <- !Z.pow_add_r by lia. f_equal. f_equal. lia.
Qed.

Lemma finite_value_lt r :
  good prec emax r -> finite_or_zero r ->
  - 2 ^ (emax - emin) < signed_value prec emax r < 2 ^ (emax - emin).
Proof.
  pose proof top_pos. unfold signed_value.
  destruct r as [s|s| |s m e]; try contradiction; intros G _.
  - destruct s; cbn [sign_of magnitude cond_Zopp]; lia.
  - pose proof (good_magnitude s m e G).
    destruct s; cbn [sign_of magnitude cond_Zopp]; lia.
Qed.

Lemma infinite_value s :
  signed_value prec emax (S754_infinity s) = cond_Zopp s (2 ^ (emax - emin)).
Proof. reflexivity. Qed.

Lemma SFsub_infinity t s :
  finite_or_zero t ->
  SFsub prec emax t (S754_infinity s) = S754_infinity (negb s).
Proof. destruct t; cbn; tauto. Qed.

(** Subtraction from a finite number turns the order around. *)
Lemma SFsub_antimono t y1 y2 :
  good prec emax t -> finite_or_zero t ->
  good prec emax y1 -> good prec emax y2 ->
  signed_value prec emax y1 <= signed_value prec emax y2 ->
  good prec emax (SFsub prec emax t y1) /\
  good prec emax (SFsub prec emax t y2) /\
  signed_value prec emax (SFsub prec emax t y2) <=
  signed_value prec emax (SFsub prec emax t y1).
Proof.
  intros Gt Ft G1 G2 Hle. pose proof top_pos as HT.
  assert (Hsub : forall y, good prec emax y ->
            good prec emax (SFsub prec emax t y)).
  { intros y Gy. destruct y as [s|s| |s m e] eqn:Ey; try contradiction.
    - apply SFsub_value; cbn; auto.
    - rewrite SFsub_infinity by assumption. exact I.
    - apply SFsub_value; cbn; auto. }
  split; [now apply Hsub|]. split; [now apply Hsub|].
  pose proof (signed_value_bounds _ (Hsub y1 G1)) as B1.
  pose proof (signed_value_bounds _ (Hsub y2 G2)) as B2.
  destruct y1 as [s1|[|]| |s1 m1 e1] eqn:E1; try contradiction;
    destruct y2 as [s2|[|]| |s2 m2 e2] eqn:E2; try contradiction;
    rewrite ?SFsub_infinity by assumption; cbn [negb];
    rewrite ?infinite_value in *; cbn [cond_Zopp] in *; try lia;
    try (match goal with
         | H : _ <= signed_value _ _ ?r |- _ =>
             pose proof (finite_value_lt r ltac:(assumption) I); lia
         | H : signed_value _ _ ?r <= _ |- _ =>
             pose proof (finite_value_lt r ltac:(assumption) I); lia
         end);
    destruct (SFsub_value t _ Gt G1 Ft I) as [_ ->];
    destruct (SFsub_value t _ Gt G2 Ft I) as [_ ->];
    apply round_signed_mono; lia.
Qed.

(** Division of a number by a positive finite one. *)
Lemma SFdiv_value a mp ep :
  good prec emax a -> finite_or_zero a ->
  good prec emax (S754_finite false mp ep) ->
  good prec emax (SFdiv prec emax a (S754_finite false mp ep)) /\
  signed_value prec emax (SFdiv prec emax a (S754_finite false mp ep)) =
  signed_value prec emax
    (round_signed prec emax (signed_value prec emax a * 2 ^ (- emin))
                  (Zpos mp * 2 ^ (ep - emin))).
Proof.
  intros Ga Fa Gp. pose proof (good_magnitude _ _ _ Gp) as [HD _].
  assert (Hemin : emin <= 0) by (unfold SpecFloat.emin; lia).
  assert (HPm : 0 < 2 ^ (- emin)) by (apply Z.pow_pos_nonneg; lia).
  destruct a as [sa|sa| |sa ma ea]; try contradiction.
  - cbn [SFdiv]. replace (signed_value prec emax (S754_zero sa)) with 0
      by (destruct sa; reflexivity).
    rewrite Z.mul_0_l, round_signed_zero by assumption.
    split; [exact I | destruct sa; reflexivity].
  - rewrite SFdiv_correct by assumption.
    pose proof (good_magnitude _ _ _ Ga) as [HN _].
    change (signed_value prec emax (S754_finite sa ma ea))
      with (cond_Zopp sa (Zpos ma * 2 ^ (ea - emin))).
    unfold round_signed. rewrite xorb_false_r.
    replace (cond_Zopp sa (Zpos ma * 2 ^ (ea - emin)) * 2 ^ (- emin) <? 0)
      with sa.
    2:{ destruct sa; cbn [cond_Zopp]; symmetry;
          [apply Z.ltb_lt | apply Z.ltb_ge]; nia. }
    replace (Z.abs (cond_Zopp sa (Zpos ma * 2 ^ (ea - emin)) * 2 ^ (- emin)))
      with (Zpos ma * 2 ^ (ea - emin) * 2 ^ (- emin))
      by (destruct sa; cbn [cond_Zopp]; nia).
    split; [|reflexivity]. apply round_ratio_spec; nia.
Qed.

Lemma SFdiv_infinity s mp ep :
  SFdiv prec emax (S754_infinity s) (S754_finite false mp ep) = S754_infinity s.
Proof. cbn. now rewrite xorb_false_r. Qed.

(** Division by a positive finite number keeps the order. *)
Lemma SFdiv_mono a1 a2 mp ep :
  good prec emax a1 -> good prec emax a2 ->
  good prec emax (S754_finite false mp ep) ->
  signed_value prec emax a1 <= signed_value prec emax a2 ->
  good prec emax (SFdiv prec emax a1 (S754_finite false mp ep)) /\
  good prec emax (SFdiv prec emax a2 (S754_finite false mp ep)) /\
  signed_value prec emax (SFdiv prec emax a1 (S754_finite false mp ep)) <=
  signed_value prec emax (SFdiv prec emax a2 (S754_finite false mp ep)).
Proof.
  intros G1 G2 Gp Hle. pose proof top_pos as HT.
  pose proof (good_magnitude _ _ _ Gp) as [HD _].
  assert (Hemin : emin <= 0) by (unfold SpecFloat.emin; lia).
  assert (HPm : 0 < 2 ^ (- emin)) by (apply Z.pow_pos_nonneg; lia).
  assert (Hdiv : forall a, good prec emax a ->
            good prec emax (SFdiv prec emax a (S754_finite false mp ep))).
  { intros a Ga. destruct a as [s|s| |s m e] eqn:Ea; try contradiction.
    - apply SFdiv_value; cbn; auto.
    - rewrite SFdiv_infinity. exact I.
    - apply SFdiv_value; cbn; auto. }
  assert (Hx : forall v1 v2, v1 <= v2 ->
            v1 * 2 ^ (- emin) * (Zpos mp * 2 ^ (ep - emin)) <=
            v2 * 2 ^ (- emin) * (Zpos mp * 2 ^ (ep - emin))).
  { intros v1 v2 Hv. apply Z.mul_le_mono_nonneg_r; [lia|].
    apply Z.mul_le_mono_nonneg_r; lia. }
  split; [now apply Hdiv|]. split; [now apply Hdiv|].
  pose proof (signed_value_bounds _ (Hdiv a1 G1)) as B1.
  pose proof (signed_value_bounds _ (Hdiv a2 G2)) as B2.
  destruct a1 as [s1|[|]| |s1 m1 e1] eqn:E1; try contradiction;
    destruct a2 as [s2|[|]| |s2 m2 e2] eqn:E2; try contradiction;
    rewrite ?SFdiv_infinity in *;
    rewrite ?infinite_value in *; cbn [cond_Zopp] in *; try lia;
    try (match goal with
         | H : _ <= signed_value _ _ ?r |- _ =>
             pose proof (finite_value_lt r ltac:(assumption) I); lia
         | H : signed_value _ _ ?r <= _ |- _ =>
             pose proof (finite_value_lt r ltac:(assumption) I); lia
         end);
    destruct (SFdiv_value _ mp ep G1 I Gp) as [_ ->];
    destruct (SFdiv_value _ mp ep G2 I Gp) as [_ ->];
    apply round_signed_mono; try lia; apply Hx; exact Hle.
Qed.

(** Addition of finite numbers is the rounding of the exact sum. *)
Lemma SFadd_value t y :
  good prec emax t -> good prec emax y ->
  finite_or_zero t -> finite_or_zero y ->
  good prec emax (SFadd prec emax t y) /\
  signed_value prec emax (SFadd prec emax t y) =
  signed_value prec emax
    (round_signed prec emax
       (signed_value prec emax t + signed_value prec emax y) 1).
Proof.
  intros Gt Gy Ft Fy.
  destruct t as [st|st| |st mt et], y as [sy|sy| |sy my ey];
    try contradiction.
  - (* zero + zero *)
    replace (signed_value prec emax (S754_zero st)
             + signed_value prec emax (S754_zero sy)) with 0
      by (destruct st, sy; reflexivity).
    rewrite round_signed_zero by lia.
    destruct st, sy; split; cbn; auto.
  - (* zero + finite *)
    cbn [SFadd].
    replace (signed_value prec emax (S754_zero st)
             + signed_value prec emax (S754_finite sy my ey))
      with (cond_Zopp sy (Zpos my * 2 ^ (ey - emin)))
      by (destruct st; unfold signed_value; cbn; lia).
    rewrite round_signed_exact by assumption. split; [exact Gy|reflexivity].
  - (* finite + zero *)
    cbn [SFadd].
    replace (signed_value prec emax (S754_finite st mt et)
             + signed_value prec emax (S754_zero sy))
      with (cond_Zopp st (Zpos mt * 2 ^ (et - emin)))
      by (destruct sy; unfold signed_value; cbn; lia).
    rewrite round_signed_exact by assumption. split; [exact Gt|reflexivity].
  - (* finite + finite *)
    cbn [SFadd].
    pose proof Gt as (_ & HEt & _). pose proof Gy as (_ & HEy & _).
    set (ez := Z.min et ey).
    pose proof (shl_align_spec mt et ez) as [_ Hmt].
    pose proof (shl_align_spec my ey ez) as [_ Hmy].
    rewrite Z.min_r in Hmt, Hmy by (unfold ez; lia).
    set (M := cond_Zopp st (Zpos (fst (shl_align mt et ez)))
              + cond_Zopp sy (Zpos (fst (shl_align my ey ez)))).
    assert (HX : M * 2 ^ (ez - emin) =
                 signed_value prec emax (S754_finite st mt et)
                 + signed_value prec emax (S754_finite sy my ey)).
    { unfold M, signed_value. cbn [sign_of magnitude].
      rewrite Z.mul_add_distr_r, !cond_Zopp_mul, Hmt, Hmy.
      rewrite <- !Z.mul_assoc, <- !Z.pow_add_r by (unfold ez; lia).
      replace (et - ez + (ez - emin)) with (et - emin) by lia.
      replace (ey - ez + (ez - emin)) with (ey - emin) by lia.
      reflexivity. }
    rewrite <- HX.
    destruct (Z.eq_dec M 0) as [E0|Hnz].
    + rewrite E0. cbn [binary_normalize Z.mul].
      rewrite round_signed_zero by lia. split; cbn; auto.
    + rewrite binary_normalize_correct by (unfold ez; lia).
      split; [apply round_signed_good; lia | reflexivity].
Qed.

(** The largest magnitude of a finite number. *)
Lemma good_value_le s m e :
  good prec emax (S754_finite s m e) ->
  Zpos m * 2 ^ (e - emin) <= (2 ^ prec - 1) * 2 ^ (emax - prec - emin).
Proof.
  intros (HA & HE & _). pose proof emin_le_emax.
  assert (0 < 2 ^ (e - emin)) by (apply Z.pow_pos_nonneg; lia).
  assert (2 ^ (e - emin) <= 2 ^ (emax - prec - emin))
    by (apply Z.pow_le_mono_r; lia).
  apply Z.mul_le_mono_nonneg; lia.
Qed.

Lemma finite_value_le r :
  good prec emax r -> finite_or_zero r ->
  Z.abs (signed_value prec emax r) <=
  (2 ^ prec - 1) * 2 ^ (emax - prec - emin).
Proof.
  pose proof emin_le_emax.
  assert (0 < 2 ^ (emax - prec - emin)) by (apply Z.pow_pos_nonneg; lia).
  assert (1 <= 2 ^ prec) by (pose proof (Z.pow_pos_nonneg 2 prec); lia).
  destruct r as [s|s| |s m e]; try contradiction; intros G _;
    unfold signed_value; cbn [sign_of magnitude].
  - destruct s; cbn [cond_Zopp]; nia.
  - pose proof (good_value_le s m e G). pose proof (good_magnitude s m e G).
    destruct s; cbn [cond_Zopp]; lia.
Qed.

Lemma magnitude_of_signed r1 r2 :
  good prec emax r1 -> good prec emax r2 ->
  signed_value prec emax r1 = signed_value prec emax r2 ->
  magnitude prec emax r1 = magnitude prec emax r2.
Proof.
  intros G1 G2. unfold signed_value.
  pose proof (magnitude_bounds r1 G1). pose proof (magnitude_bounds r2 G2).
  generalize dependent (magnitude prec emax r1).
  generalize dependent (magnitude prec emax r2).
  intros v2 H2 v1 H1.
  destruct (sign_of r1), (sign_of r2); cbn [cond_Zopp]; lia.
Qed.

(** A sum whose exact value rounds below the overflow threshold is a
    finite number. *)
Lemma SFadd_finite t y B :
  good prec emax t -> good prec emax y ->
  finite_or_zero t -> finite_or_zero y ->
  Z.abs (signed_value prec emax t + signed_value prec emax y) <= B ->
  magnitude prec emax (round_ratio prec emax false B 1) < 2 ^ (emax - emin) ->
  finite_or_zero (SFadd prec emax t y).
Proof.
  intros Gt Gy Ft Fy HB Hlt.
  destruct (SFadd_value t y Gt Gy Ft Fy) as [G Hv].
  set (X := signed_value prec emax t + signed_value prec emax y) in *.
  assert (Hm : magnitude prec emax (SFadd prec emax t y) < 2 ^ (emax - emin)).
  { rewrite (magnitude_of_signed _ _ G (round_signed_good X 1 ltac:(lia)) Hv).
    unfold round_signed.
    pose proof (round_ratio_mono (X <? 0) false (Z.abs X) 1 B 1
                  ltac:(lia) ltac:(lia) ltac:(lia) ltac:(lia) ltac:(lia)).
    lia. }
  destruct (SFadd prec emax t y) as [s|s| |s m e];
    try exact I; try contradiction.
  cbn [magnitude] in Hm. lia.
Qed.

End Format.

End Rounding.

(** ** The same for primitive floats *)

Module Order64.

Import Round Rounding.

Lemma prec_pos : (0 < prec)%Z.
Proof. reflexivity. Qed.

Lemma prec_lt_emax : (prec < emax)%Z.
Proof. reflexivity. Qed.

Ltac format64 := first [exact prec_pos | exact prec_lt_emax].

Lemma Prim2SF_good (f : float) :
  is_nan f = false -> good prec emax (Prim2SF f).
Proof.
  intros H. apply valid_good; try format64.
  - apply Prim2SF_valid.
  - unfold is_nan in H. rewrite eqb_spec in H. intros E. rewrite E in H. discriminate.
Qed.

Lemma SFleb_value64 r1 r2 :
  good prec emax r1 -> good prec emax r2 ->
  SFleb r1 r2 = (signed_value prec emax r1 <=? signed_value prec emax r2)%Z.
Proof. intros. apply SFleb_signed_value; try format64; assumption. Qed.

Lemma SFltb_value64 r1 r2 :
  good prec emax r1 -> good prec emax r2 ->
  SFltb r1 r2 = (signed_value prec emax r1 <? signed_value prec emax r2)%Z.
Proof. intros. apply SFltb_signed_value; try format64; assumption. Qed.

Lemma Prim2SF_finite (f : float) :
  is_finite f = true -> finite_or_zero (Prim2SF f) /\ good prec emax (Prim2SF f).
Proof.
  intros H. split.
  - rewrite B64.is_finite_spec in H. destruct (Prim2SF f); try discriminate; exact I.
  - apply Prim2SF_good. now apply B64.finite_not_nan.
Qed.

Lemma ltb_not_nan (u v : float) :
  (u <? v) = true -> is_nan u = false /\ is_nan v = false.
Proof.
  rewrite ltb_spec, !B64.is_nan_spec. unfold SFltb.
  destruct (Prim2SF u), (Prim2SF v); cbn; auto; discriminate.
Qed.

(** Subtracting from a finite number turns the order around. *)
Lemma sub_antimono (t u v : float) :
  is_finite t = true -> (u <? v) = true ->
  is_nan (t - u) = false /\ is_nan (t - v) = false /\
  (t - v <=? t - u) = true.
Proof.
  intros Ht Hlt. destruct (Prim2SF_finite t Ht) as [Ft Gt].
  destruct (ltb_not_nan u v Hlt) as [Nu Nv].
  pose proof (Prim2SF_good u Nu) as Gu. pose proof (Prim2SF_good v Nv) as Gv.
  rewrite ltb_spec, SFltb_value64 in Hlt by assumption.
  apply Z.ltb_lt in Hlt.
  destruct (SFsub_antimono prec emax prec_pos prec_lt_emax _ _ _ Gt Ft Gu Gv
              ltac:(lia)) as (G1 & G2 & Hle).
  rewrite !B64.is_nan_spec, leb_spec, !sub_spec. unfold SF64sub.
  rewrite SFleb_value64 by assumption.
  repeat split.
  - destruct (SFsub prec emax (Prim2SF t) (Prim2SF u)); try reflexivity; contradiction.
  - destruct (SFsub prec emax (Prim2SF t) (Prim2SF v)); try reflexivity; contradiction.
  - now apply Z.leb_le.
Qed.

(** Dividing by a positive finite number keeps the order. *)
Lemma div_mono (u v p : float) :
  is_nan u = false -> is_nan v = false -> (u <=? v) = true ->
  is_finite p = true -> (0 <? p) = true ->
  (u / p <=? v / p) = true.
Proof.
  intros Nu Nv Hle Hp Hpos.
  pose proof (Prim2SF_good u Nu) as Gu. pose proof (Prim2SF_good v Nv) as Gv.
  destruct (Prim2SF_finite p Hp) as [Fp Gp].
  rewrite ltb_spec in Hpos. change (Prim2SF 0) with (S754_zero false) in Hpos.
  rewrite leb_spec, SFleb_value64 in Hle by assumption.
  apply Z.leb_le in Hle.
  rewrite leb_spec, !div_spec. unfold SF64div.
  destruct (Prim2SF p) as [sp|sp| |sp mp ep]; try contradiction;
    [discriminate|].
  destruct sp; [discriminate|].
  destruct (SFdiv_mono prec emax prec_pos prec_lt_emax _ _ mp ep Gu Gv Gp Hle)
    as (G1 & G2 & H).
  rewrite SFleb_value64 by assumption.
  now apply Z.leb_le.
Qed.

Lemma sub_self (t : float) : is_finite t = true -> t - t = 0.
Proof.
  intros Ht. apply Prim2SF_inj. rewrite sub_spec.
  change (Prim2SF 0) with (S754_zero false).
  rewrite B64.is_finite_spec in Ht. unfold SF64sub.
  destruct (Prim2SF t) as [s|s| |s mt e]; try discriminate.
  - destruct s; reflexivity.
  - cbn [SFsub]. rewrite Z.sub_diag. reflexivity.
Qed.

Lemma zero_div_pos (p : float) : (0 <? p) = true -> 0 / p = 0.
Proof.
  intros Hp. apply Prim2SF_inj. rewrite div_spec, ltb_spec in *.
  change (Prim2SF 0) with (S754_zero false) in *. unfold SF64div.
  destruct (Prim2SF p) as [s|s| |s mp e]; try discriminate;
    destruct s; try discriminate; reflexivity.
Qed.

(** Adding a finite number to the net height gives a finite number: the
    sum cannot overflow. *)
Lemma net_height_add_finite (a : float) :
  is_finite a = true -> is_finite (NET_HEIGHT_M + a) = true.
Proof.
  intros Ha. destruct (Prim2SF_finite a Ha) as [Fa Ga].
  destruct (Prim2SF_finite NET_HEIGHT_M eq_refl) as [Fn Gn].
  rewrite B64.is_finite_spec, add_spec. unfold SF64add.
  pose proof (finite_value_le prec emax prec_pos prec_lt_emax _ Ga Fa) as Hb.
  assert (Hfin : finite_or_zero (SFadd prec emax (Prim2SF NET_HEIGHT_M) (Prim2SF a))).
  { apply (SFadd_finite prec emax prec_pos prec_lt_emax _ _
             (signed_value prec emax (Prim2SF NET_HEIGHT_M)
              + (2 ^ prec - 1) * 2 ^ (emax - prec - SpecFloat.emin prec emax))%Z);
      try assumption.
    - assert (0 <= signed_value prec emax (Prim2SF NET_HEIGHT_M))%Z
        by (vm_compute; discriminate).
      lia.
    - vm_compute. reflexivity. }
  destruct (SFadd prec emax (Prim2SF NET_HEIGHT_M) (Prim2SF a));
    try contradiction; reflexivity.
Qed.

End Order64.

(** * Calibration *)

Lemma finalizeCalibration_eq (st : state) (lb lt rb rt : point) :
  LB (calibPts st) = Some lb -> LT (calibPts st) = Some lt ->
  RB (calibPts st) = Some rb -> RT (calibPts st) = Some rt ->
  finalizeCalibration st = Some (calibrated st lb lt rb rt).
Proof.
  intros HLB HLT HRB HRT. unfold finalizeCalibration, calibrated.
  rewrite HLB, HLT, HRB, HRT. reflexivity.
Qed.

(** With a point missing the property access throws. *)
Lemma finalizeCalibration_initial : finalizeCalibration initial = None.
Proof. reflexivity. Qed.

(** C1, as stated, fails: with LT.x = RT.x = 100 the function signals
    nothing and stores a model whose slope is Infinity (and whose
    intercept is -Infinity). *)
Lemma finalize_vertical_line_returns_model :
  (100 =? 100) = true /\
  finalizeCalibration (State vertical_pts None None []) =
  Some (State vertical_pts (Some (202.5 / NET_HEIGHT_M))
              (Some (Line infinity neg_infinity)) []).
Proof. split; reflexivity. Qed.

(** C1, amended: once the four points are set [finalizeCalibration] never
    signals an error, it always stores a model; when LT.x == RT.x the
    slope it stores is not a finite number (it is an infinity or NaN).
    The reference height is not an input: it is the constant 2.43, which
    is positive. *)
Theorem finalize_never_signals (st : state) (lb lt rb rt : point) :
  LB (calibPts st) = Some lb -> LT (calibPts st) = Some lt ->
  RB (calibPts st) = Some rb -> RT (calibPts st) = Some rt ->
  exists st' tl,
    finalizeCalibration st = Some st' /\
    pixelsPerMeter st' =
      Some ((abs (y lt - y lb) + abs (y rt - y rb)) / 2 / NET_HEIGHT_M) /\
    (0 <? NET_HEIGHT_M) = true /\
    topLine st' = Some tl /\
    ((x lt =? x rt) = true -> JS.isFinite (m tl) = false).
Proof.
  intros HLB HLT HRB HRT.
  exists (calibrated st lb lt rb rt). eexists.
  split; [now apply finalizeCalibration_eq|].
  split; [reflexivity|]. split; [reflexivity|]. split; [reflexivity|].
  simpl. intros He. apply B64.div_sub_eqb_not_finite.
  rewrite eqb_spec in *. unfold SFeqb in *.
  destruct (Prim2SF (x lt)) as [s1|s1| |s1 m1 e1],
           (Prim2SF (x rt)) as [s2|s2| |s2 m2 e2];
    simpl in *; try discriminate; try reflexivity; B64.sf_order.
Qed.

Lemma finalize_never_signals_witness :
  exists st' tl,
    finalizeCalibration (State vertical_pts None None []) = Some st' /\
    pixelsPerMeter st' =
      Some ((abs (200 - 400) + abs (205 - 410)) / 2 / NET_HEIGHT_M) /\
    (0 <? NET_HEIGHT_M) = true /\
    topLine st' = Some tl /\
    ((100 =? 100) = true -> JS.isFinite (m tl) = false).
Proof.
  apply (finalize_never_signals (State vertical_pts None None [])
           (Pt 100 400) (Pt 100 200) (Pt 100 410) (Pt 100 205));
    reflexivity.
Defined.

(** C2: for four points with LT.x != RT.x, [finalizeCalibration] stores
    pixelsPerMeter = (|LT.y - LB.y| + |RT.y - RB.y|) / 2 / 2.43 and the
    line of slope (RT.y - LT.y) / (RT.x - LT.x) and intercept
    LT.y - slope * LT.x; in the scenario of the specification
    pixelsPerMeter = 202.5 / 2.43. *)
Theorem finalize_model :
  (forall (st : state) (lb lt rb rt : point),
      LB (calibPts st) = Some lb -> LT (calibPts st) = Some lt ->
      RB (calibPts st) = Some rb -> RT (calibPts st) = Some rt ->
      (x lt =? x rt) = false ->
      exists st',
        finalizeCalibration st = Some st' /\
        pixelsPerMeter st' =
          Some ((abs (y lt - y lb) + abs (y rt - y rb)) / 2 / NET_HEIGHT_M) /\
        topLine st' =
          Some (Line ((y rt - y lt) / (x rt - x lt))
                     (y lt - (y rt - y lt) / (x rt - x lt) * x lt))) /\
  (exists st',
      finalizeCalibration scenario0 = Some st' /\
      pixelsPerMeter st' = Some (202.5 / 2.43)).
Proof.
  split.
  - intros st lb lt rb rt HLB HLT HRB HRT _.
    exists (calibrated st lb lt rb rt). split.
    + now apply finalizeCalibration_eq.
    + split; reflexivity.
  - eexists. split; reflexivity.
Qed.

Lemma finalize_model_witness :
  exists st',
    finalizeCalibration scenario0 = Some st' /\
    pixelsPerMeter st' =
      Some ((abs (200 - 400) + abs (205 - 410)) / 2 / NET_HEIGHT_M) /\
    topLine st' =
      Some (Line ((205 - 200) / (700 - 100))
                 (200 - (205 - 200) / (700 - 100) * 100)).
Proof.
  apply (proj1 finalize_model scenario0
           (Pt 100 400) (Pt 100 200) (Pt 700 410) (Pt 700 205));
    reflexivity.
Defined.

(** * Metric converters *)

(** A scale factor above zero passes the guard [!pixelsPerMeter]. *)
Lemma positive_not_falsy (ppm : float) :
  (0 <? ppm) = true -> JS.falsy (Some ppm) = false.
Proof.
  intros H. simpl. now rewrite B64.pos_not_zero, B64.pos_not_nan.
Qed.

Lemma metersAboveNetAtPoint_model (st : state) (ppm : float) (tl : line) x y :
  pixelsPerMeter st = Some ppm -> topLine st = Some tl ->
  JS.falsy (Some ppm) = false ->
  metersAboveNetAtPoint st x y = Some (verticalOffsetMeters ppm tl x y).
Proof.
  intros Hp Ht Hf. unfold metersAboveNetAtPoint.
  rewrite Hp, Ht, Hf. reflexivity.
Qed.

Lemma metersHorizDistance_model (st : state) (ppm : float) p1 p2 :
  pixelsPerMeter st = Some ppm -> JS.falsy (Some ppm) = false ->
  metersHorizDistance st p1 p2 = Some (horizontalDistanceMeters ppm p1 p2).
Proof.
  intros Hp Hf. unfold metersHorizDistance. rewrite Hp, Hf. reflexivity.
Qed.

Lemma metersHorizDistance_falsy (st : state) p1 p2 :
  JS.falsy (pixelsPerMeter st) = true -> metersHorizDistance st p1 p2 = None.
Proof.
  unfold metersHorizDistance. destruct (pixelsPerMeter st) as [ppm|].
  - intros ->. reflexivity.
  - reflexivity.
Qed.

Lemma metersAboveNetAtPoint_falsy (st : state) x y :
  JS.falsy (pixelsPerMeter st) = true -> metersAboveNetAtPoint st x y = None.
Proof.
  unfold metersAboveNetAtPoint. destruct (pixelsPerMeter st) as [ppm|].
  - intros ->. now destruct (topLine st).
  - reflexivity.
Qed.

(** C3: under a calibration model (pixelsPerMeter > 0 and a reference
    line) the vertical-offset conversion of a point (x, y) is
    (slope * x + intercept - y) / pixelsPerMeter; with no calibration model
    (pixelsPerMeter or the line still null) it is null. *)
Theorem metersAboveNetAtPoint_spec :
  (forall (st : state) (ppm : float) (tl : line) (x y : float),
      pixelsPerMeter st = Some ppm -> topLine st = Some tl ->
      (0 <? ppm) = true ->
      metersAboveNetAtPoint st x y = Some ((m tl * x + b tl - y) / ppm)) /\
  (forall (st : state) (x y : float),
      pixelsPerMeter st = None \/ topLine st = None ->
      metersAboveNetAtPoint st x y = None).
Proof.
  split.
  - intros st ppm tl x y Hp Ht Hpos.
    now apply metersAboveNetAtPoint_model, positive_not_falsy.
  - intros st x y [H|H]; unfold metersAboveNetAtPoint; rewrite H.
    + reflexivity.
    + now destruct (pixelsPerMeter st).
Qed.

Lemma metersAboveNetAtPoint_spec_witness :
  metersAboveNetAtPoint
    (State scenario_pts (Some 83.333333333333329)
           (Some (Line 0.0083333333333333332 199.16666666666666)) [])
    400 150
  = Some ((0.0083333333333333332 * 400 + 199.16666666666666 - 150)
          / 83.333333333333329) /\
  metersAboveNetAtPoint initial 400 150 = None.
Proof.
  split.
  - apply (proj1 metersAboveNetAtPoint_spec _ 83.333333333333329
             (Line 0.0083333333333333332 199.16666666666666));
      reflexivity.
  - apply (proj2 metersAboveNetAtPoint_spec). left. reflexivity.
Defined.

(** C10: when both measured spans are zero (LT.y == LB.y and
    RT.y == RB.y, finite coordinates) [finalizeCalibration] stores
    pixelsPerMeter = 0 and both converters return null; and whenever a
    converter does return a number, the scale factor it divided by is
    neither zero nor NaN. *)
Theorem zero_scale_is_guarded :
  (forall (st : state) (lb lt rb rt : point),
      LB (calibPts st) = Some lb -> LT (calibPts st) = Some lt ->
      RB (calibPts st) = Some rb -> RT (calibPts st) = Some rt ->
      JS.isFinite (y lt) = true -> JS.isFinite (y rt) = true ->
      (y lt =? y lb) = true -> (y rt =? y rb) = true ->
      exists st',
        finalizeCalibration st = Some st' /\
        pixelsPerMeter st' = Some 0 /\
        (forall x y, metersAboveNetAtPoint st' x y = None) /\
        (forall p1 p2, metersHorizDistance st' p1 p2 = None)) /\
  (forall (st : state) (x y v : float),
      metersAboveNetAtPoint st x y = Some v ->
      exists ppm, pixelsPerMeter st = Some ppm /\
                  is_zero ppm = false /\ is_nan ppm = false) /\
  (forall (st : state) (p1 p2 : click) (v : float),
      metersHorizDistance st p1 p2 = Some v ->
      exists ppm, pixelsPerMeter st = Some ppm /\
                  is_zero ppm = false /\ is_nan ppm = false).
Proof.
  split; [|split].
  - intros st lb lt rb rt HLB HLT HRB HRT Fl Fr El Er.
    exists (calibrated st lb lt rb rt).
    assert (Hppm : pixelsPerMeter (calibrated st lb lt rb rt) = Some 0).
    { unfold calibrated. cbn [pixelsPerMeter].
      rewrite (B64.abs_sub_eqb _ _ Fl El), (B64.abs_sub_eqb _ _ Fr Er).
      reflexivity. }
    split; [now apply finalizeCalibration_eq|]. split; [exact Hppm|]. split.
    + intros x y. apply metersAboveNetAtPoint_falsy. rewrite Hppm. reflexivity.
    + intros p1 p2. apply metersHorizDistance_falsy. rewrite Hppm. reflexivity.
  - intros st x y v. unfold metersAboveNetAtPoint.
    destruct (pixelsPerMeter st) as [ppm|]; [|discriminate].
    destruct (topLine st) as [tl|]; [|discriminate].
    destruct (JS.falsy (Some ppm)) eqn:F; [discriminate|]. intros _.
    exists ppm. simpl in F. apply orb_false_elim in F. tauto.
  - intros st p1 p2 v. unfold metersHorizDistance.
    destruct (pixelsPerMeter st) as [ppm|]; [|discriminate].
    destruct (JS.falsy (Some ppm)) eqn:F; [discriminate|]. intros _.
    exists ppm. simpl in F. apply orb_false_elim in F. tauto.
Qed.

Lemma zero_scale_is_guarded_witness :
  exists st',
    finalizeCalibration (State flat_pts None None []) = Some st' /\
    pixelsPerMeter st' = Some 0 /\
    (forall x y, metersAboveNetAtPoint st' x y = None) /\
    (forall p1 p2, metersHorizDistance st' p1 p2 = None).
Proof.
  apply (proj1 zero_scale_is_guarded (State flat_pts None None [])
           (Pt 100 200) (Pt 100 200) (Pt 700 205) (Pt 700 205));
    reflexivity.
Defined.

(** * Metrics per rep *)

Lemma computeAllRepMetrics_nth (st : state) (i : nat) (r : rep) :
  nth_error (trails st) i = Some r ->
  nth_error (trails (computeAllRepMetrics st)) i = Some (computeRepMetrics st r).
Proof.
  intros H. unfold computeAllRepMetrics. cbn [trails].
  now rewrite nth_error_map, H.
Qed.

(** The calibration is not touched by the metrics pass. *)
Lemma computeAllRepMetrics_model (st : state) :
  pixelsPerMeter (computeAllRepMetrics st) = pixelsPerMeter st /\
  topLine (computeAllRepMetrics st) = topLine st /\
  calibPts (computeAllRepMetrics st) = calibPts st.
Proof. now unfold computeAllRepMetrics. Qed.

(** The point list of a rep is only read. *)
Lemma computeRepMetrics_points (st : state) (r : rep) :
  points (computeRepMetrics st r) = points r /\
  color (computeRepMetrics st r) = color r.
Proof.
  unfold computeRepMetrics.
  destruct (points r) as [|p0 [|p1 ps]]; try (split; reflexivity).
  destruct (negb _); split; reflexivity.
Qed.

(** A rep with at least two points, seen as the code sees it. *)
Lemma two_points (ps : list click) :
  (2 <= length ps)%nat ->
  exists p0 p1 rest, ps = p0 :: p1 :: rest.
Proof.
  destruct ps as [|p0 [|p1 rest]]; simpl; intros H; try lia. eauto.
Qed.

(** The width and the arrow of a rep with at least two points. *)
Lemma computeRepMetrics_width (st : state) (r : rep) (first : click) :
  (2 <= length (points r))%nat ->
  hd_error (points r) = Some first ->
  widthM (computeRepMetrics st r) =
    metersHorizDistance st first (last (points r) first) /\
  direction (computeRepMetrics st r) =
    Some (direction_of first (last (points r) first)).
Proof.
  intros Hlen Hhd. unfold computeRepMetrics.
  destruct (two_points _ Hlen) as (p0 & p1 & rest & E). rewrite E in *.
  injection Hhd as <-.
  destruct (negb _); split; reflexivity.
Qed.

(** C5: a rep with 0 or 1 points gets all four derived fields null, and
    nothing else of it changes. *)
Theorem short_rep_all_null (st : state) (i : nat) (r : rep) :
  nth_error (trails st) i = Some r ->
  (length (points r) < 2)%nat ->
  exists r',
    nth_error (trails (computeAllRepMetrics st)) i = Some r' /\
    peakM r' = None /\ aboveNetCM r' = None /\
    widthM r' = None /\ direction r' = None /\
    points r' = points r /\ color r' = color r.
Proof.
  intros Hi Hlen. exists (computeRepMetrics st r).
  split; [now apply computeAllRepMetrics_nth|].
  unfold computeRepMetrics.
  destruct (points r) as [|p0 [|p1 ps]]; simpl in Hlen; try lia;
    repeat split; reflexivity.
Qed.

Lemma short_rep_all_null_witness :
  exists r',
    nth_error
      (trails (computeAllRepMetrics
                 (State scenario_pts (Some 83.333333333333329)
                        (Some (Line 0.0083333333333333332 199.16666666666666))
                        [Rep [Click 400 150 1] [255; 80; 80]%Z
                             None None None None]))) 0 = Some r' /\
    peakM r' = None /\ aboveNetCM r' = None /\
    widthM r' = None /\ direction r' = None /\
    points r' = [Click 400 150 1] /\ color r' = [255; 80; 80]%Z.
Proof.
  apply (short_rep_all_null
           (State scenario_pts (Some 83.333333333333329)
                  (Some (Line 0.0083333333333333332 199.16666666666666))
                  [Rep [Click 400 150 1] [255; 80; 80]%Z None None None None])
           0 (Rep [Click 400 150 1] [255; 80; 80]%Z None None None None)).
  - reflexivity.
  - simpl. lia.
Defined.

(** C6: under a calibration model a rep with at least two points gets a
    non-null widthM = |last.x - first.x| / pixelsPerMeter, from the first
    and the last recorded point, and the direction Forward when
    last.x > first.x, Backward when last.x < first.x, Neutral otherwise. *)
Theorem long_rep_width_direction
    (st : state) (ppm : float) (tl : line) (i : nat) (r : rep) (first : click) :
  pixelsPerMeter st = Some ppm -> topLine st = Some tl -> (0 <? ppm) = true ->
  nth_error (trails st) i = Some r ->
  (2 <= length (points r))%nat ->
  hd_error (points r) = Some first ->
  exists r',
    nth_error (trails (computeAllRepMetrics st)) i = Some r' /\
    widthM r' = Some (abs (cx (last (points r) first) - cx first) / ppm) /\
    direction r' =
      Some (if cx first <? cx (last (points r) first) then Forward
            else if cx (last (points r) first) <? cx first then Backward
            else Neutral).
Proof.
  intros Hp _ Hpos Hi Hlen Hhd. exists (computeRepMetrics st r).
  split; [now apply computeAllRepMetrics_nth|].
  destruct (computeRepMetrics_width st r first Hlen Hhd) as [Hw Hd].
  rewrite Hw, Hd. split; [|reflexivity].
  now apply metersHorizDistance_model, positive_not_falsy.
Qed.

Lemma long_rep_width_direction_witness :
  exists r',
    nth_error (trails (computeAllRepMetrics (scenario_model [rep_right]))) 0
      = Some r' /\
    widthM r' = Some (abs (500 - 300) / (202.5 / 2.43)) /\
    direction r' = Some Forward.
Proof.
  apply (long_rep_width_direction (scenario_model [rep_right]) (202.5 / 2.43)
           (Line ((205 - 200) / (700 - 100))
                 (200 - (205 - 200) / (700 - 100) * 100))
           0 rep_right (Click 300 400 1));
    try reflexivity.
  simpl. lia.
Defined.

(** The peak loop leaves its accumulator alone when no point has an offset. *)
Lemma peak_loop_no_offset (st : state) (ps : list click) (acc : float) :
  (forall p, In p ps -> metersAboveNetAtPoint st (cx p) (cy p) = None) ->
  fold_left (peak_step st) ps acc = acc.
Proof.
  revert acc. induction ps as [|p ps IH]; intros acc H; [reflexivity|].
  simpl. unfold peak_step at 2. rewrite (H p) by now left.
  apply IH. intros q Hq. apply H. now right.
Qed.









(** In the scenario the peak at (400, 150) is 0.63 m above the net:
    peakM is 3.06 and aboveNetCM is 63. *)
Example scenario_peak :
  map (fun r => (peakM r, aboveNetCM r, widthM r, direction r))
      (trails (computeAllRepMetrics (scenario_model [rep_right])))
  = [(Some 3.06, Some 63, Some 2.4000000000000004, Some Forward)].
Proof. reflexivity. Qed.

(** * Session summary *)

(** What one turn of the loop does to each accumulator. *)
Lemma stats_step_best (i : Z) (r : rep) (a : acc) :
  bestIdx (stats_step i r a) =
    match peakM r with
    | Some pk => if bestVal a <? pk then i else bestIdx a
    | None => bestIdx a
    end /\
  bestVal (stats_step i r a) =
    match peakM r with
    | Some pk => if bestVal a <? pk then pk else bestVal a
    | None => bestVal a
    end.
Proof.
  unfold stats_step.
  destruct (peakM r) as [pk|], (widthM r) as [w|];
    try destruct (bestVal a <? pk); split; reflexivity.
Qed.

Lemma stats_step_sums (i : Z) (r : rep) (a : acc) :
  sumPeak (stats_step i r a) = fold_left add (non_null peakM [r]) (sumPeak a) /\
  nPeak (stats_step i r a) = (nPeak a + length (non_null peakM [r]))%nat /\
  sumWidth (stats_step i r a) = fold_left add (non_null widthM [r]) (sumWidth a) /\
  nWidth (stats_step i r a) = (nWidth a + length (non_null widthM [r]))%nat.
Proof.
  unfold stats_step, non_null. simpl.
  destruct (peakM r) as [pk|], (widthM r) as [w|];
    try destruct (bestVal a <? pk); simpl; repeat split; lia.
Qed.

Lemma non_null_cons (f : rep -> option float) (r : rep) (rs : list rep) :
  non_null f (r :: rs) = non_null f [r] ++ non_null f rs.
Proof. unfold non_null. simpl. now rewrite app_nil_r. Qed.

Lemma stats_loop_sums (rs : list rep) :
  forall (i : Z) (a : acc),
    sumPeak (stats_loop i rs a) = fold_left add (non_null peakM rs) (sumPeak a) /\
    nPeak (stats_loop i rs a) = (nPeak a + length (non_null peakM rs))%nat /\
    sumWidth (stats_loop i rs a) = fold_left add (non_null widthM rs) (sumWidth a) /\
    nWidth (stats_loop i rs a) = (nWidth a + length (non_null widthM rs))%nat.
Proof.
  induction rs as [|r rs IH]; intros i a.
  - simpl. repeat split; lia.
  - cbn [stats_loop].
    destruct (IH (i + 1)%Z (stats_step i r a)) as (H1 & H2 & H3 & H4).
    destruct (stats_step_sums i r a) as (S1 & S2 & S3 & S4).
    rewrite (non_null_cons peakM r rs), (non_null_cons widthM r rs).
    rewrite H1, H2, H3, H4, S1, S2, S3, S4.
    rewrite !fold_left_app, !length_app. repeat split; lia.
Qed.

(** The best peak found by the loop over [rs], entered with [bestVal a]
    not NaN: either nothing beat the entry value, or the loop stopped on
    the first rep whose peak no other rep exceeds. *)
Lemma stats_loop_best (rs : list rep) :
  (forall r v, In r rs -> peakM r = Some v -> is_finite v = true) ->
  forall (i : Z) (a : acc),
    is_nan (bestVal a) = false ->
    let a' := stats_loop i rs a in
    (bestIdx a' = bestIdx a /\ bestVal a' = bestVal a /\
     forall j r v, nth_error rs j = Some r -> peakM r = Some v ->
                   (v <=? bestVal a) = true) \/
    (exists k r,
        nth_error rs k = Some r /\ bestIdx a' = (i + Z.of_nat k)%Z /\
        peakM r = Some (bestVal a') /\
        (bestVal a <? bestVal a') = true /\
        forall j r' v, nth_error rs j = Some r' -> peakM r' = Some v ->
                       (v <=? bestVal a') = true /\
                       ((j < k)%nat -> (v <? bestVal a') = true)).
Proof.
  induction rs as [|r rs IH]; intros Hfin i a Hnan; cbn [stats_loop].
  - left. repeat split. intros [|j] r v H; discriminate H.
  - destruct (stats_step_best i r a) as [Ei Ev].
    assert (Hfin' : forall r0 v, In r0 rs -> peakM r0 = Some v ->
                                 is_finite v = true)
      by (intros r0 v H; apply Hfin; now right).
    assert (Hnan' : is_nan (bestVal (stats_step i r a)) = false).
    { rewrite Ev. destruct (peakM r) as [pk|] eqn:Epk; [|exact Hnan].
      destruct (bestVal a <? pk); [|exact Hnan].
      apply B64.finite_not_nan, (Hfin r pk); [now left | exact Epk]. }
    specialize (IH Hfin' (i + 1)%Z (stats_step i r a) Hnan').
    cbv zeta in IH |- *.
    set (a' := stats_loop (i + 1) rs (stats_step i r a)) in *.
    destruct (peakM r) as [pk|] eqn:Epk.
    + assert (Hpk : is_nan pk = false)
        by (apply B64.finite_not_nan, (Hfin r pk); [now left | exact Epk]).
      destruct (bestVal a <? pk) eqn:Elt.
      * (* the rep at index i takes the lead *)
        right. destruct IH as [(Hi & Hv & Hall) | (k & r0 & Hk & Hi & Hp & Hlt & Hall)].
        -- exists 0%nat, r. rewrite Hi, Hv, Ei, Ev.
           repeat split; try (simpl; f_equal; lia); try assumption.
           ++ destruct j as [|j]; simpl in H.
              ** injection H as <-. rewrite Epk in H0. injection H0 as <-.
                 now apply B64.leb_refl.
              ** rewrite Ev in Hall. eapply Hall; eassumption.
        -- exists (S k), r0. rewrite Ev in Hlt. rewrite Hi.
           repeat split; try assumption; try lia.
           ++ eapply B64.ltb_trans; eassumption.
           ++ destruct j as [|j]; simpl in H.
              ** injection H as <-. rewrite Epk in H0. injection H0 as <-.
                 now apply B64.ltb_leb.
              ** eapply Hall; eassumption.
           ++ destruct j as [|j]; simpl in H; intros Hj.
              ** injection H as <-. rewrite Epk in H0. injection H0 as <-.
                 exact Hlt.
              ** eapply Hall; [eassumption | eassumption | lia].
      * (* the lead is kept *)
        assert (Hle : (pk <=? bestVal a) = true)
          by now apply B64.ltb_false_leb.
        rewrite Ei, Ev in *.
        destruct IH as [(Hi & Hv & Hall) | (k & r0 & Hk & Hi & Hp & Hlt & Hall)].
        -- left. repeat split; try assumption.
           intros [|j] r' v H H0; simpl in H.
           ++ injection H as <-. rewrite Epk in H0. now injection H0 as <-.
           ++ eapply Hall; eassumption.
        -- right. exists (S k), r0. rewrite Hi.
           repeat split; try assumption; try lia.
           ++ destruct j as [|j]; simpl in H.
              ** injection H as <-. rewrite Epk in H0. injection H0 as <-.
                 apply B64.ltb_leb. eapply B64.leb_ltb_trans; eassumption.
              ** eapply Hall; eassumption.
           ++ destruct j as [|j]; simpl in H; intros Hj.
              ** injection H as <-. rewrite Epk in H0. injection H0 as <-.
                 eapply B64.leb_ltb_trans; eassumption.
              ** eapply Hall; [eassumption | eassumption | lia].
    + rewrite Ei, Ev in *.
      destruct IH as [(Hi & Hv & Hall) | (k & r0 & Hk & Hi & Hp & Hlt & Hall)].
      * left. repeat split; try assumption.
        intros [|j] r' v H H0; simpl in H.
        -- injection H as <-. congruence.
        -- eapply Hall; eassumption.
      * right. exists (S k), r0. rewrite Hi.
        repeat split; try assumption; try lia.
        -- destruct j as [|j]; simpl in H.
           ++ injection H as <-. congruence.
           ++ eapply Hall; eassumption.
        -- destruct j as [|j]; simpl in H; intros Hj.
           ++ injection H as <-. congruence.
           ++ eapply Hall; [eassumption | eassumption | lia].
Qed.

Lemma non_null_In (f : rep -> option float) (rs : list rep) (v : float) :
  In v (non_null f rs) <-> exists r, In r rs /\ f r = Some v.
Proof.
  unfold non_null. rewrite in_flat_map. split; intros (r & Hr & H); exists r.
  - split; [exact Hr|]. destruct (f r) as [w|]; simpl in H; [|contradiction].
    destruct H as [->|[]]. reflexivity.
  - split; [exact Hr|]. rewrite H. now left.
Qed.

Lemma mean_of_sums (l : list float) :
  match length l with
  | O => None
  | S _ => Some (fold_left add l 0 / of_nat (length l))
  end = mean l.
Proof. destruct l; reflexivity. Qed.

(** The summary over reps whose non-null peaks are finite numbers: the
    best rep is the first one whose peakM no other rep exceeds. *)
Lemma summary_of_finite_peaks (st : state) :
  (forall r v, In r (trails st) -> peakM r = Some v -> JS.isFinite v = true) ->
  match best (renderStatsTable st) with
  | Some (i, v) =>
      exists k r,
        i = Z.of_nat k /\ nth_error (trails st) k = Some r /\
        peakM r = Some v /\
        forall j r' v',
          nth_error (trails st) j = Some r' -> peakM r' = Some v' ->
          (v' <=? v) = true /\ ((j < k)%nat -> (v' <? v) = true)
  | None => non_null peakM (trails st) = []
  end /\
  avgPeak (renderStatsTable st) = mean (non_null peakM (trails st)) /\
  avgWidth (renderStatsTable st) = mean (non_null widthM (trails st)).
Proof.
  intros Hfin. unfold renderStatsTable. cbn [best avgPeak avgWidth].
  destruct (stats_loop_sums (trails st) 0%Z acc0) as (S1 & S2 & S3 & S4).
  split; [|split].
  - destruct (stats_loop_best (trails st) Hfin 0%Z acc0 eq_refl)
      as [(Hi & Hv & Hall) | (k & r & Hk & Hi & Hp & Hlt & Hall)].
    + rewrite Hi. cbn.
      destruct (non_null peakM (trails st)) as [|v l] eqn:E; [reflexivity|].
      assert (Hin : In v (non_null peakM (trails st)))
        by (rewrite E; now left).
      apply non_null_In in Hin. destruct Hin as (r & Hr & Hpk).
      destruct (In_nth_error _ _ Hr) as [j Hj].
      pose proof (Hall j r v Hj Hpk) as Hle. cbn in Hle.
      rewrite B64.finite_leb_neg_infinity in Hle; [discriminate|].
      now apply (Hfin r).
    + rewrite Hi. replace (0 <=? 0 + Z.of_nat k)%Z with true
        by (symmetry; apply Z.leb_le; lia).
      exists k, r. split; [lia|]. split; [exact Hk|]. split; [exact Hp|].
      exact Hall.
  - rewrite S1, S2. cbn. apply mean_of_sums.
  - rewrite S3, S4. cbn. apply mean_of_sums.
Qed.

(** A closed rep has a finite peakM or none: the peak offset is finite
    and adding the net height cannot overflow. *)
Lemma computeRepMetrics_peak_finite (st : state) (r : rep) (v : float) :
  peakM (computeRepMetrics st r) = Some v -> JS.isFinite v = true.
Proof.
  unfold computeRepMetrics.
  destruct (points r) as [|p0 [|p1 ps]]; try discriminate.
  destruct (JS.isFinite (peak_loop st (p0 :: p1 :: ps))) eqn:F;
    cbn [negb peakM]; [|discriminate].
  intros H. injection H as <-. now apply Order64.net_height_add_finite.
Qed.

(** C9: over the closed reps (the reps as [computeAllRepMetrics] leaves
    them) the summary names the rep of maximum peakM, the lowest index
    winning a tie, together with that peak, or nothing when no peakM is
    non-null; the average peak is the arithmetic mean of the non-null peakM
    values and the average width that of the non-null widthM values. *)
Theorem session_summary (st : state) :
  let closed := trails (computeAllRepMetrics st) in
  let s := renderStatsTable (computeAllRepMetrics st) in
  match best s with
  | Some (i, v) =>
      exists k r,
        i = Z.of_nat k /\ nth_error closed k = Some r /\
        peakM r = Some v /\
        forall j r' v',
          nth_error closed j = Some r' -> peakM r' = Some v' ->
          (v' <=? v) = true /\ ((j < k)%nat -> (v' <? v) = true)
  | None => non_null peakM closed = []
  end /\
  avgPeak s = mean (non_null peakM closed) /\
  avgWidth s = mean (non_null widthM closed).
Proof.
  intros closed s. apply summary_of_finite_peaks.
  intros r v Hr Hv. cbn [computeAllRepMetrics trails] in Hr.
  apply in_map_iff in Hr. destruct Hr as (r0 & <- & _).
  now apply (computeRepMetrics_peak_finite st r0).
Qed.

(** Two reps with peaks 3.06 m and 2.70 m, and a one-point rep between
    them. *)
Lemma session_summary_witness :
  let st := scenario_model
              [rep_right; fresh_rep [Click 400 150 1];
               fresh_rep [Click 500 400 1; Click 400 180 2; Click 300 400 3]] in
  let closed := trails (computeAllRepMetrics st) in
  let s := renderStatsTable (computeAllRepMetrics st) in
  match best s with
  | Some (i, v) =>
      exists k r,
        i = Z.of_nat k /\ nth_error closed k = Some r /\
        peakM r = Some v /\
        forall j r' v',
          nth_error closed j = Some r' -> peakM r' = Some v' ->
          (v' <=? v) = true /\ ((j < k)%nat -> (v' <? v) = true)
  | None => non_null peakM closed = []
  end /\
  avgPeak s = mean (non_null peakM closed) /\
  avgWidth s = mean (non_null widthM closed).
Proof.
  intros st. exact (session_summary st).
Defined.

Example session_summary_values :
  renderStatsTable
    (computeAllRepMetrics
       (scenario_model
          [rep_right; fresh_rep [Click 400 150 1];
           fresh_rep [Click 500 400 1; Click 400 180 2; Click 300 400 3]]))
  = Summary (Some (0%Z, 3.06)) (Some ((0 + 3.06 + 2.7) / 2))
            (Some ((0 + 2.4000000000000004 + 2.4000000000000004) / 2)).
Proof. reflexivity. Qed.

(** A tie goes to the lower index. *)
Example session_summary_tie :
  best (renderStatsTable
          (State scenario_pts None None
             [Rep [] [] (Some 2.5) None None None;
              Rep [] [] (Some 3) None None None;
              Rep [] [] (Some 3) None None None]))
  = Some (1%Z, 3).
Proof. reflexivity. Qed.

(** * Monotonicity of the vertical offset *)

(** C8, as stated, fails: in the model of the scenario, at x = 400, the
    pixel rows 100 and 100.00000000000001 (the next double) are different
    but get the same offset, 1.23 m; the offset at the smaller y is not
    strictly greater. *)
Lemma offset_not_strictly_decreasing :
  (100 <? 100.00000000000001) = true /\
  metersAboveNetAtPoint (scenario_model []) 400 100 = Some 1.23 /\
  metersAboveNetAtPoint (scenario_model []) 400 100.00000000000001 = Some 1.23 /\
  (1.23 <? 1.23) = false.
Proof. repeat split; reflexivity. Qed.

(** C8, amended: under a calibration model with a finite
    pixelsPerMeter > 0, and at an x where the pixel y of the reference line
    is finite, the vertical offset never increases with the pixel y: for
    y1 < y2 the offset at y2 is at most the offset at y1; and a point
    exactly on the reference line has offset 0. *)
Theorem offset_decreasing
    (st : state) (ppm : float) (tl : line) (x y1 y2 : float) :
  pixelsPerMeter st = Some ppm -> topLine st = Some tl ->
  (0 <? ppm) = true -> JS.isFinite ppm = true ->
  JS.isFinite (m tl * x + b tl) = true ->
  (y1 <? y2) = true ->
  (exists o1 o2,
      metersAboveNetAtPoint st x y1 = Some o1 /\
      metersAboveNetAtPoint st x y2 = Some o2 /\
      (o2 <=? o1) = true /\ (o1 <? o2) = false) /\
  metersAboveNetAtPoint st x (m tl * x + b tl) = Some 0.
Proof.
  intros Hp Ht Hpos Hfin Hline Hlt.
  pose proof (positive_not_falsy ppm Hpos) as Hf.
  rewrite !(metersAboveNetAtPoint_model st ppm tl _ _ Hp Ht Hf).
  unfold verticalOffsetMeters. set (yTop := m tl * x + b tl) in *.
  split.
  - destruct (Order64.sub_antimono yTop y1 y2 Hline Hlt) as (N1 & N2 & Hle).
    assert (Hdiv : ((yTop - y2) / ppm <=? (yTop - y1) / ppm) = true)
      by now apply Order64.div_mono.
    exists ((yTop - y1) / ppm), ((yTop - y2) / ppm).
    repeat split; [exact Hdiv | now apply B64.leb_not_ltb].
  - rewrite Order64.sub_self by assumption.
    now rewrite Order64.zero_div_pos.
Qed.

Lemma offset_decreasing_witness :
  (exists o1 o2,
      metersAboveNetAtPoint (scenario_model []) 400 150 = Some o1 /\
      metersAboveNetAtPoint (scenario_model []) 400 150.5 = Some o2 /\
      (o2 <=? o1) = true /\ (o1 <? o2) = false) /\
  metersAboveNetAtPoint (scenario_model []) 400
    ((205 - 200) / (700 - 100) * 400
     + (200 - (205 - 200) / (700 - 100) * 100)) = Some 0.
Proof.
  apply (offset_decreasing (scenario_model []) (202.5 / 2.43)
           (Line ((205 - 200) / (700 - 100))
                 (200 - (205 - 200) / (700 - 100) * 100)));
    reflexivity.
Defined.

(** Where the difference is not lost to rounding the decrease is strict:
    the rows 150 and 150.5 of the scenario. *)
Example offset_scenario_rows :
  metersAboveNetAtPoint (scenario_model []) 400 150 = Some 0.63 /\
  metersAboveNetAtPoint (scenario_model []) 400 150.5 = Some 0.624 /\
  (0.624 <? 0.63) = true.
Proof. repeat split; reflexivity. Qed.

(** * Further facts about binary64 *)

Module Float64.

Import Round Rounding.

Lemma binary_round_aux_sign s mx ex lx :
  has_sign s (binary_round_aux prec emax s mx ex lx).
Proof.
  unfold binary_round_aux.
  destruct (shr_fexp prec emax mx ex lx) as [mrs' e'].
  destruct (shr_fexp prec emax _ e' loc_Exact) as [mrs'' e''].
  destruct (shr_m mrs''); cbn [has_sign]; [reflexivity | | exact I].
  destruct (e'' <=? emax - prec)%Z; reflexivity.
Qed.

Lemma binary_round_sign s mx ex :
  has_sign s (binary_round prec emax s mx ex).
Proof.
  unfold binary_round.
  destruct (shl_align mx ex _) as [mz ez]. apply binary_round_aux_sign.
Qed.

Lemma SFabs_binary_round s mx ex :
  SFabs (binary_round prec emax s mx ex) =
  SFabs (binary_round prec emax false mx ex).
Proof.
  unfold binary_round.
  destruct (shl_align mx ex _) as [mz ez].
  unfold binary_round_aux.
  destruct (shr_fexp prec emax (Z.pos mz) ez loc_Exact) as [mrs' e'].
  destruct (shr_fexp prec emax _ e' loc_Exact) as [mrs'' e''].
  destruct (shr_m mrs''); try reflexivity.
  destruct (e'' <=? emax - prec)%Z; reflexivity.
Qed.

Lemma SFabs_binary_normalize_opp M e :
  SFabs (binary_normalize prec emax (- M) e false) =
  SFabs (binary_normalize prec emax M e false).
Proof.
  destruct M as [|p|p]; cbn [Z.opp binary_normalize]; try reflexivity.
  - now rewrite SFabs_binary_round.
  - now rewrite (SFabs_binary_round true).
Qed.

(** |u - v| = |v - u|, for all doubles. *)
Lemma abs_sub_sym (u v : float) : abs (u - v) = abs (v - u).
Proof.
  apply Prim2SF_inj. rewrite !abs_spec, !sub_spec. unfold SF64sub.
  destruct (Prim2SF u) as [su|su| |su mu eu], (Prim2SF v) as [sv|sv| |sv mv ev];
    try (destruct su; try destruct sv; reflexivity);
    try (destruct sv; reflexivity); try reflexivity.
  cbn [SFsub]. rewrite (Z.min_comm ev eu).
  rewrite <- SFabs_binary_normalize_opp. f_equal. f_equal. lia.
Qed.

Lemma SFabs_sign r : has_sign false (SFabs r).
Proof. destruct r; simpl; auto. Qed.

Lemma SFadd_sign a c :
  has_sign false a -> has_sign false c -> has_sign false (SFadd prec emax a c).
Proof.
  destruct a as [sa|sa| |sa ma ea], c as [sc|sc| |sc mc ec];
    cbn [has_sign]; intros Ha Hc; subst; try exact I; try reflexivity.
  cbn [SFadd cond_Zopp Z.add binary_normalize]. apply binary_round_sign.
Qed.

Lemma SFdiv_sign a c :
  has_sign false a -> has_sign false c -> has_sign false (SFdiv prec emax a c).
Proof.
  destruct a as [sa|sa| |sa ma ea], c as [sc|sc| |sc mc ec];
    cbn [has_sign]; intros Ha Hc; subst; try exact I; try reflexivity.
  cbn [SFdiv xorb].
  destruct (SFdiv_core_binary prec emax (Z.pos ma) ea (Z.pos mc) ec)
    as [[mz ez] lz].
  apply binary_round_aux_sign.
Qed.

(** A number that is not negative and passes the guard [!v] is above 0. *)
Lemma truthy_positive (p : float) :
  has_sign false (Prim2SF p) -> JS.falsy (Some p) = false -> (0 <? p) = true.
Proof.
  cbn [JS.falsy]. rewrite B64.is_zero_spec, B64.is_nan_spec, ltb_spec.
  change (Prim2SF 0) with (S754_zero false).
  destruct (Prim2SF p) as [s|s| |s mp e]; cbn [has_sign];
    intros Hs H; try discriminate H; subst s; reflexivity.
Qed.

(** A number that is not negative is never below 0. *)
Lemma not_negative_ltb (w : float) :
  has_sign false (Prim2SF w) -> (w <? 0) = false.
Proof.
  rewrite ltb_spec. change (Prim2SF 0) with (S754_zero false).
  destruct (Prim2SF w) as [s|s| |s mw e]; cbn [has_sign];
    intros H; try subst s; reflexivity.
Qed.

(** An operation on a first operand that is not finite gives a result
    that is not finite. *)
Lemma mul_not_finite (u v : float) :
  is_finite u = false -> is_finite (u * v) = false.
Proof.
  rewrite !B64.is_finite_spec, mul_spec. unfold SF64mul.
  destruct (Prim2SF u) as [su|su| |su mu eu]; try discriminate; intros _;
    destruct (Prim2SF v) as [sv|sv| |sv mv ev]; reflexivity.
Qed.

Lemma add_not_finite (u v : float) :
  is_finite u = false -> is_finite (u + v) = false.
Proof.
  rewrite !B64.is_finite_spec, add_spec. unfold SF64add.
  destruct (Prim2SF u) as [su|su| |su mu eu]; try discriminate; intros _;
    destruct (Prim2SF v) as [sv|sv| |sv mv ev]; try reflexivity;
    destruct su, sv; reflexivity.
Qed.

Lemma sub_not_finite (u v : float) :
  is_finite u = false -> is_finite (u - v) = false.
Proof.
  rewrite !B64.is_finite_spec, sub_spec. unfold SF64sub.
  destruct (Prim2SF u) as [su|su| |su mu eu]; try discriminate; intros _;
    destruct (Prim2SF v) as [sv|sv| |sv mv ev]; try reflexivity;
    destruct su, sv; reflexivity.
Qed.

Lemma div_not_finite (u v : float) :
  is_finite u = false -> is_finite (u / v) = false.
Proof.
  rewrite !B64.is_finite_spec, div_spec. unfold SF64div.
  destruct (Prim2SF u) as [su|su| |su mu eu]; try discriminate; intros _;
    destruct (Prim2SF v) as [sv|sv| |sv mv ev]; reflexivity.
Qed.

(** Two numbers each at most the other are the same, or are zeros. *)
Lemma leb_antisym (u v : float) :
  (u <=? v) = true -> (v <=? u) = true ->
  u = v \/ (is_zero u = true /\ is_zero v = true).
Proof.
  rewrite !leb_spec, !B64.is_zero_spec. unfold SFleb. intros H1 H2.
  destruct (Prim2SF u) as [s1|s1| |s1 m1 e1] eqn:Eu,
           (Prim2SF v) as [s2|s2| |s2 m2 e2] eqn:Ev;
    cbn [SFcompare] in H1, H2; try discriminate;
    try (right; split; reflexivity);
    left; apply Prim2SF_inj; rewrite Eu, Ev;
    repeat match goal with s : bool |- _ => destruct s end;
    try discriminate; try reflexivity;
    B64.cmp_cases; try discriminate; try lia; subst; reflexivity.
Qed.

Lemma neg_infinity_leb (u : float) :
  is_nan u = false -> (neg_infinity <=? u) = true.
Proof.
  rewrite B64.is_nan_spec, leb_spec.
  change (Prim2SF neg_infinity) with (S754_infinity true).
  destruct (Prim2SF u) as [s|[|]| |s mu e]; try discriminate; reflexivity.
Qed.

Lemma zero_finite (u : float) : is_zero u = true -> is_finite u = true.
Proof.
  rewrite B64.is_zero_spec, B64.is_finite_spec.
  destruct (Prim2SF u); try discriminate; reflexivity.
Qed.

(** A number above 0 that compares equal to another is that number. *)
Lemma eqb_positive (u v : float) :
  (0 <? u) = true -> (u =? v) = true -> u = v.
Proof.
  rewrite ltb_spec, eqb_spec. change (Prim2SF 0) with (S754_zero false).
  unfold SFltb, SFeqb. intros Hp He. apply Prim2SF_inj.
  destruct (Prim2SF u) as [s1|s1| |s1 m1 e1],
           (Prim2SF v) as [s2|s2| |s2 m2 e2];
    cbn [SFcompare] in Hp, He; try discriminate;
    repeat match goal with s : bool |- _ => destruct s end;
    try discriminate; try reflexivity;
    B64.cmp_cases; try discriminate; try lia; subst; reflexivity.
Qed.

(** The difference of two different finite numbers is neither zero nor
    NaN: subtraction does not underflow to zero. *)
Lemma sub_different (u v : float) :
  is_finite u = true -> is_finite v = true -> (u =? v) = false ->
  is_zero (v - u) = false /\ is_nan (v - u) = false.
Proof.
  intros Hu Hv Hne.
  destruct (Order64.Prim2SF_finite u Hu) as [Fu Gu].
  destruct (Order64.Prim2SF_finite v Hv) as [Fv Gv].
  destruct (SFsub_value prec emax Order64.prec_pos Order64.prec_lt_emax
              _ _ Gv Gu Fv Fu) as [G Hval].
  rewrite eqb_spec in Hne. unfold SFeqb in Hne.
  rewrite (SFcompare_signed_value prec emax Order64.prec_pos
             Order64.prec_lt_emax _ _ Gu Gv) in Hne.
  set (X := (signed_value prec emax (Prim2SF v)
             - signed_value prec emax (Prim2SF u))%Z) in *.
  assert (HX : X <> 0%Z).
  { unfold X. destruct (Z.compare_spec (signed_value prec emax (Prim2SF u))
                          (signed_value prec emax (Prim2SF v)));
      try discriminate; lia. }
  assert (Hmag : (1 <= magnitude prec emax (round_signed prec emax X 1))%Z).
  { unfold round_signed.
    assert (E1 : round_ratio prec emax (X <? 0)%Z 1 1
                 = S754_finite (X <? 0)%Z 1 (SpecFloat.emin prec emax)).
    { apply (round_ratio_exact prec emax Order64.prec_pos
               Order64.prec_lt_emax (X <? 0)%Z 1 (SpecFloat.emin prec emax)).
      vm_compute. repeat split; try discriminate; intros H; discriminate H. }
    pose proof (round_ratio_mono prec emax Order64.prec_pos
                  Order64.prec_lt_emax (X <? 0)%Z (X <? 0)%Z 1 1 (Z.abs X) 1
                  ltac:(lia) ltac:(lia) ltac:(lia) ltac:(lia) ltac:(lia))
      as Hm.
    rewrite E1 in Hm. cbn [magnitude] in Hm.
    rewrite Z.sub_diag in Hm. exact Hm. }
  pose proof (round_signed_good prec emax Order64.prec_pos
                Order64.prec_lt_emax X 1 ltac:(lia)) as Gr.
  pose proof (magnitude_of_signed prec emax Order64.prec_pos
                Order64.prec_lt_emax _ _ G Gr Hval) as Hm.
  rewrite B64.is_zero_spec, B64.is_nan_spec, sub_spec. unfold SF64sub.
  destruct (SFsub prec emax (Prim2SF v) (Prim2SF u)) as [s|s| |s m0 e0];
    try contradiction; try (split; reflexivity).
  cbn [magnitude] in Hm. lia.
Qed.

Lemma zero_div_number (d : float) :
  is_zero d = false -> is_nan d = false -> is_zero (0 / d) = true.
Proof.
  rewrite !B64.is_zero_spec, B64.is_nan_spec, div_spec.
  change (Prim2SF 0) with (S754_zero false).
  destruct (Prim2SF d); try discriminate; reflexivity.
Qed.

Lemma zero_mul_finite (z u : float) :
  is_zero z = true -> is_finite u = true -> is_zero (z * u) = true.
Proof.
  rewrite !B64.is_zero_spec, B64.is_finite_spec, mul_spec.
  destruct (Prim2SF z); try discriminate.
  destruct (Prim2SF u); try discriminate; reflexivity.
Qed.

Lemma positive_sub_zero (t z : float) :
  (0 <? t) = true -> is_zero z = true -> t - z = t.
Proof.
  rewrite ltb_spec, B64.is_zero_spec. change (Prim2SF 0) with (S754_zero false).
  intros Ht Hz. apply Prim2SF_inj. rewrite sub_spec.
  destruct (Prim2SF z); try discriminate.
  destruct (Prim2SF t) as [s1|s1| |s1 m1 e1]; try discriminate; reflexivity.
Qed.

Lemma zero_add_positive (z t : float) :
  is_zero z = true -> (0 <? t) = true -> z + t = t.
Proof.
  rewrite ltb_spec, B64.is_zero_spec. change (Prim2SF 0) with (S754_zero false).
  intros Hz Ht. apply Prim2SF_inj. rewrite add_spec.
  destruct (Prim2SF z); try discriminate.
  destruct (Prim2SF t) as [s1|s1| |s1 m1 e1]; try discriminate; reflexivity.
Qed.

Lemma sub_finite_not_nan (t c : float) :
  is_nan t = false -> is_finite c = true -> is_nan (t - c) = false.
Proof.
  intros Ht Hc.
  pose proof (Order64.Prim2SF_good t Ht) as Gt.
  destruct (Order64.Prim2SF_finite c Hc) as [Fc Gc].
  rewrite B64.is_nan_spec in *. rewrite sub_spec. unfold SF64sub.
  destruct (Prim2SF t) as [st|st| |st mt et] eqn:Et; try discriminate.
  - destruct (Rounding.SFsub_value prec emax Order64.prec_pos
                Order64.prec_lt_emax _ _ Gt Gc I Fc) as [G _].
    destruct (SFsub prec emax _ _); [reflexivity..|contradiction|reflexivity].
  - destruct (Prim2SF c); try contradiction; reflexivity.
  - destruct (Rounding.SFsub_value prec emax Order64.prec_pos
                Order64.prec_lt_emax _ _ Gt Gc I Fc) as [G _].
    destruct (SFsub prec emax _ _); [reflexivity..|contradiction|reflexivity].
Qed.

Lemma add_finite_not_nan (t c : float) :
  is_nan t = false -> is_finite c = true -> is_nan (t + c) = false.
Proof.
  intros Ht Hc.
  pose proof (Order64.Prim2SF_good t Ht) as Gt.
  destruct (Order64.Prim2SF_finite c Hc) as [Fc Gc].
  rewrite B64.is_nan_spec in *. rewrite add_spec. unfold SF64add.
  destruct (Prim2SF t) as [st|st| |st mt et] eqn:Et; try discriminate.
  - destruct (Rounding.SFadd_value prec emax Order64.prec_pos
                Order64.prec_lt_emax _ _ Gt Gc I Fc) as [G _].
    destruct (SFadd prec emax _ _); [reflexivity..|contradiction|reflexivity].
  - destruct (Prim2SF c); try contradiction; reflexivity.
  - destruct (Rounding.SFadd_value prec emax Order64.prec_pos
                Order64.prec_lt_emax _ _ Gt Gc I Fc) as [G _].
    destruct (SFadd prec emax _ _); [reflexivity..|contradiction|reflexivity].
Qed.

(** The product with a number that is not negative has the sign of the
    first operand. *)
Lemma SFmul_sign s a c :
  has_sign s a -> has_sign false c -> has_sign s (SFmul prec emax a c).
Proof.
  destruct a as [sa|sa| |sa ma ea], c as [sc|sc| |sc mc ec];
    cbn [has_sign]; intros Ha Hc; subst; try exact I;
    cbn [SFmul has_sign]; try (now destruct s).
  replace (xorb s false) with s by now destruct s.
  apply binary_round_aux_sign.
Qed.

Lemma of_uint63_sign n : has_sign false (Prim2SF (of_uint63 n)).
Proof.
  rewrite of_uint63_spec. unfold binary_normalize.
  pose proof (Uint63.to_Z_bounded n) as Hb.
  destruct (Uint63.to_Z n) as [|p|p]; [reflexivity | | lia].
  apply binary_round_sign.
Qed.

Lemma opp_sign s u : has_sign s (Prim2SF u) -> has_sign (negb s) (Prim2SF (- u)).
Proof.
  rewrite opp_spec. destruct (Prim2SF u); cbn [SFopp has_sign];
    intros H; subst; auto.
Qed.

(** A number with the sign bit set is not above 0, one without is not
    below 0. *)
Lemma negative_not_above_zero (w : float) :
  has_sign true (Prim2SF w) -> (0 <? w) = false.
Proof.
  rewrite ltb_spec. change (Prim2SF 0) with (S754_zero false).
  destruct (Prim2SF w) as [s|s| |s mw e]; cbn [has_sign];
    intros H; try subst s; reflexivity.
Qed.

Lemma below_zero_sign (u : float) : (u <? 0) = true -> has_sign true (Prim2SF u).
Proof.
  rewrite ltb_spec. change (Prim2SF 0) with (S754_zero false).
  destruct (Prim2SF u) as [s|s| |s mu e]; cbn [has_sign SFltb SFcompare];
    try discriminate; destruct s; try discriminate; reflexivity.
Qed.

Lemma above_zero_sign (u : float) : (0 <? u) = true -> has_sign false (Prim2SF u).
Proof.
  rewrite ltb_spec. change (Prim2SF 0) with (S754_zero false).
  destruct (Prim2SF u) as [s|s| |s mu e]; cbn [has_sign SFltb SFcompare];
    try discriminate; destruct s; try discriminate; reflexivity.
Qed.

(** Adding keeps the order, for finite numbers. *)
Lemma add_mono (t u v : float) :
  is_finite t = true -> is_finite u = true -> is_finite v = true ->
  (u <=? v) = true -> (t + u <=? t + v) = true.
Proof.
  intros Ht Hu Hv Hle.
  destruct (Order64.Prim2SF_finite t Ht) as [Ft Gt].
  destruct (Order64.Prim2SF_finite u Hu) as [Fu Gu].
  destruct (Order64.Prim2SF_finite v Hv) as [Fv Gv].
  rewrite leb_spec, Order64.SFleb_value64 in Hle by assumption.
  apply Z.leb_le in Hle.
  destruct (SFadd_value prec emax Order64.prec_pos Order64.prec_lt_emax
              _ _ Gt Gu Ft Fu) as [G1 E1].
  destruct (SFadd_value prec emax Order64.prec_pos Order64.prec_lt_emax
              _ _ Gt Gv Ft Fv) as [G2 E2].
  rewrite leb_spec, !add_spec. unfold SF64add.
  rewrite Order64.SFleb_value64 by assumption.
  apply Z.leb_le. rewrite E1, E2.
  apply (round_signed_mono prec emax Order64.prec_pos Order64.prec_lt_emax);
    lia.
Qed.

Lemma add_zero_r (t : float) :
  is_finite t = true -> is_zero t = false -> t + 0 = t.
Proof.
  rewrite B64.is_finite_spec, B64.is_zero_spec. intros Hf Hz.
  apply Prim2SF_inj. rewrite add_spec.
  change (Prim2SF 0) with (S754_zero false).
  destruct (Prim2SF t); try discriminate; reflexivity.
Qed.

(** Two numbers neither below the other compare equal. *)
Lemma not_ltb_eqb (u v : float) :
  is_nan u = false -> is_nan v = false ->
  (u <? v) = false -> (v <? u) = false -> (v =? u) = true.
Proof.
  intros Hu Hv H1 H2.
  pose proof (B64.ltb_false_leb _ _ Hu Hv H1) as L1.
  pose proof (B64.ltb_false_leb _ _ Hv Hu H2) as L2.
  destruct (leb_antisym _ _ L2 L1) as [E|[Z1 Z2]].
  - rewrite E, eqb_spec. rewrite B64.is_nan_spec in Hv.
    destruct (Prim2SF v) as [s|s| |s m e]; try discriminate;
      cbn [SFeqb SFcompare]; try (now destruct s).
    rewrite Z.compare_refl, Pos.compare_cont_refl. now destruct s.
  - rewrite eqb_spec. rewrite B64.is_zero_spec in Z1, Z2.
    destruct (Prim2SF u), (Prim2SF v); try discriminate; reflexivity.
Qed.

End Float64.

Import Float64.

(** * The scale factor after calibration *)

(** The scale [finalizeCalibration] stores is never negative. *)
Lemma finalizeCalibration_scale_sign (st st' : state) (ppm : float) :
  finalizeCalibration st = Some st' -> pixelsPerMeter st' = Some ppm ->
  has_sign false (Prim2SF ppm).
Proof.
  unfold finalizeCalibration.
  destruct (LT (calibPts st)) as [lt|]; [|discriminate].
  destruct (LB (calibPts st)) as [lb|]; [|discriminate].
  destruct (RT (calibPts st)) as [rt|]; [|discriminate].
  destruct (RB (calibPts st)) as [rb|]; [|discriminate].
  intros H. injection H as <-. cbn [pixelsPerMeter]. intros H.
  injection H as <-.
  rewrite !div_spec, add_spec, !abs_spec.
  apply Float64.SFdiv_sign; [|reflexivity].
  apply Float64.SFdiv_sign; [|reflexivity].
  apply Float64.SFadd_sign; apply Float64.SFabs_sign.
Qed.

(** X1: after [finalizeCalibration], whenever a converter returns a number
    the scale factor it divided by is above 0 (the stored pixelsPerMeter is
    never negative, and the guard keeps 0 and NaN out); and a width is never
    below 0. *)
Theorem calibrated_scale_positive (st st' : state) :
  finalizeCalibration st = Some st' ->
  (forall x y v,
      metersAboveNetAtPoint st' x y = Some v ->
      exists ppm, pixelsPerMeter st' = Some ppm /\ (0 <? ppm) = true) /\
  (forall p1 p2 w,
      metersHorizDistance st' p1 p2 = Some w ->
      (exists ppm, pixelsPerMeter st' = Some ppm /\ (0 <? ppm) = true) /\
      (w <? 0) = false).
Proof.
  intros Hfin. split.
  - intros x y v. unfold metersAboveNetAtPoint.
    destruct (pixelsPerMeter st') as [ppm|] eqn:Hp; [|discriminate].
    destruct (topLine st') as [tl|]; [|discriminate].
    destruct (JS.falsy (Some ppm)) eqn:F; [discriminate|]. intros _.
    exists ppm. split; [reflexivity|].
    apply Float64.truthy_positive; [|exact F].
    exact (finalizeCalibration_scale_sign st st' ppm Hfin Hp).
  - intros p1 p2 w. unfold metersHorizDistance.
    destruct (pixelsPerMeter st') as [ppm|] eqn:Hp; [|discriminate].
    destruct (JS.falsy (Some ppm)) eqn:F; [discriminate|].
    intros H. injection H as <-.
    pose proof (finalizeCalibration_scale_sign st st' ppm Hfin Hp) as Hs.
    split.
    + exists ppm. split; [reflexivity|]. now apply Float64.truthy_positive.
    + apply Float64.not_negative_ltb. rewrite div_spec, abs_spec.
      apply Float64.SFdiv_sign; [apply Float64.SFabs_sign | exact Hs].
Qed.

Lemma calibrated_scale_positive_witness :
  (forall x y v,
      metersAboveNetAtPoint (calibrated scenario0 (Pt 100 400) (Pt 100 200) (Pt 700 410) (Pt 700 205)) x y = Some v ->
      exists ppm, pixelsPerMeter (calibrated scenario0 (Pt 100 400) (Pt 100 200) (Pt 700 410) (Pt 700 205)) = Some ppm /\ (0 <? ppm) = true) /\
  (forall p1 p2 w,
      metersHorizDistance (calibrated scenario0 (Pt 100 400) (Pt 100 200) (Pt 700 410) (Pt 700 205)) p1 p2 = Some w ->
      (exists ppm, pixelsPerMeter (calibrated scenario0 (Pt 100 400) (Pt 100 200) (Pt 700 410) (Pt 700 205)) = Some ppm /\ (0 <? ppm) = true) /\
      (w <? 0) = false).
Proof.
  apply (calibrated_scale_positive scenario0). reflexivity.
Defined.

(** * A top line that is not a line *)

(** With a slope that is not finite no point has a finite offset. *)
Lemma offset_not_finite (st : state) (tl : line) (x y a : float) :
  topLine st = Some tl -> JS.isFinite (m tl) = false ->
  metersAboveNetAtPoint st x y = Some a -> JS.isFinite a = false.
Proof.
  intros Ht Hm. unfold metersAboveNetAtPoint. rewrite Ht.
  destruct (pixelsPerMeter st) as [ppm|]; [|discriminate].
  destruct (JS.falsy (Some ppm)); [discriminate|].
  intros H. injection H as <-. unfold JS.isFinite in *.
  now apply Float64.div_not_finite, Float64.sub_not_finite, Float64.add_not_finite,
    Float64.mul_not_finite.
Qed.

(** The peak loop over points without a finite offset never reaches a
    finite value. *)
Lemma peak_loop_not_finite (st : state) (ps : list click) :
  (forall p a, metersAboveNetAtPoint st (cx p) (cy p) = Some a ->
               JS.isFinite a = false) ->
  forall acc, JS.isFinite acc = false ->
  JS.isFinite (fold_left (peak_step st) ps acc) = false.
Proof.
  intros Hoff. induction ps as [|p ps IH]; intros acc Hacc; [exact Hacc|].
  cbn [fold_left]. apply IH. unfold peak_step.
  destruct (metersAboveNetAtPoint st (cx p) (cy p)) as [a|] eqn:E;
    [|exact Hacc].
  destruct (acc <? a); [now apply (Hoff p) | exact Hacc].
Qed.

Lemma computeRepMetrics_no_heights (st : state) (r : rep) :
  (forall p a, metersAboveNetAtPoint st (cx p) (cy p) = Some a ->
               JS.isFinite a = false) ->
  peakM (computeRepMetrics st r) = None /\
  aboveNetCM (computeRepMetrics st r) = None.
Proof.
  intros Hoff. unfold computeRepMetrics.
  destruct (points r) as [|p0 [|p1 ps]]; try (split; reflexivity).
  unfold peak_loop.
  rewrite (peak_loop_not_finite st (p0 :: p1 :: ps) Hoff neg_infinity eq_refl).
  split; reflexivity.
Qed.

(** X2: when the two top calibration points have the same x (LT.x == RT.x),
    [finalizeCalibration] stores a model under which [computeAllRepMetrics]
    leaves peakM and aboveNetCM null for every rep, whatever its points. *)
Theorem vertical_top_line_no_heights (st : state) (lb lt rb rt : point) :
  LB (calibPts st) = Some lb -> LT (calibPts st) = Some lt ->
  RB (calibPts st) = Some rb -> RT (calibPts st) = Some rt ->
  (x lt =? x rt) = true ->
  exists st',
    finalizeCalibration st = Some st' /\
    forall (rs : list rep) (r : rep),
      In r (trails (computeAllRepMetrics
                      (State (calibPts st') (pixelsPerMeter st')
                             (topLine st') rs))) ->
      peakM r = None /\ aboveNetCM r = None.
Proof.
  intros HLB HLT HRB HRT He.
  exists (calibrated st lb lt rb rt).
  split; [now apply finalizeCalibration_eq|].
  intros rs r Hr. cbn [computeAllRepMetrics trails] in Hr.
  apply in_map_iff in Hr. destruct Hr as (r0 & <- & _).
  apply computeRepMetrics_no_heights. intros p a.
  apply (offset_not_finite _ (Line ((y rt - y lt) / (x rt - x lt))
                                   (y lt - (y rt - y lt) / (x rt - x lt) * x lt)));
    [reflexivity|].
  cbn [m]. apply B64.div_sub_eqb_not_finite.
  rewrite eqb_spec in *. unfold SFeqb in *.
  destruct (Prim2SF (x lt)) as [s1|s1| |s1 m1 e1],
           (Prim2SF (x rt)) as [s2|s2| |s2 m2 e2];
    simpl in *; try discriminate; try reflexivity; B64.sf_order.
Qed.

Lemma vertical_top_line_no_heights_witness :
  exists st',
    finalizeCalibration (State vertical_pts None None []) = Some st' /\
    forall (rs : list rep) (r : rep),
      In r (trails (computeAllRepMetrics
                      (State (calibPts st') (pixelsPerMeter st')
                             (topLine st') rs))) ->
      peakM r = None /\ aboveNetCM r = None.
Proof.
  apply (vertical_top_line_no_heights (State vertical_pts None None [])
           (Pt 100 400) (Pt 100 200) (Pt 100 410) (Pt 100 205));
    reflexivity.
Defined.

(** * A level top line *)

(** X3: when the two top calibration points are at the same height (LT.y ==
    RT.y, finite and above 0) and at different finite x, the vertical offset
    the converter returns for a point at any finite x is (LT.y - y) /
    pixelsPerMeter: it does not depend on x. *)
Theorem level_top_line (st : state) (lb lt rb rt : point) :
  LB (calibPts st) = Some lb -> LT (calibPts st) = Some lt ->
  RB (calibPts st) = Some rb -> RT (calibPts st) = Some rt ->
  JS.isFinite (x lt) = true -> JS.isFinite (x rt) = true ->
  (x lt =? x rt) = false ->
  JS.isFinite (y lt) = true -> (0 <? y lt) = true -> (y lt =? y rt) = true ->
  exists st',
    finalizeCalibration st = Some st' /\
    forall u v a,
      JS.isFinite u = true ->
      metersAboveNetAtPoint st' u v = Some a ->
      exists ppm,
        pixelsPerMeter st' = Some ppm /\ a = (y lt - v) / ppm.
Proof.
  intros HLB HLT HRB HRT Fxl Fxr Hx Fy Py Hy. unfold JS.isFinite in *.
  exists (calibrated st lb lt rb rt).
  split; [now apply finalizeCalibration_eq|].
  intros u v a Fu. unfold metersAboveNetAtPoint, calibrated.
  cbn [pixelsPerMeter topLine m b].
  destruct (JS.falsy _); [discriminate|].
  intros H. injection H as <-. eexists. split; [reflexivity|].
  rewrite <- (eqb_positive _ _ Py Hy).
  rewrite (Order64.sub_self _ Fy).
  destruct (sub_different _ _ Fxl Fxr Hx) as [Hz Hn].
  pose proof (zero_div_number _ Hz Hn) as Hm.
  rewrite (positive_sub_zero (y lt)) by (try apply zero_mul_finite; assumption).
  rewrite (zero_add_positive _ (y lt)) by (try apply zero_mul_finite; assumption).
  reflexivity.
Qed.

Lemma level_top_line_witness :
  exists st',
    finalizeCalibration (State level_pts None None []) = Some st' /\
    forall u v a,
      JS.isFinite u = true ->
      metersAboveNetAtPoint st' u v = Some a ->
      exists ppm,
        pixelsPerMeter st' = Some ppm /\ a = (200 - v) / ppm.
Proof.
  apply (level_top_line (State level_pts None None [])
           (Pt 100 400) (Pt 100 200) (Pt 700 400) (Pt 700 200));
    reflexivity.
Defined.

(** * The metrics pass run again *)

(** The metrics of a rep depend on the state through the model only. *)
Lemma computeRepMetrics_model_only (st st' : state) (r : rep) :
  pixelsPerMeter st' = pixelsPerMeter st -> topLine st' = topLine st ->
  computeRepMetrics st' r = computeRepMetrics st r.
Proof.
  intros Hp Ht.
  assert (Hoff : forall u v,
             metersAboveNetAtPoint st' u v = metersAboveNetAtPoint st u v)
    by (intros; unfold metersAboveNetAtPoint; now rewrite Hp, Ht).
  assert (Hw : forall p q,
             metersHorizDistance st' p q = metersHorizDistance st p q)
    by (intros; unfold metersHorizDistance; now rewrite Hp).
  assert (Hpk : forall ps acc,
             fold_left (peak_step st') ps acc = fold_left (peak_step st) ps acc).
  { induction ps as [|p ps IH]; intros acc; [reflexivity|].
    cbn [fold_left]. rewrite IH. unfold peak_step. now rewrite Hoff. }
  unfold computeRepMetrics, peak_loop.
  destruct (points r) as [|p0 [|p1 ps]]; try reflexivity.
  now rewrite Hpk, Hw.
Qed.

(** The metrics of a rep that already has its metrics. *)
Lemma computeRepMetrics_again (st : state) (r : rep) :
  computeRepMetrics st (computeRepMetrics st r) = computeRepMetrics st r.
Proof.
  unfold computeRepMetrics at 1.
  destruct (computeRepMetrics_points st r) as [-> ->].
  unfold computeRepMetrics.
  destruct (points r) as [|p0 [|p1 ps]]; reflexivity.
Qed.

(** The pass over reps that have been through it, under the same model. *)
Lemma map_computeRepMetrics_again (st st' : state) (rs : list rep) :
  pixelsPerMeter st' = pixelsPerMeter st -> topLine st' = topLine st ->
  map (computeRepMetrics st') (map (computeRepMetrics st) rs) =
  map (computeRepMetrics st) rs.
Proof.
  intros Hp Ht. rewrite map_map. apply map_ext. intros r.
  rewrite (computeRepMetrics_model_only st st') by assumption.
  apply computeRepMetrics_again.
Qed.

(** X4: [computeAllRepMetrics] is idempotent: run on its own result it
    changes nothing (the metrics are computed from the points and the model
    only, and both are left as they were). *)
Theorem computeAllRepMetrics_idempotent (st : state) :
  computeAllRepMetrics (computeAllRepMetrics st) = computeAllRepMetrics st.
Proof.
  unfold computeAllRepMetrics at 1 3.
  cbn [calibPts pixelsPerMeter topLine trails computeAllRepMetrics].
  f_equal. now apply map_computeRepMetrics_again.
Qed.

(** * The peak and the order of the clicks *)

(** The peak loop, whatever the offsets: its result is not NaN, it is the
    entry value or the offset of a point, and no offset that is a number
    is above it. *)
Lemma peak_loop_bound (st : state) (ps : list click) :
  forall acc,
    is_nan acc = false ->
    let R := fold_left (peak_step st) ps acc in
    is_nan R = false /\
    (R = acc \/
     exists p, In p ps /\ metersAboveNetAtPoint st (cx p) (cy p) = Some R) /\
    (acc <=? R) = true /\
    forall p v, In p ps -> metersAboveNetAtPoint st (cx p) (cy p) = Some v ->
                is_nan v = false -> (v <=? R) = true.
Proof.
  induction ps as [|p ps IH]; intros acc Hacc; cbn [fold_left].
  - repeat split; [exact Hacc | now left | now apply B64.leb_refl |].
    intros p v [].
  - assert (Hstep : is_nan (peak_step st acc p) = false /\
                    (acc <=? peak_step st acc p) = true /\
                    (peak_step st acc p = acc \/
                     metersAboveNetAtPoint st (cx p) (cy p)
                       = Some (peak_step st acc p)) /\
                    forall v, metersAboveNetAtPoint st (cx p) (cy p) = Some v ->
                              is_nan v = false ->
                              (v <=? peak_step st acc p) = true).
    { unfold peak_step.
      destruct (metersAboveNetAtPoint st (cx p) (cy p)) as [a|] eqn:E.
      - destruct (acc <? a) eqn:Elt.
        + destruct (Order64.ltb_not_nan _ _ Elt) as [_ Ha].
          repeat split; [exact Ha | now apply B64.ltb_leb | now right |].
          intros v Hv _. injection Hv as <-. now apply B64.leb_refl.
        + repeat split; [exact Hacc | now apply B64.leb_refl | now left |].
          intros v Hv Hn. injection Hv as <-. now apply B64.ltb_false_leb.
      - repeat split; [exact Hacc | now apply B64.leb_refl | now left |].
        intros v Hv. discriminate. }
    destruct Hstep as (Hn & Hle & Hin & Hall).
    destruct (IH _ Hn) as (IH1 & IH2 & IH3 & IH4).
    repeat split.
    + exact IH1.
    + destruct IH2 as [IH2|(q & Hq & Eq)].
      * rewrite IH2. destruct Hin as [Hin|Hin]; [now left|].
        right. exists p. split; [now left | exact Hin].
      * right. exists q. split; [now right | exact Eq].
    + eapply B64.leb_trans; eassumption.
    + intros q v [<-|Hq] Hv Hvn.
      * eapply B64.leb_trans; [now apply Hall | exact IH3].
      * now apply (IH4 q).
Qed.

(** The peaks of two lists with the same points agree, up to the sign of
    a zero. *)
Lemma peak_loop_perm (st : state) (ps ps' : list click) :
  Permutation ps ps' ->
  peak_loop st ps' = peak_loop st ps \/
  (is_zero (peak_loop st ps') = true /\ is_zero (peak_loop st ps) = true).
Proof.
  intros Hperm. unfold peak_loop.
  destruct (peak_loop_bound st ps neg_infinity eq_refl) as (N1 & I1 & _ & A1).
  destruct (peak_loop_bound st ps' neg_infinity eq_refl) as (N2 & I2 & _ & A2).
  cbv zeta in *.
  set (R := fold_left (peak_step st) ps neg_infinity) in *.
  set (R' := fold_left (peak_step st) ps' neg_infinity) in *.
  apply leb_antisym.
  - destruct I2 as [->|(p & Hp & Ep)]; [now apply neg_infinity_leb|].
    apply (A1 p); [|exact Ep | exact N2].
    apply (Permutation_in p (Permutation_sym Hperm) Hp).
  - destruct I1 as [->|(p & Hp & Ep)]; [now apply neg_infinity_leb|].
    apply (A2 p); [|exact Ep | exact N1].
    apply (Permutation_in p Hperm Hp).
Qed.

Lemma net_height_add_zero (u : float) :
  is_zero u = true -> NET_HEIGHT_M + u = NET_HEIGHT_M.
Proof.
  rewrite B64.is_zero_spec. intros H. apply Prim2SF_inj. rewrite add_spec.
  destruct (Prim2SF u); try discriminate. reflexivity.
Qed.

Lemma round_times_100_zero (u : float) :
  is_zero u = true -> is_zero (JS.Math_round (u * 100)) = true.
Proof.
  intros H.
  assert (Hz : is_zero (u * 100) = true).
  { rewrite B64.is_zero_spec in *. rewrite mul_spec.
    destruct (Prim2SF u); try discriminate. reflexivity. }
  unfold JS.Math_round. rewrite B64.is_zero_spec in Hz.
  destruct (Prim2SF (u * 100)) eqn:E; try discriminate.
  rewrite B64.is_zero_spec, E. reflexivity.
Qed.

(** X5: the peak does not depend on the order of the clicks: two reps with
    the same points in any order get the same peakM, and the same aboveNetCM
    unless both are zeros (a peak exactly on the tape can come out as 0 or
    -0). *)
Theorem peak_order_independent (st : state) (r r' : rep) :
  Permutation (points r) (points r') ->
  peakM (computeRepMetrics st r') = peakM (computeRepMetrics st r) /\
  (aboveNetCM (computeRepMetrics st r') = aboveNetCM (computeRepMetrics st r) \/
   exists u v,
     aboveNetCM (computeRepMetrics st r') = Some u /\
     aboveNetCM (computeRepMetrics st r) = Some v /\
     is_zero u = true /\ is_zero v = true).
Proof.
  intros Hperm. pose proof (Permutation_length Hperm) as Hlen.
  pose proof (peak_loop_perm st _ _ Hperm) as Hpk.
  unfold computeRepMetrics.
  destruct (points r) as [|p0 [|p1 ps]] eqn:E;
    destruct (points r') as [|q0 [|q1 qs]] eqn:E'; try discriminate Hlen;
    try (split; [reflexivity | now left]).
  destruct Hpk as [->|[Hz' Hz]].
  - destruct (negb _); split; try reflexivity; now left.
  - unfold JS.isFinite. rewrite (zero_finite _ Hz), (zero_finite _ Hz').
    cbn [negb peakM aboveNetCM]. split.
    + now rewrite !net_height_add_zero.
    + right. eexists. eexists. split; [reflexivity|]. split; [reflexivity|].
      split; now apply round_times_100_zero.
Qed.

Lemma peak_order_independent_witness :
  peakM (computeRepMetrics (scenario_model []) (reversed rep_right)) =
    peakM (computeRepMetrics (scenario_model []) rep_right) /\
  (aboveNetCM (computeRepMetrics (scenario_model []) (reversed rep_right)) =
     aboveNetCM (computeRepMetrics (scenario_model []) rep_right) \/
   exists u v,
     aboveNetCM (computeRepMetrics (scenario_model []) (reversed rep_right))
       = Some u /\
     aboveNetCM (computeRepMetrics (scenario_model []) rep_right) = Some v /\
     is_zero u = true /\ is_zero v = true).
Proof.
  apply (peak_order_independent (scenario_model []) rep_right (reversed rep_right)).
  apply Permutation_rev.
Defined.

(** * A rep clicked in the opposite order *)

Lemma metersHorizDistance_sym (st : state) (p1 p2 : click) :
  metersHorizDistance st p1 p2 = metersHorizDistance st p2 p1.
Proof.
  unfold metersHorizDistance. now rewrite Float64.abs_sub_sym.
Qed.

Lemma direction_of_swap (p1 p2 : click) :
  direction_of p2 p1 = opposite (direction_of p1 p2).
Proof.
  unfold direction_of.
  destruct (cx p1 <? cx p2) eqn:E1, (cx p2 <? cx p1) eqn:E2; try reflexivity.
  apply B64.ltb_leb, B64.leb_not_ltb in E1. congruence.
Qed.

Lemma last_rev_hd (p0 : click) (ps : list click) (d : click) :
  last (rev (p0 :: ps)) d = p0.
Proof. cbn [rev]. apply last_last. Qed.

Lemma hd_rev_last (ps : list click) (d : click) :
  ps <> [] -> hd_error (rev ps) = Some (last ps d).
Proof.
  intros Hne. rewrite (app_removelast_last d Hne) at 1.
  rewrite rev_app_distr. reflexivity.
Qed.

(** X6: a rep with at least two points and the rep with the same clicks in
    the opposite order get the same widthM and opposite arrows (the dot
    stays a dot). *)
Theorem reversed_rep_width_direction (st : state) (r : rep) :
  (2 <= length (points r))%nat ->
  widthM (computeRepMetrics st (reversed r)) = widthM (computeRepMetrics st r) /\
  direction (computeRepMetrics st (reversed r)) =
    option_map opposite (direction (computeRepMetrics st r)).
Proof.
  intros Hlen.
  destruct (two_points _ Hlen) as (p0 & p1 & rest & E).
  assert (Hlen' : (2 <= length (points (reversed r)))%nat)
    by (cbn [reversed points]; now rewrite length_rev).
  assert (Hhd : hd_error (points r) = Some p0) by now rewrite E.
  assert (Hhd' : hd_error (points (reversed r)) = Some (last (points r) p0)).
  { cbn [reversed points]. apply hd_rev_last. now rewrite E. }
  destruct (computeRepMetrics_width st r p0 Hlen Hhd) as [-> ->].
  destruct (computeRepMetrics_width st (reversed r) _ Hlen' Hhd') as [-> ->].
  assert (Hlast : last (points (reversed r)) (last (points r) p0) = p0).
  { cbn [reversed points]. rewrite E at 1. apply last_rev_hd. }
  rewrite Hlast. split.
  - apply metersHorizDistance_sym.
  - cbn [option_map]. now rewrite direction_of_swap.
Qed.

Lemma reversed_rep_width_direction_witness :
  widthM (computeRepMetrics (scenario_model []) (reversed rep_right)) =
    widthM (computeRepMetrics (scenario_model []) rep_right) /\
  direction (computeRepMetrics (scenario_model []) (reversed rep_right)) =
    option_map opposite (direction (computeRepMetrics (scenario_model []) rep_right)).
Proof.
  apply (reversed_rep_width_direction (scenario_model []) rep_right).
  simpl. lia.
Defined.

(** * The two height fields of a rep *)

(** [Math.round] keeps the sign bit. *)
Lemma Math_round_sign (s : bool) (v : float) :
  has_sign s (Prim2SF v) -> has_sign s (Prim2SF (JS.Math_round v)).
Proof.
  intros Hs. unfold JS.Math_round.
  destruct (Prim2SF v) as [s0|s0| |s0 mv e] eqn:E;
    try (rewrite E; exact Hs).
  cbn [has_sign] in Hs. subst s0.
  destruct (0 <=? e)%Z eqn:Ee; [rewrite E; reflexivity|].
  apply Z.leb_gt in Ee.
  set (k := (2 ^ (- e))%Z).
  assert (Hk : (0 < k)%Z) by (apply Z.pow_pos_nonneg; lia).
  set (n := ((2 * cond_Zopp s (Z.pos mv) + k) / (2 * k))%Z).
  assert (Hsign : (if s then n <= 0 else 0 <= n)%Z).
  { unfold n. destruct s; cbn [cond_Zopp].
    - assert ((2 * - Z.pos mv + k) / (2 * k) < 1)%Z; [|lia].
      apply Z.div_lt_upper_bound; lia.
    - apply Z.div_pos; lia. }
  destruct (Z.eqb_spec n 0) as [En|En].
  - destruct s; reflexivity.
  - replace (n <? 0)%Z with s.
    2:{ destruct s; symmetry; [apply Z.ltb_lt | apply Z.ltb_ge]; lia. }
    unfold JS.of_int. destruct s.
    + apply (opp_sign false), of_uint63_sign.
    + apply of_uint63_sign.
Qed.

(** X21: the two height fields of a rep agree about the side of the tape:
    when aboveNetCM is above 0 then peakM is not below the net height, and
    when aboveNetCM is below 0 then peakM is not above the net height. *)
Theorem height_fields_agree (st : state) (r : rep) (pk cm : float) :
  peakM (computeRepMetrics st r) = Some pk ->
  aboveNetCM (computeRepMetrics st r) = Some cm ->
  ((0 <? cm) = true -> (NET_HEIGHT_M <=? pk) = true) /\
  ((cm <? 0) = true -> (pk <=? NET_HEIGHT_M) = true).
Proof.
  unfold computeRepMetrics.
  destruct (points r) as [|p0 [|p1 ps]]; try discriminate.
  set (a := peak_loop st (p0 :: p1 :: ps)).
  destruct (JS.isFinite a) eqn:Fa; cbn [negb peakM aboveNetCM];
    [|discriminate].
  intros H1 H2. injection H1 as <-. injection H2 as <-.
  unfold JS.isFinite in Fa.
  pose proof (B64.finite_not_nan _ Fa) as Na.
  split; intros Hc.
  - (* the peak offset is not below 0 *)
    assert (Hge : (0 <=? a) = true).
    { apply B64.ltb_false_leb; try assumption; try reflexivity.
      destruct (a <? 0) eqn:Elt; [|reflexivity]. exfalso.
      pose proof (below_zero_sign _ Elt) as Hs.
      assert (Hm : has_sign true (Prim2SF (a * 100))).
      { rewrite mul_spec. now apply SFmul_sign. }
      pose proof (Math_round_sign true _ Hm) as Hr.
      rewrite (negative_not_above_zero _ Hr) in Hc. discriminate. }
    rewrite <- (add_zero_r NET_HEIGHT_M) at 1 by reflexivity.
    apply add_mono; try assumption; reflexivity.
  - assert (Hle : (a <=? 0) = true).
    { apply B64.ltb_false_leb; try assumption; try reflexivity.
      destruct (0 <? a) eqn:Egt; [|reflexivity]. exfalso.
      pose proof (above_zero_sign _ Egt) as Hs.
      assert (Hm : has_sign false (Prim2SF (a * 100))).
      { rewrite mul_spec. now apply SFmul_sign. }
      pose proof (Math_round_sign false _ Hm) as Hr.
      rewrite (not_negative_ltb _ Hr) in Hc. discriminate. }
    rewrite <- (add_zero_r NET_HEIGHT_M) at 2 by reflexivity.
    apply add_mono; try assumption; reflexivity.
Qed.

Lemma height_fields_agree_witness :
  ((0 <? 63) = true -> (NET_HEIGHT_M <=? 3.0600000000000001) = true) /\
  ((63 <? 0) = true -> (3.0600000000000001 <=? NET_HEIGHT_M) = true).
Proof.
  apply (height_fields_agree (scenario_model []) rep_right
           3.0600000000000001 63); vm_compute; reflexivity.
Defined.

(** * A rep drawn as a dot *)

(** X22: under a usable scale, a rep whose first and last clicks have finite
    x and whose arrow is the dot has a width that is zero (0 or -0). *)
Theorem dot_rep_no_width (st : state) (r : rep) (first : click) :
  JS.falsy (pixelsPerMeter st) = false ->
  hd_error (points r) = Some first ->
  is_finite (cx first) = true ->
  is_finite (cx (last (points r) first)) = true ->
  direction (computeRepMetrics st r) = Some Neutral ->
  exists w, widthM (computeRepMetrics st r) = Some w /\ is_zero w = true.
Proof.
  intros Hppm Hhd F1 F2 Hdir.
  assert (Hlen : (2 <= length (points r))%nat).
  { revert Hdir. unfold computeRepMetrics.
    destruct (points r) as [|p0 [|p1 ps]]; try discriminate.
    intros _. simpl. lia. }
  destruct (computeRepMetrics_width st r first Hlen Hhd) as [Hw Hd].
  rewrite Hd in Hdir. injection Hdir as Hdir. rewrite Hw.
  unfold metersHorizDistance.
  destruct (pixelsPerMeter st) as [ppm|]; [|discriminate].
  rewrite Hppm. eexists; split; [reflexivity|].
  set (l := last (points r) first) in *.
  unfold direction_of in Hdir.
  destruct (cx first <? cx l) eqn:E1; [discriminate|].
  destruct (cx l <? cx first) eqn:E2; [discriminate|].
  rewrite (B64.abs_sub_eqb _ _ F2).
  - cbn [JS.falsy] in Hppm. apply orb_false_elim in Hppm as [Hz Hn].
    now apply zero_div_number.
  - apply not_ltb_eqb; auto using B64.finite_not_nan.
Qed.

Lemma dot_rep_no_width_witness :
  exists w, widthM (computeRepMetrics (scenario_model []) rep_dot) = Some w /\
            is_zero w = true.
Proof.
  apply (dot_rep_no_width (scenario_model []) rep_dot (Click 300 400 1));
    reflexivity.
Defined.

(** * A session without a usable scale *)

(** Without a usable scale no rep gets a peak or a width. *)
Lemma computeRepMetrics_falsy (st : state) (r : rep) :
  JS.falsy (pixelsPerMeter st) = true ->
  peakM (computeRepMetrics st r) = None /\
  aboveNetCM (computeRepMetrics st r) = None /\
  widthM (computeRepMetrics st r) = None.
Proof.
  intros Hf. unfold computeRepMetrics.
  destruct (points r) as [|p0 [|p1 ps]]; try (repeat split; reflexivity).
  unfold peak_loop. rewrite peak_loop_no_offset
    by (intros; now apply metersAboveNetAtPoint_falsy).
  rewrite metersHorizDistance_falsy by exact Hf.
  repeat split; reflexivity.
Qed.

(** Reps without peak and width leave the accumulators of the stats loop
    alone. *)
Lemma stats_loop_nothing (rs : list rep) :
  (forall r, In r rs -> peakM r = None /\ widthM r = None) ->
  forall i a, stats_loop i rs a = a.
Proof.
  induction rs as [|r rs IH]; intros H i a; [reflexivity|].
  cbn [stats_loop]. rewrite IH by (intros r' Hr'; apply H; now right).
  unfold stats_step. destruct (H r (or_introl eq_refl)) as [-> ->].
  reflexivity.
Qed.

(** X7: when pixelsPerMeter is null, 0 or NaN, [computeAllRepMetrics] leaves
    peakM, aboveNetCM and widthM null on every rep, and the stats table that
    follows has no highest peak and no averages. *)
Theorem falsy_scale_empty_summary (st : state) :
  JS.falsy (pixelsPerMeter st) = true ->
  (forall r, In r (trails (computeAllRepMetrics st)) ->
             peakM r = None /\ aboveNetCM r = None /\ widthM r = None) /\
  renderStatsTable (computeAllRepMetrics st) = Summary None None None.
Proof.
  intros Hf.
  assert (Hall : forall r, In r (trails (computeAllRepMetrics st)) ->
                   peakM r = None /\ aboveNetCM r = None /\ widthM r = None).
  { intros r Hr. cbn [computeAllRepMetrics trails] in Hr.
    apply in_map_iff in Hr. destruct Hr as (r0 & <- & _).
    now apply computeRepMetrics_falsy. }
  split; [exact Hall|].
  unfold renderStatsTable. rewrite stats_loop_nothing; [reflexivity|].
  intros r Hr. destruct (Hall r Hr) as (H1 & _ & H3). now split.
Qed.

Lemma falsy_scale_empty_summary_witness :
  (forall r, In r (trails (computeAllRepMetrics (flat_model [rep_right])))  ->
             peakM r = None /\ aboveNetCM r = None /\ widthM r = None) /\
  renderStatsTable (computeAllRepMetrics (flat_model [rep_right]))
  = Summary None None None.
Proof.
  apply (falsy_scale_empty_summary (flat_model [rep_right])). reflexivity.
Defined.

(** * The session *)

(** Reading a field of a state a handler has written. *)
Ltac app_simpl :=
  cbn [core ready warmed started current showAllAtEnd showTrails calibStep
       statsVisible paletteIdx statsDisplay statsHtml buttonsShown
       toggleLabel primeTimers sent
       set_core set_ready set_warmed set_started set_current
       set_showAllAtEnd set_showTrails set_calibStep set_statsVisible
       set_paletteIdx set_statsDisplay set_statsHtml set_buttonsShown
       set_toggleLabel set_primeTimers set_sent set_trails set_calibPts send
       calibPts pixelsPerMeter topLine trails
       LB LT RB RT points color peakM aboveNetCM widthM direction
       push_point pop_point] in *.

(** ** The palette *)

Lemma palette_index (r : Z) :
  (0 <= r < 7)%Z -> exists c, P5.index PALETTE r = Some c /\ In c PALETTE.
Proof.
  intros Hr. unfold P5.index.
  destruct (Z.ltb_spec r 0); [lia|].
  assert (Hn : (Z.to_nat r < 7)%nat) by lia.
  destruct (Z.to_nat r) as [|[|[|[|[|[|[|n]]]]]]]; try lia;
    eexists; (split; [reflexivity|]); cbn; tauto.
Qed.

Lemma palette_rem (i : Z) :
  (0 <= i)%Z -> (0 <= Z.rem i (Z.of_nat (length PALETTE)) < 7)%Z.
Proof.
  intros Hi. change (Z.of_nat (length PALETTE)) with 7%Z.
  rewrite Z.rem_mod_nonneg by lia. apply Z.mod_pos_bound. lia.
Qed.

Lemma nextColour_some (i : Z) :
  (0 <= i)%Z -> exists c, fst (nextColour i) = Some c /\ In c PALETTE.
Proof.
  intros Hi. unfold nextColour. cbn [fst].
  apply palette_index, palette_rem, Hi.
Qed.

Lemma incr_bounds (i : Z) :
  (0 <= i <= 2 ^ 53)%Z ->
  (1 <= P5.incr i <= 2 ^ 53)%Z /\ ((i < 2 ^ 53)%Z -> P5.incr i = (i + 1)%Z).
Proof.
  intros Hi. unfold P5.incr. destruct (Z.ltb_spec i (2 ^ 53)); lia.
Qed.

(** The palette has no colour twice. *)
Lemma palette_index_inj (r1 r2 : Z) :
  (0 <= r1 < 7)%Z -> (0 <= r2 < 7)%Z ->
  P5.index PALETTE r1 = P5.index PALETTE r2 -> r1 = r2.
Proof.
  intros H1 H2. unfold P5.index.
  destruct (Z.ltb_spec r1 0); [lia|]. destruct (Z.ltb_spec r2 0); [lia|].
  intros E. apply Z2Nat.inj; try lia.
  assert (N1 : (Z.to_nat r1 < 7)%nat) by lia.
  assert (N2 : (Z.to_nat r2 < 7)%nat) by lia.
  destruct (Z.to_nat r1) as [|[|[|[|[|[|[|n1]]]]]]]; try lia;
    destruct (Z.to_nat r2) as [|[|[|[|[|[|[|n2]]]]]]]; try lia;
    try reflexivity; discriminate E.
Qed.

(** [current = { points: [], color: nextColour() }] with a counter that is
    not negative. *)
Lemma startRep_some (a : sketch) :
  (0 <= paletteIdx a)%Z ->
  exists c,
    fst (nextColour (paletteIdx a)) = Some c /\ In c PALETTE /\
    startRep a =
      Some (a |> set_paletteIdx (P5.incr (paletteIdx a))
              |> set_current (Rep [] c None None None None)).
Proof.
  intros Hi. destruct (nextColour_some _ Hi) as (c & Hc & Hin).
  exists c. split; [exact Hc|]. split; [exact Hin|].
  unfold startRep. destruct (nextColour (paletteIdx a)) as [o i] eqn:E.
  cbn [fst] in Hc. subst o. f_equal. unfold nextColour in E.
  injection E as _ <-. reflexivity.
Qed.

Lemma palette_next (i : Z) (c : list Z) :
  (1 <= i <= 2 ^ 53)%Z -> fst (nextColour i) = Some c ->
  (1 <= P5.incr i <= 2 ^ 53)%Z /\
  ((P5.incr i < 2 ^ 53)%Z -> fst (nextColour (P5.incr i - 1)) = Some c).
Proof.
  intros Hi Hc. destruct (incr_bounds i ltac:(lia)) as [Hb Hn].
  split; [exact Hb|]. intros Hlt.
  assert (i < 2 ^ 53)%Z.
  { unfold P5.incr in Hlt. destruct (Z.ltb_spec i (2 ^ 53)); lia. }
  rewrite Hn by assumption.
  now replace (i + 1 - 1)%Z with i by lia.
Qed.

(** ** The invariant is kept by every handler *)

Lemma shows_app (s : summary) (rs rs' : list rep) :
  shows s rs -> shows s (rs ++ rs').
Proof.
  intros (n & Hn & ->). exists n. split.
  - rewrite length_app. lia.
  - rewrite firstn_app. replace (n - length rs)%nat with 0%nat by lia.
    cbn [firstn]. now rewrite app_nil_r.
Qed.

Lemma closed_ok_model (st st' : state) (r : rep) :
  pixelsPerMeter st' = pixelsPerMeter st -> topLine st' = topLine st ->
  closed_ok st r -> closed_ok st' r.
Proof.
  intros Hp Ht (H1 & H2 & H3). repeat split; try assumption.
  destruct H3 as [H3|H3]; [now left | right].
  now rewrite (computeRepMetrics_model_only st st').
Qed.

(** The fields of [inv] after a handler, from the fields before it. *)
Ltac inv_prep :=
  repeat match goal with
  | H : _ /\ _ |- _ => destruct H
  | H : ?P -> _ |- _ =>
      let X := fresh in
      assert (X : P) by solve [reflexivity | assumption | lia | congruence];
      specialize (H X); clear X
  end.

Ltac inv_trails :=
  match goal with
  | H : trails ?st = [] |- forall r, In r _ -> closed_ok _ r =>
      let r := fresh "r" in intros r; rewrite ?H; intros []
  | H6 : (forall r, In r (trails ?st) -> closed_ok ?st r)
    |- forall r, In r _ -> closed_ok _ r =>
      let r := fresh "r" in
      let Hr := fresh "Hr" in
      intros r Hr; apply (closed_ok_model st);
      [reflexivity | reflexivity | apply H6; exact Hr]
  end.

Ltac inv_go :=
  intros; app_simpl; inv_prep;
  first [ solve [assumption | lia | congruence | reflexivity | contradiction]
        | split; inv_go ].

Ltac inv_table :=
  match goal with
  | H : (forall s, statsHtml _ = Some s -> shows s _)
    |- forall s, _ -> shows s _ => exact H
  | |- forall s, None = Some s -> _ => intros ? ?; discriminate
  end.

Ltac inv_field := first [ inv_trails | inv_table | solve [inv_go] ].

Ltac inv0_fields :=
  constructor; unfold calib_upto, no_metrics in *; app_simpl; try inv_field.

Ltac inv_fields :=
  split; [constructor|]; unfold calib_upto, no_metrics, buttons_ok in *;
  app_simpl; try inv_field.

Ltac inv0_split H := destruct H as [H1 H2 H3 H4 H5 H12 H6 H7 H8 H10 H11].

Ltac inv_split H := destruct H as [[H1 H2 H3 H4 H5 H12 H6 H7 H8 H10 H11] H9].

Lemma inv0_updateDashboard (a : sketch) : inv0 a -> inv (updateDashboard a).
Proof.
  intros H. inv0_split H. unfold updateDashboard.
  destruct (showAllAtEnd a) eqn:Es; cbn [andb];
    [destruct (Z.leb_spec 4 (calibStep a))|]; inv_fields.
Qed.

Lemma inv_primeVideo (a : sketch) : inv a -> inv (primeVideo a).
Proof.
  intros H. unfold primeVideo. destruct (warmed a); [exact H|].
  inv_split H. inv_fields.
Qed.

Lemma inv_draw (a : sketch) : inv a -> inv (draw a).
Proof.
  intros H. unfold draw. destruct (calibStep a <? 4)%Z.
  - destruct (negb (warmed a)); [now apply inv_primeVideo | exact H].
  - apply inv0_updateDashboard, H.
Qed.

Lemma inv_primeTimeout (a : sketch) : inv a -> inv (primeTimeout a).
Proof.
  intros H. unfold primeTimeout. apply inv_draw.
  inv_split H. inv_fields.
Qed.

Lemma inv0_startRep (a : sketch) :
  inv0 a ->
  exists a', startRep a = Some a' /\ inv0 a' /\ core a' = core a /\
             points (current a') = [].
Proof.
  intros H. inv0_split H.
  destruct (startRep_some a ltac:(lia)) as (c & Hc & Hin & ->).
  eexists. split; [reflexivity|]. app_simpl.
  split; [|split; reflexivity].
  inv0_fields. apply palette_next; [lia | exact Hc].
Qed.

Lemma modelled_finalize (st : state) (lb lt rb rt : point) :
  calibPts st = CalibPts (Some lb) (Some lt) (Some rb) (Some rt) ->
  exists st',
    finalizeCalibration st = Some st' /\ modelled st' /\
    calibPts st' = calibPts st /\ trails st' = trails st.
Proof.
  intros Hc. exists (calibrated st lb lt rb rt). split.
  - apply finalizeCalibration_eq; rewrite Hc; reflexivity.
  - split; [|split; reflexivity].
    exists lb, lt, rb, rt. repeat split. exact Hc.
Qed.

Lemma inv_mousePressed (mouseX mouseY : float) (env : video_env) (a : sketch) :
  inv a -> exists a', mousePressed mouseX mouseY env a = Some a' /\ inv a'.
Proof.
  intros H. unfold mousePressed.
  destruct (warmed a) eqn:Ew; cbn [negb];
    [|eexists; split; [reflexivity | now apply inv_primeVideo]].
  destruct (Z.ltb_spec (calibStep a) 4) as [Hlt|Hge].
  - (* a calibration click *)
    inv_split H.
    destruct (H3 Hlt) as (Hp & Ht & Htr & Hcur).
    destruct H2 as (P1 & P2 & P3 & P4).
    assert (Hb : buttonsShown a = false).
    { destruct (buttonsShown a) eqn:Eb; [|reflexivity].
      destruct (H9 Eb). lia. }
    assert (Hk : (calibStep a = 0 \/ calibStep a = 1 \/ calibStep a = 2 \/
                  calibStep a = 3)%Z) by lia.
    destruct Hk as [Hk|[Hk|[Hk|Hk]]]; rewrite Hk; cbn [Z.eqb Z.add Pos.eqb];
      app_simpl; rewrite ?Hk; cbn [Z.eqb Z.add Pos.eqb Pos.add Pos.succ].
    1-3: eexists; split; [reflexivity|]; inv_fields; rewrite ?Hk; inv_field.
    (* the fourth click *)
    destruct (LB (calibPts (core a))) as [lb|] eqn:ELB;
      [|exfalso; apply P1; [lia | reflexivity]].
    destruct (LT (calibPts (core a))) as [lt|] eqn:ELT;
      [|exfalso; apply P2; [lia | reflexivity]].
    destruct (RB (calibPts (core a))) as [rb|] eqn:ERB;
      [|exfalso; apply P3; [lia | reflexivity]].
    match goal with
    | |- context [finalizeCalibration ?st] =>
        destruct (modelled_finalize st lb lt rb (Pt mouseX mouseY) eq_refl)
          as (st' & -> & Hm & Hcp & Htr')
    end.
    cbn [calibPts trails] in Hcp, Htr'.
    eexists. split; [reflexivity|].
    inv_fields; rewrite ?Hcp, ?Htr'; cbn [LB LT RB RT]; try inv_field.
  - destruct (started a) eqn:Es; cbn [negb].
    + destruct (showAllAtEnd a) eqn:Ee;
        [eexists; split; [reflexivity | exact H]|].
      eexists. split; [reflexivity|]. inv_split H. inv_fields.
    + eexists. split; [reflexivity|]. inv_split H. inv_fields.
Qed.

(** The part shared by Replay, Enter and Restart. *)
Lemma inv0_hide (a : sketch) :
  inv0 a ->
  inv0 (a |> set_showAllAtEnd false |> set_showTrails false
          |> set_statsDisplay false).
Proof. intros H. inv0_split H. inv0_fields. Qed.

Lemma inv_replay (a : sketch) : inv a -> exists a', replay a = Some a' /\ inv a'.
Proof.
  intros [H _]. unfold replay.
  destruct (inv0_startRep _ (inv0_hide a H)) as (a1 & -> & H1 & _).
  eexists. split; [reflexivity|]. apply inv0_updateDashboard.
  inv0_split H1. inv0_fields.
Qed.

Lemma inv_restartVideoHidden (a : sketch) :
  inv a -> exists a', restartVideoHidden a = Some a' /\ inv a'.
Proof.
  intros [H _]. unfold restartVideoHidden.
  destruct (inv0_startRep _ (inv0_hide a H)) as (a1 & -> & H1 & _).
  eexists. split; [reflexivity|]. apply inv0_updateDashboard.
  inv0_split H1. inv0_fields.
Qed.

Lemma modelled_trails (st : state) (rs : list rep) :
  modelled st ->
  modelled (State (calibPts st) (pixelsPerMeter st) (topLine st) rs).
Proof.
  intros (lb & lt & rb & rt & Hc & Hp & Ht).
  exists lb, lt, rb, rt. repeat split; assumption.
Qed.

Lemma inv_reset (a : sketch) : inv a -> exists a', reset a = Some a' /\ inv a'.
Proof.
  intros [H _]. unfold reset. inv0_split H.
  destruct (startRep_some (a |> set_trails [])) as (c & Hc & Hin & ->);
    [app_simpl; lia|].
  eexists. split; [reflexivity|]. apply inv0_updateDashboard.
  app_simpl. inv0_fields.
  apply palette_next; [lia | exact Hc].
Qed.

Lemma inv_onended (a : sketch) : inv a -> inv (onended a).
Proof.
  intros [H _]. inv0_split H. unfold onended.
  apply inv0_updateDashboard. inv0_fields.
  - intros Hlt. destruct (H3 Hlt) as (Hp & Ht & Htr & Hcur).
    unfold computeAllRepMetrics. rewrite Htr. app_simpl.
    repeat split; assumption.
  - intros Hs. destruct (H12 Hs) as [Htr Hcur].
    unfold computeAllRepMetrics. rewrite Htr. app_simpl.
    split; [reflexivity | assumption].
  - intros r Hr. unfold computeAllRepMetrics in Hr. cbn [trails] in Hr.
    apply in_map_iff in Hr. destruct Hr as (r0 & <- & Hr0).
    destruct (H6 r0 Hr0) as (Hpts & Hcol & _).
    destruct (computeRepMetrics_points (core a) r0) as [Ep Ec].
    repeat split.
    + now rewrite Ep.
    + now rewrite Ec.
    + right.
      rewrite (computeRepMetrics_model_only (core a)) by reflexivity.
      apply computeRepMetrics_again.
  - intros s E. injection E as <-.
    exists (length (trails (computeAllRepMetrics (core a)))).
    split; [lia|]. rewrite firstn_all. reflexivity.
Qed.

Lemma inv_toggleTrails (a : sketch) : inv a -> inv (toggleTrails a).
Proof.
  intros [H _]. inv0_split H. unfold toggleTrails.
  apply inv0_updateDashboard. inv0_fields.
Qed.

Lemma inv_snapshot (a : sketch) : inv a -> inv (snapshot a).
Proof.
  intros H. unfold snapshot.
  assert (H0 : inv (a |> set_showTrails true))
    by (inv_split H; inv_fields).
  apply inv_draw in H0. inv_split H0. inv_fields.
Qed.

Lemma inv_toggleStats (a : sketch) : inv a -> inv (toggleStats a).
Proof.
  intros H. inv_split H. unfold toggleStats. inv_fields.
Qed.

Lemma inv_keyPressed (key : String.string) (keyCode : Z) (env : video_env)
    (a : sketch) :
  inv a -> exists a', keyPressed key keyCode env a = Some a' /\ inv a'.
Proof.
  intros H. unfold keyPressed.
  destruct (Z.ltb_spec (calibStep a) 4) as [Hlt|Hge]; [eauto|].
  destruct (String.eqb key " ").
  { eexists. split; [reflexivity|]. inv_split H. inv_fields. }
  destruct (String.eqb key "N" || String.eqb key "n").
  { assert (H0 : inv (if (0 <? length (points (current a)))%nat
                      then a |> set_trails (trails (core a) ++ [current a])
                      else a)).
    { destruct (Nat.ltb_spec 0 (length (points (current a)))) as [Hn|Hn];
        [|exact H].
      inv_split H. inv_fields.
      - intros Hs. destruct (H12 Hs) as [_ Hcur]. rewrite Hcur in Hn.
        simpl in Hn. lia.
      - intros r Hr. apply in_app_or in Hr. destruct Hr as [Hr|[<-|[]]].
        + apply (closed_ok_model (core a)); [reflexivity | reflexivity | auto].
        + destruct H7 as [Hc Hm]. repeat split; try assumption; [|now left].
          intros E. rewrite E in Hn. simpl in Hn. lia.
      - intros s Hs. now apply shows_app, H11. }
    destruct H0 as [H0 Hb0].
    destruct (inv0_startRep _ H0) as (a1 & Ha1 & H1 & _).
    exists a1. split; [exact Ha1|]. split; [exact H1|].
    unfold startRep in Ha1.
    destruct (nextColour _) as [[c|] i]; [|discriminate].
    injection Ha1 as <-. unfold buttons_ok in *. app_simpl. exact Hb0. }
  destruct (String.eqb key "Z" || String.eqb key "z").
  { eexists. split; [reflexivity|].
    destruct (0 <? length (points (current a)))%nat; [|exact H].
    inv_split H. inv_fields.
    intros Hs. destruct (H12 Hs) as [Htr Hcur]. now rewrite Hcur. }
  destruct (String.eqb key ",").
  { eexists. split; [reflexivity|].
    destruct (negb (showAllAtEnd a)); [|exact H].
    inv_split H. inv_fields. }
  destruct (String.eqb key ".").
  { eexists. split; [reflexivity|].
    destruct (negb (showAllAtEnd a)); [|exact H].
    inv_split H. inv_fields. }
  destruct (keyCode =? P5.ENTER)%Z; [now apply inv_replay|].
  destruct (String.eqb key "S" || String.eqb key "s");
    [now apply inv_restartVideoHidden|].
  destruct (String.eqb key "R" || String.eqb key "r");
    [now apply inv_reset|].
  eauto.
Qed.

Lemma inv_step_event (e : event) (a : sketch) :
  inv a -> exists a', step e a = Some a' /\ inv a'.
Proof.
  intros H. destruct e; cbn [step].
  - now apply inv_mousePressed.
  - now apply inv_keyPressed.
  - eauto using inv_draw.
  - destruct (primeTimers a) as [|n] eqn:E; [eauto|].
    eexists. split; [reflexivity|]. apply inv_primeTimeout.
    inv_split H. inv_fields.
  - eexists. split; [reflexivity|]. inv_split H. inv_fields.
  - eauto using inv_onended.
  - now apply inv_replay.
  - eauto using inv_toggleTrails.
  - eauto using inv_snapshot.
  - now apply inv_restartVideoHidden.
  - eauto using inv_toggleStats.
Qed.

Lemma inv_run (evs : list event) :
  forall a, inv a -> exists a', run evs a = Some a' /\ inv a'.
Proof.
  induction evs as [|e evs IH]; intros a H; cbn [run]; [eauto|].
  destruct (inv_step_event e a H) as (a1 & -> & H1). now apply IH.
Qed.

Lemma inv_setup : exists a, setup = Some a /\ inv a.
Proof.
  eexists. split; [reflexivity|].
  split; [constructor|]; unfold calib_upto, buttons_ok; cbn; try inv_field.
  split; [now left | repeat split].
Qed.

Lemma inv_session (evs : list event) :
  exists a, session evs = Some a /\ inv a.
Proof.
  unfold session. destruct inv_setup as (a0 & -> & H0).
  now apply inv_run.
Qed.

(** The example states are states of sessions. *)
Example scenario_session :
  session [] = Some at_start /\
  session [MousePressed 10 10 env0; PrimeTimeout] = Some primed /\
  session scenario_events = Some recording.
Proof. repeat split; vm_compute; reflexivity. Qed.

(** ** Properties of every session *)

(** X8: whatever the events of a session, no handler throws, calibStep stays
    between 0 and 4, before the fourth calibration click there is no model,
    no rep and no recorded point, calibration clicks only count once the
    video is primed, and from the fourth click on the model is the one
    [finalizeCalibration] computes from the four stored points. *)
Theorem session_calibration (evs : list event) :
  exists a,
    session evs = Some a /\
    (0 <= calibStep a <= 4)%Z /\
    ((0 < calibStep a)%Z -> warmed a = true) /\
    ((calibStep a < 4)%Z ->
     pixelsPerMeter (core a) = None /\ topLine (core a) = None /\
     trails (core a) = [] /\ points (current a) = []) /\
    (calibStep a = 4%Z ->
     exists lb lt rb rt,
       calibPts (core a) = CalibPts (Some lb) (Some lt) (Some rb) (Some rt) /\
       pixelsPerMeter (core a) =
         Some ((abs (y lt - y lb) + abs (y rt - y rb)) / 2 / NET_HEIGHT_M) /\
       topLine (core a) =
         Some (Line ((y rt - y lt) / (x rt - x lt))
                    (y lt - (y rt - y lt) / (x rt - x lt) * x lt))).
Proof.
  destruct (inv_session evs)
    as (a & Ha & [[H1 H2 H3 H4 H5 H12 H6 H7 H8 H10 H11] H9]).
  exists a. repeat split; try assumption; try lia; try (now apply H3).
Qed.

(** X9: in every state of a session each rep of trails has at least one
    point and a colour of the palette, and its metrics are either absent or
    exactly what [computeAllRepMetrics] gives it under the current model;
    the rep being recorded has a palette colour; and before playback is
    started there is no rep and no recorded point. *)
Theorem session_reps (evs : list event) :
  exists a,
    session evs = Some a /\
    (forall r, In r (trails (core a)) ->
       points r <> [] /\ In (color r) PALETTE /\
       ((peakM r = None /\ aboveNetCM r = None /\ widthM r = None /\
         direction r = None) \/
        computeRepMetrics (core a) r = r)) /\
    In (color (current a)) PALETTE /\
    (started a = false -> trails (core a) = [] /\ points (current a) = []).
Proof.
  destruct (inv_session evs)
    as (a & Ha & [[H1 H2 H3 H4 H5 H12 H6 H7 H8 H10 H11] H9]).
  exists a. split; [exact Ha|]. split; [exact H6|].
  split; [apply H7 | exact H12].
Qed.

(** X10: in every state of a session the dashboard buttons are shown only on
    the end screen of a calibrated session, and on the end screen the flag
    statsVisible agrees with whether the stats container is displayed, which
    then holds a table. *)
Theorem session_dashboard (evs : list event) :
  exists a,
    session evs = Some a /\
    (buttonsShown a = true -> showAllAtEnd a = true /\ calibStep a = 4%Z) /\
    (showAllAtEnd a = true ->
     statsVisible a = statsDisplay a /\ statsHtml a <> None).
Proof.
  destruct (inv_session evs) as (a & Ha & [[H1 H2 H3 H4 H5 H12 H6 H7 H8 H10 H11] H9]).
  exists a. repeat split; try assumption; try (now apply H9); now apply H10.
Qed.


(** ** Calibration by four clicks *)

(** X12: once the video is primed, four clicks at calibStep 0 store their
    positions as LB, LT, RB and RT in this order, set calibStep to 4 and
    store the model of these four points; reps, recorded points and the
    video are left alone. *)
Theorem four_clicks_calibrate
    (a : sketch) (x1 y1 x2 y2 x3 y3 x4 y4 : float) (e1 e2 e3 e4 : video_env) :
  warmed a = true -> calibStep a = 0%Z ->
  exists a',
    run [MousePressed x1 y1 e1; MousePressed x2 y2 e2;
         MousePressed x3 y3 e3; MousePressed x4 y4 e4] a = Some a' /\
    calibStep a' = 4%Z /\
    calibPts (core a') =
      CalibPts (Some (Pt x1 y1)) (Some (Pt x2 y2))
               (Some (Pt x3 y3)) (Some (Pt x4 y4)) /\
    pixelsPerMeter (core a') =
      Some ((abs (y2 - y1) + abs (y4 - y3)) / 2 / NET_HEIGHT_M) /\
    topLine (core a') =
      Some (Line ((y4 - y2) / (x4 - x2)) (y2 - (y4 - y2) / (x4 - x2) * x2)) /\
    trails (core a') = trails (core a) /\ current a' = current a /\
    started a' = started a /\ sent a' = sent a.
Proof.
  intros Hw Hk. destruct a as [c r w s cur sa st k sv pi sd sh bs tl pt se].
  cbn in Hw, Hk. subst w k.
  match goal with
  | |- exists a', ?R = Some a' /\ _ =>
      let v := eval vm_compute in R in
      replace R with v by (vm_compute; reflexivity)
  end.
  eexists. split; [reflexivity|]. vm_compute. repeat split.
Qed.

Lemma four_clicks_calibrate_witness :
  exists a',
    run [MousePressed 100 400 env0; MousePressed 100 200 env0;
         MousePressed 700 410 env0; MousePressed 700 205 env0] primed
      = Some a' /\
    calibStep a' = 4%Z /\
    calibPts (core a') =
      CalibPts (Some (Pt 100 400)) (Some (Pt 100 200))
               (Some (Pt 700 410)) (Some (Pt 700 205)) /\
    pixelsPerMeter (core a') =
      Some ((abs (200 - 400) + abs (205 - 410)) / 2 / NET_HEIGHT_M) /\
    topLine (core a') =
      Some (Line ((205 - 200) / (700 - 100))
                 (200 - (205 - 200) / (700 - 100) * 100)) /\
    trails (core a') = trails (core primed) /\ current a' = current primed /\
    started a' = started primed /\ sent a' = sent primed.
Proof.
  apply (four_clicks_calibrate primed 100 400 100 200 700 410 700 205
           env0 env0 env0 env0); reflexivity.
Defined.

(** ** Recording and undoing *)

(** Setting a field to the value it has changes nothing. *)
Lemma set_current_same (a : sketch) : set_current (current a) a = a.
Proof. now destruct a. Qed.

Lemma pop_push (p : click) (r : rep) : pop_point (push_point p r) = r.
Proof.
  destruct r as [ps c pk cm w d]. unfold pop_point, push_point.
  cbn [points color peakM aboveNetCM widthM direction].
  now rewrite removelast_last.
Qed.

Lemma set_current_twice (r1 r2 : rep) (a : sketch) :
  set_current r2 (set_current r1 a) = set_current r2 a.
Proof. reflexivity. Qed.

(** A click that records a point. *)
Lemma mousePressed_records (mouseX mouseY : float) (env : video_env) (a : sketch) :
  warmed a = true -> calibStep a = 4%Z -> started a = true ->
  showAllAtEnd a = false ->
  mousePressed mouseX mouseY env a =
  Some (a |> set_current
              (push_point (Click mouseX mouseY (vidTime env)) (current a))).
Proof.
  intros Hw Hk Hs He. unfold mousePressed. now rewrite Hw, Hk, Hs, He.
Qed.

(** What the key Z does once calibration is complete. *)
Lemma keyPressed_undo (keyCode : Z) (env : video_env) (a : sketch) :
  calibStep a = 4%Z ->
  keyPressed "z" keyCode env a =
  Some (if (0 <? length (points (current a)))%nat
        then a |> set_current (pop_point (current a))
        else a).
Proof. intros Hk. unfold keyPressed. now rewrite Hk. Qed.

(** X13: while recording, a click followed by the key z leaves the state as
    it was; and the key z on a rep without points does nothing (it never
    reaches into a closed rep). *)
Theorem click_then_undo
    (a : sketch) (mouseX mouseY : float) (keyCode : Z) (env env' : video_env) :
  warmed a = true -> calibStep a = 4%Z -> started a = true ->
  showAllAtEnd a = false ->
  run [MousePressed mouseX mouseY env; KeyPressed "z" keyCode env'] a = Some a /\
  (points (current a) = [] -> keyPressed "z" keyCode env' a = Some a).
Proof.
  intros Hw Hk Hs He. split.
  - cbn [run step]. rewrite mousePressed_records by assumption.
    rewrite keyPressed_undo by exact Hk. app_simpl.
    rewrite length_app. cbn [length].
    replace (0 <? length (points (current a)) + 1)%nat with true
      by (symmetry; apply Nat.ltb_lt; lia).
    rewrite set_current_twice.
    fold (push_point (Click mouseX mouseY (vidTime env)) (current a)).
    now rewrite pop_push, set_current_same.
  - intros Hp. rewrite keyPressed_undo by exact Hk. now rewrite Hp.
Qed.

Lemma click_then_undo_witness :
  run [MousePressed 300 400 env0; KeyPressed "z" 90 env0] recording
    = Some recording /\
  (points (current recording) = [] ->
   keyPressed "z" 90 env0 recording = Some recording).
Proof.
  apply (click_then_undo recording 300 400 90 env0 env0); reflexivity.
Defined.

(** ** Closing a rep *)

Lemma run_app (evs1 evs2 : list event) (a : sketch) :
  run (evs1 ++ evs2) a =
  match run evs1 a with
  | Some a1 => run evs2 a1
  | None => None
  end.
Proof.
  revert a. induction evs1 as [|e evs1 IH]; intros a; cbn [run List.app];
    [reflexivity|].
  destruct (step e a); [apply IH | reflexivity].
Qed.

(** Clicks while recording add their points to the current rep, in order,
    and change nothing else. *)
Lemma run_clicks (cs : list (float * float * video_env)) :
  forall a,
    warmed a = true -> calibStep a = 4%Z -> started a = true ->
    showAllAtEnd a = false ->
    run (click_events cs) a =
    Some (a |> set_current
                (Rep (points (current a) ++ clicked cs) (color (current a))
                     (peakM (current a)) (aboveNetCM (current a))
                     (widthM (current a)) (direction (current a)))).
Proof.
  induction cs as [|[[u v] e] cs IH]; intros a Hw Hk Hs He.
  - cbn [click_events clicked map run]. rewrite app_nil_r.
    destruct a as [c r w s cur sa st k sv pi sd sh bs tl pt se].
    now destruct cur.
  - cbn [click_events clicked map run step fst snd].
    rewrite mousePressed_records by assumption.
    fold (click_events cs). rewrite IH by assumption.
    app_simpl. rewrite <- app_assoc. reflexivity.
Qed.

(** X14: in a state of a session that is recording, clicks followed by the
    key n append exactly one rep to trails, holding the points of the
    current rep and of these clicks in order and the current colour, and
    start an empty rep whose colour is a palette colour different from the
    one just closed (while fewer than 2^53 colours have been taken). *)
Theorem close_rep
    (evs : list event) (a : sketch) (cs : list (float * float * video_env))
    (keyCode : Z) (env : video_env) :
  session evs = Some a ->
  calibStep a = 4%Z -> started a = true -> showAllAtEnd a = false ->
  (paletteIdx a < 2 ^ 53)%Z ->
  cs <> [] ->
  exists a',
    run (click_events cs ++ [KeyPressed "n" keyCode env]) a = Some a' /\
    trails (core a') =
      trails (core a) ++
      [Rep (points (current a) ++ clicked cs) (color (current a))
           None None None None] /\
    points (current a') = [] /\
    In (color (current a')) PALETTE /\
    color (current a') <> color (current a).
Proof.
  intros Ha Hk Hs He Hidx Hcs.
  destruct (inv_session evs) as (a0 & Ha0 & [[H1 H2 H3 H4 H5 H12 H6 H7 H8 H10 H11] H9]).
  rewrite Ha in Ha0. injection Ha0 as <-.
  assert (Hw : warmed a = true) by (apply H5; lia).
  destruct H7 as (Hcol & Hpk & Hcm & Hwd & Hdir).
  destruct H8 as (Hb & Hprev). specialize (Hprev Hidx).
  rewrite run_app, run_clicks by assumption. cbn [run step].
  rewrite Hpk, Hcm, Hwd, Hdir.
  unfold keyPressed. app_simpl. rewrite Hk.
  cbn [Z.ltb Z.compare Pos.compare Pos.compare_cont].
  replace (String.eqb "n" " ") with false by reflexivity.
  replace (String.eqb "n" "N" || String.eqb "n" "n") with true by reflexivity.
  rewrite length_app.
  replace (0 <? length (points (current a)) + length (clicked cs))%nat
    with true.
  2:{ symmetry. apply Nat.ltb_lt. unfold clicked. rewrite length_map.
      destruct cs; [congruence | simpl; lia]. }
  match goal with
  | |- context [startRep ?b] =>
      destruct (startRep_some b) as (c & Hc & Hin & ->); [app_simpl; lia|]
  end.
  app_simpl. eexists. split; [reflexivity|]. app_simpl.
  repeat split; try assumption.
  intros E. rewrite <- E in Hprev. rewrite <- Hc in Hprev.
  unfold nextColour in Hprev. cbn [fst] in Hprev.
  apply palette_index_inj in Hprev; try (apply palette_rem; lia).
  change (Z.of_nat (length PALETTE)) with 7%Z in Hprev.
  rewrite !Z.rem_mod_nonneg in Hprev by lia.
  assert (Hm : ((paletteIdx a - 1 + 1) mod 7 = (paletteIdx a - 1) mod 7 + 1
                \/ (paletteIdx a - 1 + 1) mod 7 = 0 /\
                   (paletteIdx a - 1) mod 7 = 6)%Z).
  { pose proof (Z.mod_pos_bound (paletteIdx a - 1) 7 ltac:(lia)).
    pose proof (Z.mod_pos_bound (paletteIdx a - 1 + 1) 7 ltac:(lia)).
    pose proof (Z.div_mod (paletteIdx a - 1) 7 ltac:(lia)).
    pose proof (Z.div_mod (paletteIdx a - 1 + 1) 7 ltac:(lia)).
    lia. }
  replace (paletteIdx a - 1 + 1)%Z with (paletteIdx a) in Hm by lia.
  lia.
Qed.

Lemma close_rep_witness :
  exists a',
    run (click_events [(300, 400, env0); (400, 150, env0); (500, 400, env0)]
         ++ [KeyPressed "n" 78 env0]) recording = Some a' /\
    trails (core a') =
      trails (core recording) ++
      [Rep (points (current recording)
            ++ clicked [(300, 400, env0); (400, 150, env0); (500, 400, env0)])
           (color (current recording)) None None None None] /\
    points (current a') = [] /\
    In (color (current a')) PALETTE /\
    color (current a') <> color (current recording).
Proof.
  apply (close_rep scenario_events recording
           [(300, 400, env0); (400, 150, env0); (500, 400, env0)] 78 env0).
  - vm_compute. reflexivity.
  - reflexivity.
  - reflexivity.
  - reflexivity.
  - reflexivity.
  - discriminate.
Defined.

(** ** The palette *)

(** X15: [nextColour] always finds a palette colour; two values of the
    counter give the same colour exactly when they are equal modulo 7 (the
    seven colours are different); and below 2^53 the counter goes up by one. *)
Theorem palette_cycle (i j : Z) :
  (0 <= i)%Z -> (0 <= j)%Z ->
  (exists c, fst (nextColour i) = Some c /\ In c PALETTE) /\
  (fst (nextColour i) = fst (nextColour j) <-> (i mod 7 = j mod 7)%Z) /\
  ((i < 2 ^ 53)%Z -> snd (nextColour i) = (i + 1)%Z).
Proof.
  intros Hi Hj. split; [now apply nextColour_some|]. split.
  - unfold nextColour. cbn [fst].
    change (Z.of_nat (length PALETTE)) with 7%Z.
    rewrite !Z.rem_mod_nonneg by lia. split.
    + apply palette_index_inj; apply Z.mod_pos_bound; lia.
    + now intros ->.
  - intros Hlt. unfold nextColour, P5.incr. cbn [snd].
    destruct (Z.ltb_spec i (2 ^ 53)); [reflexivity | lia].
Qed.

Lemma palette_cycle_witness :
  (exists c, fst (nextColour 0) = Some c /\ In c PALETTE) /\
  (fst (nextColour 0) = fst (nextColour 7) <-> (0 mod 7 = 7 mod 7)%Z) /\
  ((0 < 2 ^ 53)%Z -> snd (nextColour 0) = (0 + 1)%Z).
Proof.
  apply (palette_cycle 0 7); lia.
Defined.

(** ** Replay, restart and reset *)




(** X17: once calibration is complete the key r clears the reps and the
    calibration: no points, no model, calibStep 0, the video not primed and
    not started, the stats container empty and hidden, the buttons hidden;
    both converters answer null again. *)
Theorem reset_clears (a : sketch) (keyCode : Z) (env : video_env) :
  (4 <= calibStep a)%Z -> (0 <= paletteIdx a)%Z -> keyCode <> P5.ENTER ->
  exists a',
    keyPressed "r" keyCode env a = Some a' /\
    core a' = initial /\ calibStep a' = 0%Z /\
    warmed a' = false /\ started a' = false /\ ready a' = true /\
    points (current a') = [] /\
    showAllAtEnd a' = false /\ buttonsShown a' = false /\
    statsDisplay a' = false /\ statsHtml a' = None /\
    (forall u v, metersAboveNetAtPoint (core a') u v = None) /\
    (forall p q, metersHorizDistance (core a') p q = None).
Proof.
  intros Hk Hi Hc.
  assert (Hlt : (calibStep a <? 4)%Z = false) by (apply Z.ltb_ge; lia).
  assert (He : (keyCode =? P5.ENTER)%Z = false) by now apply Z.eqb_neq.
  unfold keyPressed. rewrite Hlt, He. cbn [String.eqb Ascii.eqb Bool.eqb orb].
  unfold reset.
  match goal with
  | |- context [startRep ?b] =>
      destruct (startRep_some b) as (c & _ & _ & ->); [exact Hi|]
  end.
  eexists. split; [reflexivity|].
  unfold updateDashboard. app_simpl. cbn [andb]. app_simpl.
  repeat split.
Qed.

Lemma reset_clears_witness :
  exists a',
    keyPressed "r" 82 env0 recording = Some a' /\
    core a' = initial /\ calibStep a' = 0%Z /\
    warmed a' = false /\ started a' = false /\ ready a' = true /\
    points (current a') = [] /\
    showAllAtEnd a' = false /\ buttonsShown a' = false /\
    statsDisplay a' = false /\ statsHtml a' = None /\
    (forall u v, metersAboveNetAtPoint (core a') u v = None) /\
    (forall p q, metersHorizDistance (core a') p q = None).
Proof.
  apply (reset_clears recording 82 env0).
  - vm_compute. discriminate.
  - vm_compute. discriminate.
  - vm_compute. discriminate.
Defined.

(** ** The end of the video *)

(** [onended], field by field. *)
Lemma onended_eq (a : sketch) :
  onended a =
  Sketch (computeAllRepMetrics (core a)) (ready a) (warmed a) (started a)
         (current a) true true (calibStep a) true (paletteIdx a) true
         (Some (renderStatsTable (computeAllRepMetrics (core a))))
         (4 <=? calibStep a)%Z
         (if (4 <=? calibStep a)%Z then Some true else toggleLabel a)
         (primeTimers a) (sent a).
Proof.
  destruct a as [c r w s cur sa st k sv pi sd sh bs tl pt se].
  unfold onended, updateDashboard. app_simpl. cbn [andb].
  destruct (4 <=? k)%Z; reflexivity.
Qed.

(** X18: the handler of the end of the video is idempotent; the stats
    container then holds the table of the reps as they are; and on the end
    screen of a session that is primed, calibrated and started a click
    changes nothing. *)
Theorem onended_again (a : sketch) :
  onended (onended a) = onended a /\
  statsHtml (onended a) = Some (renderStatsTable (core (onended a))) /\
  forall mouseX mouseY env,
    warmed a = true -> calibStep a = 4%Z -> started a = true ->
    mousePressed mouseX mouseY env (onended a) = Some (onended a).
Proof.
  split; [|split].
  - rewrite !onended_eq.
    cbn [core ready warmed started current calibStep paletteIdx toggleLabel
         primeTimers sent].
    unfold computeAllRepMetrics at 1 3.
    cbn [calibPts pixelsPerMeter topLine trails computeAllRepMetrics].
    rewrite map_computeRepMetrics_again by reflexivity.
    destruct (4 <=? calibStep a)%Z; reflexivity.
  - rewrite onended_eq. reflexivity.
  - intros mouseX mouseY env Hw Hk Hs. rewrite onended_eq.
    unfold mousePressed. cbn [warmed calibStep started showAllAtEnd].
    now rewrite Hw, Hk, Hs.
Qed.

(** ** Priming *)

(** X19: in a state of a session whose video is not primed, one frame and
    the time-out it sets prime the video: the video is muted, played and
    paused, and nothing of the calibration changes. *)
Theorem priming_completes (evs : list event) (a : sketch) :
  session evs = Some a -> warmed a = false ->
  exists a',
    run [Draw; PrimeTimeout] a = Some a' /\ warmed a' = true /\
    calibStep a' = 0%Z /\ core a' = core a /\
    sent a' = sent a ++ [VidVolume 0; VidPlay; VidPause].
Proof.
  intros Ha Hw.
  destruct (inv_session evs) as (a0 & Ha0 & [[H1 H2 H3 H4 H5 H12 H6 H7 H8 H10 H11] H9]).
  rewrite Ha in Ha0. injection Ha0 as <-.
  assert (Hk : calibStep a = 0%Z).
  { destruct (Z.eq_dec (calibStep a) 0) as [E|E]; [exact E|].
    rewrite H5 in Hw by lia. discriminate. }
  destruct a as [c r w s cur sa st k sv pi sd sh bs tl pt se].
  cbn in Hw, Hk. subst w k.
  eexists. split; [reflexivity|]. cbn.
  repeat split. now rewrite <- app_assoc.
Qed.

Lemma priming_completes_witness :
  exists a',
    run [Draw; PrimeTimeout] at_start = Some a' /\ warmed a' = true /\
    calibStep a' = 0%Z /\ core a' = core at_start /\
    sent a' = sent at_start ++ [VidVolume 0; VidPlay; VidPause].
Proof.
  apply (priming_completes [] at_start); reflexivity.
Defined.

(** ** Frame steps *)

Lemma max_zero_nonneg (v : float) :
  is_nan v = false -> (0 <=? P5.max 0 v) = true.
Proof.
  intros Hv. unfold P5.max. rewrite Hv. cbn [is_nan orb].
  change (is_nan 0) with false. cbn [orb].
  destruct (0 <? v) eqn:E1; [now apply B64.ltb_leb|].
  destruct (v <? 0) eqn:E2; reflexivity.
Qed.

Lemma min_le_left (d v : float) :
  is_nan d = false -> is_nan v = false -> (P5.min d v <=? d) = true.
Proof.
  intros Hd Hv. unfold P5.min. rewrite Hd, Hv. cbn [orb].
  destruct (d <? v) eqn:E1; [now apply B64.leb_refl|].
  destruct (v <? d) eqn:E2; [now apply B64.ltb_leb|].
  destruct (is_zero d && negb (get_sign d));
    [now apply B64.ltb_false_leb | now apply B64.leb_refl].
Qed.

(** X20: while recording, with a clock and a duration that are numbers, the
    key , pauses and seeks to a time that is not below 0, and the key .
    pauses and seeks to a time that is not beyond the duration. *)
Theorem frame_step_clamped (a : sketch) (env : video_env) :
  calibStep a = 4%Z -> showAllAtEnd a = false ->
  is_nan (vidTime env) = false -> is_nan (vidDuration env) = false ->
  (exists t,
      keyPressed "," 188 env a = Some (a |> send [VidPause; VidTime t]) /\
      (0 <=? t) = true) /\
  (exists t,
      keyPressed "." 190 env a = Some (a |> send [VidPause; VidTime t]) /\
      (t <=? vidDuration env) = true).
Proof.
  intros Hk He Ht Hd. unfold keyPressed. rewrite Hk, He.
  cbn [Z.ltb Z.compare Pos.compare Pos.compare_cont negb String.eqb Ascii.eqb
       Bool.eqb orb].
  split; eexists; (split; [reflexivity|]).
  - apply max_zero_nonneg, sub_finite_not_nan; [exact Ht | reflexivity].
  - apply min_le_left; [exact Hd|].
    apply add_finite_not_nan; [exact Ht | reflexivity].
Qed.

Lemma frame_step_clamped_witness :
  (exists t,
      keyPressed "," 188 env0 recording
        = Some (recording |> send [VidPause; VidTime t]) /\
      (0 <=? t) = true) /\
  (exists t,
      keyPressed "." 190 env0 recording
        = Some (recording |> send [VidPause; VidTime t]) /\
      (t <=? vidDuration env0) = true).
Proof.
  apply (frame_step_clamped recording env0); reflexivity.
Defined.
